(** * stpp: a streaming tag preprocessor -- shallow embedding of [stpp.cpp]

    The development follows the source file top to bottom:
    - the directive scanner [extract_operation];
    - the tag reader [get_tag] with [handle_define] / [handle_undef];
    - the expression lexer [ExprLexer] and the fused recursive-descent
      evaluator [primary_condition] / [unary_condition] / [binary_condition];
    - the stream loops [consume], [consume_next] and [handle_if].

    Conventions.  A [std::istream] is the list of bytes not yet read, so
    [in.get(c)] pops the head and fails on the empty list (a failed read
    leaves [c] untouched and the stream stays failed, i.e. empty);
    [in.unget()] after a successful read pushes the byte back.  The output
    sink is the list of bytes written so far, and [std::cerr] is the list of
    diagnostic lines written so far.  [std::unordered_set<std::string>] is a
    [gset string]. *)

From Stdlib Require Import Ascii String.
From stdpp Require Import base option list gmap strings.

Local Open Scope string_scope.
Local Open Scope list_scope.
Local Open Scope nat_scope.

(** ** Characters and text *)

Definition PP_START : ascii := "#"%char.
Definition NL : ascii := "010"%char.
Definition NUL : ascii := "000"%char.

(** Literal text as a byte list. *)
Definition txt (s : string) : list ascii := list_ascii_of_string s.

(** [std::isspace] in the "C" locale: space, and the range TAB..CR; no byte
    above 127 is a space. *)
Definition isspace (c : ascii) : bool :=
  let n := nat_of_ascii c in
  Nat.eqb n 32 || (Nat.leb 9 n && Nat.leb n 13).

(** A [const char*] is read by [strcmp] and [strlen] up to its first NUL. *)
Fixpoint c_str (buf : list ascii) : list ascii :=
  match buf with
  | [] => []
  | c :: r => if Ascii.eqb c NUL then [] else c :: c_str r
  end.

(** ** Directive scanner *)

Module Operation.
Inductive t := If | Elif | Else | Endif | Define | Undef | Unknown.

#[global] Instance eq_dec : EqDecision t.
Proof. solve_decision. Defined.
End Operation.

Definition MAX_BUF_SIZE : nat := 16.

(** The [while] loop of [extract_operation].  [buffer] holds the bytes stored
    so far, so the source's [counter] is [length buffer].  The loop test
    reads [counter < MAX_BUF_SIZE] first: with a full buffer no byte is
    read. *)
Fixpoint extract_loop (buffer : list ascii) (started : bool) (s : list ascii)
  : list ascii * list ascii :=
  if Nat.ltb (length buffer) MAX_BUF_SIZE then
    match s with
    | [] => (buffer, [])
    | c :: s' =>
        if Ascii.eqb c NL then (buffer, s')
        else if negb (isspace c) then extract_loop (buffer ++ [c]) true s'
        else if started then (buffer, s')
        else extract_loop buffer started s'
    end
  else (buffer, s).

(** The [strcmp] chain. *)
Definition classify (name : list ascii) : Operation.t :=
  if decide (name = txt "if") then Operation.If
  else if decide (name = txt "elif") then Operation.Elif
  else if decide (name = txt "else") then Operation.Else
  else if decide (name = txt "endif") then Operation.Endif
  else if decide (name = txt "define") then Operation.Define
  else if decide (name = txt "undef") then Operation.Undef
  else Operation.Unknown.

(** Returns the operation, the C string [name] and the stream after the
    scan. *)
Definition extract_operation (s : list ascii)
  : Operation.t * list ascii * list ascii :=
  let '(buffer, s') := extract_loop [] false s in
  let name := c_str buffer in
  (classify name, name, s').

(** ** Tag context *)

Definition SIZE_MAX1 : N := 2 ^ 64.

Record Context := { Tags : gset string; Depth : N }.

Definition depth_incr (ctx : Context) : Context :=
  {| Tags := Tags ctx; Depth := (Depth ctx + 1) mod SIZE_MAX1 |}.

Definition depth_decr (ctx : Context) : Context :=
  {| Tags := Tags ctx; Depth := (Depth ctx + SIZE_MAX1 - 1) mod SIZE_MAX1 |}.

(** ** [define] / [undef] *)

(** The loop of [get_tag]; [buffer] is a [std::string]. *)
Fixpoint get_tag_loop (buffer : string) (started : bool) (s : list ascii)
  : string * list ascii :=
  match s with
  | [] => (buffer, [])
  | c :: s' =>
      if Ascii.eqb c NL then (buffer, s')
      else if negb (isspace c) then get_tag_loop (buffer +:+ String c "") true s'
      else if started then (buffer, s')
      else get_tag_loop buffer started s'
  end.

Definition get_tag (s : list ascii) : string * list ascii :=
  get_tag_loop "" false s.

(** The three channels a run touches. *)
Record IO := { io_in : list ascii; io_out : list ascii; io_err : list string }.

Definition set_in (io : IO) (s : list ascii) : IO :=
  {| io_in := s; io_out := io_out io; io_err := io_err io |}.
Definition put (io : IO) (cs : list ascii) : IO :=
  {| io_in := io_in io; io_out := io_out io ++ cs; io_err := io_err io |}.
Definition cerr (io : IO) (msgs : list string) : IO :=
  {| io_in := io_in io; io_out := io_out io; io_err := io_err io ++ msgs |}.

Definition handle_define (io : IO) (ctx : Context) : bool * IO * Context :=
  let '(tag, s') := get_tag (io_in io) in
  if decide (tag = "") then
    (false, cerr (set_in io s') ["Define statement without tag"], ctx)
  else
    (true, set_in io s', {| Tags := {[ tag ]} ∪ Tags ctx; Depth := Depth ctx |}).

Definition handle_undef (io : IO) (ctx : Context) : bool * IO * Context :=
  let '(tag, s') := get_tag (io_in io) in
  if decide (tag = "") then
    (false, cerr (set_in io s') ["Undef statement without tag"], ctx)
  else
    (true, set_in io s', {| Tags := Tags ctx ∖ {[ tag ]}; Depth := Depth ctx |}).

(** ** Expression lexer *)

Module TokenType.
Inductive t :=
  Tag | ParantheseOpen | ParantheseClose | And | Or | Xor | Not | EOS.

#[global] Instance eq_dec : EqDecision t.
Proof. solve_decision. Defined.
End TokenType.

Record Token := { Type_ : TokenType.t; Tag : string }.

#[global] Instance Token_eq_dec : EqDecision Token.
Proof. solve_decision. Defined.

Definition op_token (ty : TokenType.t) : Token := {| Type_ := ty; Tag := "" |}.

Record ExprLexer := { mTokens : list Token; mPosition : nat }.

Definition tokenStr (type : TokenType.t) : string :=
  match type with
  | TokenType.Tag => "Tag"
  | TokenType.ParantheseOpen => "("
  | TokenType.ParantheseClose => ")"
  | TokenType.And => "&&"
  | TokenType.Or => "||"
  | TokenType.Xor => "^"
  | TokenType.Not => "!"
  | TokenType.EOS => "EOS"
  end.

(** The lambda [checkAddTag]: flush a pending tag; the caller then continues
    with the cleared buffer. *)
Definition checkAddTag (tag : string) (toks : list Token) : list Token :=
  if decide (tag = "") then toks
  else toks ++ [{| Type_ := TokenType.Tag; Tag := tag |}].

(** The [while] loop of the constructor.  In the [&] and [|] cases the source
    reads one more byte: at end of stream that read fails and [c] keeps its
    value, so the doubled-operator branch is taken; otherwise a byte that
    does not double the operator is pushed back with [unget]. *)
Fixpoint lex_loop (tag : string) (toks : list Token) (err : list string)
    (s : list ascii) : list Token * list string * list ascii :=
  match s with
  | [] => (checkAddTag tag toks, err, [])
  | c :: s' =>
      if Ascii.eqb c NL then (checkAddTag tag toks, err, s')
      else if isspace c then lex_loop "" (checkAddTag tag toks) err s'
      else if Ascii.eqb c "!" then
        lex_loop "" (checkAddTag tag toks ++ [op_token TokenType.Not]) err s'
      else if Ascii.eqb c "^" then
        lex_loop "" (checkAddTag tag toks ++ [op_token TokenType.Xor]) err s'
      else if Ascii.eqb c "(" then
        lex_loop "" (checkAddTag tag toks ++ [op_token TokenType.ParantheseOpen]) err s'
      else if Ascii.eqb c ")" then
        lex_loop "" (checkAddTag tag toks ++ [op_token TokenType.ParantheseClose]) err s'
      else if Ascii.eqb c "&" then
        let toks' := checkAddTag tag toks ++ [op_token TokenType.And] in
        match s' with
        | [] => lex_loop "" toks' err s'
        | c2 :: s'' =>
            if Ascii.eqb c2 "&" then lex_loop "" toks' err s''
            else lex_loop "" toks' (err ++ ["And operator is && not &"]) s'
        end
      else if Ascii.eqb c "|" then
        let toks' := checkAddTag tag toks ++ [op_token TokenType.Or] in
        match s' with
        | [] => lex_loop "" toks' err s'
        | c2 :: s'' =>
            if Ascii.eqb c2 "|" then lex_loop "" toks' err s''
            else lex_loop "" toks' (err ++ ["Or operator is || not |"]) s'
        end
      else lex_loop (tag +:+ String c "") toks err s'
  end.

(** [ExprLexer::ExprLexer]: the lexer, the diagnostics and the stream after
    the line. *)
Definition ExprLexer_new (err : list string) (s : list ascii)
  : ExprLexer * list string * list ascii :=
  let '(toks, err', s') := lex_loop "" [] err s in
  ({| mTokens := toks; mPosition := 0 |}, err', s').

Definition current (lx : ExprLexer) : Token :=
  default (op_token TokenType.EOS) (mTokens lx !! mPosition lx).

Definition accept (lx : ExprLexer) : ExprLexer :=
  {| mTokens := mTokens lx; mPosition := S (mPosition lx) |}.

Definition accept_type (lx : ExprLexer) (err : list string) (type : TokenType.t)
  : bool * ExprLexer * list string :=
  let good := bool_decide (Type_ (current lx) = type) in
  let err' :=
    if good then err
    else err ++ ["Expected '" +:+ tokenStr type +:+ "' but got '"
                 +:+ tokenStr (Type_ (current lx)) +:+ "'"] in
  (good, accept lx, err').

(** [ctx.Tags.count(tag) > 0] *)
Definition has_tag (ctx : Context) (tag : string) : bool :=
  bool_decide (tag ∈ Tags ctx).

(** ** Expression evaluator

    The three C++ functions call each other through the call stack; [fuel]
    bounds the depth of that stack.  [cond_fuel] below is a depth that always
    suffices (lemma [binary_condition_total]). *)

Fixpoint binary_condition (fuel : nat) (lx : ExprLexer) (err : list string)
    (ctx : Context) {struct fuel} : option (bool * ExprLexer * list string) :=
  match fuel with
  | 0 => None
  | S fuel =>
      '(a, lx, err) ← unary_condition fuel lx err ctx;
      let ty := Type_ (current lx) in
      if bool_decide (ty = TokenType.EOS) || bool_decide (ty = TokenType.ParantheseClose)
      then Some (a, accept lx, err)
      else if bool_decide (ty = TokenType.And) then
        '(b, lx, err) ← binary_condition fuel (accept lx) err ctx;
        Some (a && b, lx, err)
      else if bool_decide (ty = TokenType.Or) then
        '(b, lx, err) ← binary_condition fuel (accept lx) err ctx;
        Some (a || b, lx, err)
      else if bool_decide (ty = TokenType.Xor) then
        '(b, lx, err) ← binary_condition fuel (accept lx) err ctx;
        Some (xorb a b, lx, err)
      else Some (false, lx, err)
  end
with unary_condition (fuel : nat) (lx : ExprLexer) (err : list string)
    (ctx : Context) {struct fuel} : option (bool * ExprLexer * list string) :=
  match fuel with
  | 0 => None
  | S fuel =>
      if bool_decide (Type_ (current lx) = TokenType.Not) then
        '(a, lx, err) ← unary_condition fuel (accept lx) err ctx;
        Some (negb a, lx, err)
      else primary_condition fuel lx err ctx
  end
with primary_condition (fuel : nat) (lx : ExprLexer) (err : list string)
    (ctx : Context) {struct fuel} : option (bool * ExprLexer * list string) :=
  match fuel with
  | 0 => None
  | S fuel =>
      if bool_decide (Type_ (current lx) = TokenType.ParantheseOpen) then
        '(a, lx, err) ← binary_condition fuel (accept lx) err ctx;
        let '(good, lx, err) := accept_type lx err TokenType.ParantheseClose in
        if negb good then Some (false, lx, err) else Some (a, lx, err)
      else
        let tag := current lx in
        let '(good, lx, err) := accept_type lx err TokenType.Tag in
        if negb good then Some (false, lx, err)
        else Some (has_tag ctx (Tag tag), lx, err)
  end.

(** Tokens not yet consumed, and a call depth that suffices for them. *)
Definition remaining (lx : ExprLexer) : nat := length (mTokens lx) - mPosition lx.
Definition cond_fuel (lx : ExprLexer) : nat := 3 * remaining lx + 3.

(** [handle_condition]: lex one line, reject the empty condition, evaluate.
    The result is the guard's value and the channels afterwards.  The
    evaluation is given the depth [cond_fuel], so the [None] branch is never
    taken (lemma [handle_condition_evaluated]). *)
Definition handle_condition (io : IO) (ctx : Context) : bool * IO :=
  let '(lexer, err, s') := ExprLexer_new (io_err io) (io_in io) in
  let io' := {| io_in := s'; io_out := io_out io; io_err := err |} in
  if bool_decide (Type_ (current lexer) = TokenType.EOS) then
    (false, cerr io' ["Expected condition but got nothing"])
  else
    match binary_condition (cond_fuel lexer) lexer err ctx with
    | Some (r, _, err') =>
        (r, {| io_in := s'; io_out := io_out io; io_err := err' |})
    | None => (false, io')
    end.

(** ** The stream loops

    [consume], [consume_next] and [handle_if] are mutually recursive and the
    [while] loop of [handle_if] need not terminate, so the four functions
    take [fuel]: one unit per call and per loop iteration, [None] when it
    runs out.  A result [Some (ok, io, ctx)] is the C++ return value together
    with the channels and the context as the call leaves them. *)

Definition emit (ignore : bool) (io : IO) (cs : list ascii) : IO :=
  if ignore then io else put io cs.

Fixpoint consume_next (fuel : nat) (io : IO) (ctx : Context) (ignore : bool)
    (next : Operation.t) {struct fuel}
  : option (bool * IO * Context * Operation.t) :=
  match fuel with
  | 0 => None
  | S fuel =>
      match io_in io with
      | [] => Some (true, io, ctx, next)
      | c :: s =>
          if Ascii.eqb c PP_START then
            let '(op, name, s') := extract_operation s in
            let io1 := set_in io s' in
            match op with
            | Operation.If =>
                '(ok, io2, ctx2) ← handle_if fuel io1 ctx ignore;
                if negb ok then Some (false, io2, ctx2, next)
                else consume_next fuel io2 ctx2 ignore next
            | Operation.Elif | Operation.Else | Operation.Endif =>
                Some (true, io1, ctx, op)
            | Operation.Define =>
                if ignore then consume_next fuel io1 ctx ignore next
                else
                  let '(ok, io2, ctx2) := handle_define io1 ctx in
                  if negb ok then Some (false, io2, ctx2, next)
                  else consume_next fuel io2 ctx2 ignore next
            | Operation.Undef =>
                if ignore then consume_next fuel io1 ctx ignore next
                else
                  let '(ok, io2, ctx2) := handle_undef io1 ctx in
                  if negb ok then Some (false, io2, ctx2, next)
                  else consume_next fuel io2 ctx2 ignore next
            | Operation.Unknown =>
                consume_next fuel (emit ignore io1 (PP_START :: name)) ctx ignore next
            end
          else consume_next fuel (emit ignore (set_in io s) [c]) ctx ignore next
      end
  end

with handle_if (fuel : nat) (io : IO) (ctx : Context) (ignore : bool)
    {struct fuel} : option (bool * IO * Context) :=
  match fuel with
  | 0 => None
  | S fuel =>
      (* bool condition = !ignore && handle_condition(in, ctx); *)
      let '(condition, io1) :=
        if ignore then (false, io) else handle_condition io ctx in
      '(io2, ctx2) ← handle_if_loop fuel io1 (depth_incr ctx) ignore
                       condition false Operation.If;
      Some (true, io2, depth_decr ctx2)
  end

(** The [while] loop of [handle_if], entered with the loop variables
    [condition], [once_true] and [current]; it returns when [consume_next]
    fails or delivers [Endif]. *)
with handle_if_loop (fuel : nat) (io : IO) (ctx : Context) (ignore : bool)
    (condition once_true : bool) (current : Operation.t) {struct fuel}
  : option (IO * Context) :=
  match fuel with
  | 0 => None
  | S fuel =>
      '(ok, io1, ctx1, current) ←
        consume_next fuel io ctx (ignore || once_true || negb condition) current;
      if negb ok then Some (io1, ctx1)
      else if bool_decide (current = Operation.Endif) then Some (io1, ctx1)
      else
        let once_true := if condition then true else once_true in
        if once_true then
          handle_if_loop fuel io1 ctx1 ignore false once_true current
        else if bool_decide (current = Operation.Elif) then
          let '(condition, io2) := handle_condition io1 ctx1 in
          handle_if_loop fuel io2 ctx1 ignore condition once_true current
        else
          handle_if_loop fuel io1 ctx1 ignore true once_true current
  end.

(** The top-level loop; it differs from [consume_next] in the [switch] only:
    [Elif], [Else] and [Endif] fall into the [default] label. *)
Fixpoint consume (fuel : nat) (io : IO) (ctx : Context) (ignore : bool)
    {struct fuel} : option (bool * IO * Context) :=
  match fuel with
  | 0 => None
  | S fuel =>
      match io_in io with
      | [] => Some (true, io, ctx)
      | c :: s =>
          if Ascii.eqb c PP_START then
            let '(op, name, s') := extract_operation s in
            let io1 := set_in io s' in
            match op with
            | Operation.If =>
                '(ok, io2, ctx2) ← handle_if fuel io1 ctx ignore;
                if negb ok then Some (false, io2, ctx2)
                else consume fuel io2 ctx2 ignore
            | Operation.Define =>
                if ignore then consume fuel io1 ctx ignore
                else
                  let '(ok, io2, ctx2) := handle_define io1 ctx in
                  if negb ok then Some (false, io2, ctx2)
                  else consume fuel io2 ctx2 ignore
            | Operation.Undef =>
                if ignore then consume fuel io1 ctx ignore
                else
                  let '(ok, io2, ctx2) := handle_undef io1 ctx in
                  if negb ok then Some (false, io2, ctx2)
                  else consume fuel io2 ctx2 ignore
            | _ =>
                consume fuel (emit ignore io1 (PP_START :: name)) ctx ignore
            end
          else consume fuel (emit ignore (set_in io s) [c]) ctx ignore
      end
  end.

Definition io_start (s : list ascii) : IO :=
  {| io_in := s; io_out := []; io_err := [] |}.

(** [parse]: the options contribute the predefined tags. *)
Definition parse (fuel : nat) (s : list ascii) (tags : gset string)
  : option (bool * IO * Context) :=
  consume fuel (io_start s) {| Tags := tags; Depth := 0 |} false.

(** The outcome of a run that returned: result, output, diagnostics. *)
Definition outcome (r : option (bool * IO * Context))
  : option (bool * string * list string) :=
  '(ok, io, _) ← r; Some (ok, string_of_list_ascii (io_out io), io_err io).

Definition nl : string := String NL "".

(** ** Command line

    [argv] is a list of C strings, [argv[0]] first; [std::cout] and
    [std::cerr] are lists of the texts written. *)

Module Options.
Record t := { Input : string; Output : string; Tags : gset string }.
End Options.

Definition usage_text : string :=
  "stpp [options] in out " +:+ nl
  +:+ "Available options:" +:+ nl
  +:+ "    -h     --help                Shows this message" +:+ nl
  +:+ "    -D     --definition          Define a tag" +:+ nl.

(** [check_option(i, argc, argv)]: [arg] is [argv[i]] and [rest] the
    arguments behind it, so [i + 1 >= argc] says that [rest] is empty.  The
    result is the return value and what is written to [std::cerr]. *)
Definition check_option (arg : string) (rest : list string) : bool * list string :=
  match rest with
  | [] => (false, ["Missing argument for '" +:+ arg +:+ "'. Aborting."])
  | _ :: _ => (true, [])
  end.

(** [argv[i][0] == '-'] *)
Definition starts_dash (arg : string) : bool :=
  match arg with
  | EmptyString => false
  | String c _ => Ascii.eqb c "-"
  end.

(** What [parse_arguments] leaves behind: its return value, the two
    reference parameters and the two consoles. *)
Record Parsed := {
  p_ok : bool;
  p_options : Options.t;
  p_help : bool;
  p_cout : list string;
  p_cerr : list string
}.

(** The [for] loop of [parse_arguments] over the arguments not yet read. *)
Fixpoint parse_arguments_loop (args : list string) (options : Options.t)
    (help : bool) : Parsed :=
  match args with
  | [] =>
      {| p_ok := true; p_options := options; p_help := help;
         p_cout := []; p_cerr := [] |}
  | arg :: rest =>
      if starts_dash arg then
        if bool_decide (arg = "-h") || bool_decide (arg = "--help") then
          {| p_ok := true; p_options := options; p_help := true;
             p_cout := [usage_text]; p_cerr := [] |}
        else if bool_decide (arg = "-D") || bool_decide (arg = "--definition") then
          (* if (!check_option(i++, argc, argv)) return false; *)
          match rest with
          | [] =>
              {| p_ok := false; p_options := options; p_help := help;
                 p_cout := []; p_cerr := (check_option arg rest).2 |}
          | tag :: rest' =>
              parse_arguments_loop rest'
                {| Options.Input := Options.Input options;
                   Options.Output := Options.Output options;
                   Options.Tags := {[ tag ]} ∪ Options.Tags options |}
                help
          end
        else
          {| p_ok := false; p_options := options; p_help := help;
             p_cout := [];
             p_cerr := ["Unknown option '" +:+ arg +:+ "'. Aborting."] |}
      else if bool_decide (Options.Input options = "") then
        parse_arguments_loop rest
          {| Options.Input := arg;
             Options.Output := Options.Output options;
             Options.Tags := Options.Tags options |}
          help
      else if bool_decide (Options.Output options = "") then
        parse_arguments_loop rest
          {| Options.Input := Options.Input options;
             Options.Output := arg;
             Options.Tags := Options.Tags options |}
          help
      else
        {| p_ok := false; p_options := options; p_help := help;
           p_cout := [];
           p_cerr := ["More than two positional arguments given. Aborting."] |}
  end.

(** [parse_arguments]: the loop starts at [argv[1]]. *)
Definition parse_arguments (argv : list string) (options : Options.t)
    (help : bool) : Parsed :=
  parse_arguments_loop (tail argv) options help.

Definition EXIT_SUCCESS : Z := 0.
Definition EXIT_FAILURE : Z := 1.

(** The files [main] can reach.  [read_file path] is the content of a file
    that [std::ifstream] opens, [None] when the stream is not [good()];
    [can_write path] says whether [std::ofstream] opens [path].  The
    standard streams are taken to be good. *)
Record Env := {
  stdin_bytes : list ascii;
  read_file : string → option (list ascii);
  can_write : string → bool
}.

(** [open_input_stream]: the bytes to read, [None] for a stream that is not
    good. *)
Definition open_input_stream (env : Env) (opts : Options.t)
  : option (list ascii) :=
  if bool_decide (Options.Input opts = "") || bool_decide (Options.Input opts = "--")
  then Some (stdin_bytes env)
  else read_file env (Options.Input opts).

(** [open_output_stream]: [None] for [std::cout], [Some path] for a file,
    and whether the stream is good. *)
Definition open_output_stream (env : Env) (opts : Options.t)
  : option string * bool :=
  if bool_decide (Options.Output opts = "") || bool_decide (Options.Output opts = "--")
  then (None, true)
  else (Some (Options.Output opts), can_write env (Options.Output opts)).

(** What a run of [main] leaves behind: the exit status, the consoles, and
    the bytes written to the output stream with its target. *)
Record Exit := {
  exit_status : Z;
  exit_cout : list string;
  exit_cerr : list string;
  exit_target : option string;
  exit_output : list ascii
}.

Definition abort (cout msgs : list string) : Exit :=
  {| exit_status := EXIT_FAILURE; exit_cout := cout; exit_cerr := msgs;
     exit_target := None; exit_output := [] |}.

(** [main]; the fuel is that of [parse]. *)
Definition main (fuel : nat) (env : Env) (argv : list string) : option Exit :=
  let r := parse_arguments argv
             {| Options.Input := ""; Options.Output := ""; Options.Tags := ∅ |}
             false in
  if negb (p_ok r) then Some (abort (p_cout r) (p_cerr r))
  else if p_help r then
    Some {| exit_status := EXIT_SUCCESS; exit_cout := p_cout r;
            exit_cerr := p_cerr r; exit_target := None; exit_output := [] |}
  else
    match open_input_stream env (p_options r) with
    | None =>
        Some (abort (p_cout r)
                (p_cerr r ++ ["Could not open input stream. Aborting."]))
    | Some bytes =>
        let '(target, good) := open_output_stream env (p_options r) in
        if negb good then
          Some (abort (p_cout r)
                  (p_cerr r ++ ["Could not open output stream. Aborting."]))
        else
          '(ok, io, _) ← parse fuel bytes (Options.Tags (p_options r));
          (* if (!parse(in, out, options)) return EXIT_SUCCESS;
             return EXIT_SUCCESS; *)
          Some {| exit_status := if negb ok then EXIT_SUCCESS else EXIT_SUCCESS;
                  exit_cout := p_cout r;
                  exit_cerr := p_cerr r ++ io_err io;
                  exit_target := target;
                  exit_output := io_out io |}
    end.

(** * Vocabulary of the statements

    Everything above is the program.  The definitions below are used to
    state its properties only. *)

(** ** Runs that return *)

(** [returns run r]: with some amount of fuel, [run] returns [r].  By the
    monotonicity lemmas below the result is then the same for every larger
    amount. *)
Definition returns {A : Type} (run : nat → option A) (r : A) : Prop :=
  ∃ fuel, run fuel = Some r.

(** [scans io ctx ignore next r]: the body scan entered in this state
    returns [r]. *)
Definition scans (io : IO) (ctx : Context) (ignore : bool) (next : Operation.t)
    (r : bool * IO * Context * Operation.t) : Prop :=
  returns (λ f, consume_next f io ctx ignore next) r.

(** [loops io ctx ignore condition once_true current r]: the loop of
    [handle_if] entered in this state returns [r]. *)
Definition loops (io : IO) (ctx : Context) (ignore condition once_true : bool)
    (current : Operation.t) (r : IO * Context) : Prop :=
  returns (λ f, handle_if_loop f io ctx ignore condition once_true current) r.

Definition mk_io (s out : list ascii) (err : list string) : IO :=
  {| io_in := s; io_out := out; io_err := err |}.
Definition mk_ctx (tags : gset string) (dp : N) : Context :=
  {| Tags := tags; Depth := dp |}.

Definition ctx0 : Context := {| Tags := ∅; Depth := 0 |}.

(** A nesting counter that fits [size_t]. *)
Definition wf_ctx (ctx : Context) : Prop := (Depth ctx < SIZE_MAX1)%N.

(** ** Directives and diagnostics *)

(** The spelling of an operation. *)
Definition keyword (op : Operation.t) : list ascii :=
  match op with
  | Operation.If => txt "if"
  | Operation.Elif => txt "elif"
  | Operation.Else => txt "else"
  | Operation.Endif => txt "endif"
  | Operation.Define => txt "define"
  | Operation.Undef => txt "undef"
  | Operation.Unknown => []
  end.

(** The two diagnostics of [handle_define] and [handle_undef]. *)
Definition missing_tag_diag (m : string) : Prop :=
  m = "Define statement without tag" ∨ m = "Undef statement without tag".

(** ** Conditions *)

(** The boolean operator of a token. *)
Definition apply_op (op : TokenType.t) (a b : bool) : bool :=
  match op with
  | TokenType.And => a && b
  | TokenType.Or => a || b
  | TokenType.Xor => xorb a b
  | _ => false
  end.

(** The tokens of the line [a && b || c]. *)
Definition abc_tokens : list Token :=
  [ {| Type_ := TokenType.Tag; Tag := "a" |}; op_token TokenType.And;
    {| Type_ := TokenType.Tag; Tag := "b" |}; op_token TokenType.Or;
    {| Type_ := TokenType.Tag; Tag := "c" |} ].

(** An evaluation that came to its end on [lx]: the token vector is the
    same and the position has not moved backwards. *)
Definition evaluates (lx : ExprLexer)
    (r : option (bool * ExprLexer * list string)) : Prop :=
  ∃ a lx' err', r = Some (a, lx', err') ∧
    mTokens lx' = mTokens lx ∧ remaining lx' ≤ remaining lx.

(** A result of the evaluator with [err] written before its diagnostics. *)
Definition post (err : list string) (r : bool * ExprLexer * list string)
  : bool * ExprLexer * list string :=
  let '(a, lx, e) := r in (a, lx, err ++ e).

(** The value of the guard text [g], a line without its newline, under the
    tags [tags]: what [handle_condition] answers on that line. *)
Definition guard_value (tags : gset string) (g : list ascii) : bool :=
  (handle_condition {| io_in := g ++ [NL]; io_out := []; io_err := [] |}
                    {| Tags := tags; Depth := 0 |}).1.

Fixpoint string_forall (P : ascii → Prop) (s : string) : Prop :=
  match s with
  | EmptyString => True
  | String c s => P c ∧ string_forall P s
  end.

(** ** Documents

    To state what a whole [if]/[elif]/[else]/[endif] chain does, inputs are
    described by a small syntax.  Every directive begins with its _head_:
    the marker, blanks, a word of at most 16 bytes and, behind a word of
    fewer than 16 bytes, the one whitespace byte that the scanner consumes
    with it.  The operation of a head is what the scanner makes of its
    word.  A body is a sequence of plain bytes, of heads that the scanner
    passes on ([IEcho]), of [define]/[undef] heads with their argument, and
    of nested chains; a chain is an [if] head with its guard line, a body,
    and then [elif] and [else] branches up to the [endif] head.  A guard
    line is there wherever the code evaluates one; where the code skips
    the guard, the text behind the head may as well be read as body
    ([None]). *)

Record head := { h_ws : list ascii; h_word : list ascii; h_sep : option ascii }.

Definition head_op (h : head) : Operation.t := classify (c_str (h_word h)).

Definition render_head (h : head) : list ascii :=
  PP_START :: h_ws h ++ h_word h ++ option_list (h_sep h).

(** A space other than the newline. *)
Definition blank (c : ascii) : Prop := isspace c = true ∧ c ≠ NL.

(** [wf_head eof h]: the bytes of [h] are what one call of the scanner
    takes from the stream.  Behind a word of 16 bytes the scanner stops by
    itself; behind a shorter word it consumes one space or newline (only a
    newline when there is no word), or meets the end of the input, which
    [eof] allows. *)
Definition wf_head (eof : bool) (h : head) : Prop :=
  Forall blank (h_ws h) ∧
  Forall (λ c, isspace c = false) (h_word h) ∧
  match h_sep h with
  | Some c =>
      isspace c = true ∧ length (h_word h) < MAX_BUF_SIZE ∧
      (h_word h = [] → c = NL)
  | None =>
      length (h_word h) = MAX_BUF_SIZE ∨
      (eof = true ∧ length (h_word h) < MAX_BUF_SIZE)
  end.

(** The usual heads: the keyword directly behind the marker, followed by
    a space or by a newline. *)
Definition head_sp (kw : string) : head :=
  {| h_ws := []; h_word := txt kw; h_sep := Some " "%char |}.
Definition head_nl (kw : string) : head :=
  {| h_ws := []; h_word := txt kw; h_sep := Some NL |}.

Inductive items : Type :=
| INil
| ICons (i : item) (d : items)
with item : Type :=
| IChar (c : ascii)
| IEcho (h : head)
| IDefine (h : head) (ws : list ascii) (t : string) (sep : ascii)
| IUndef (h : head) (ws : list ascii) (t : string) (sep : ascii)
| IIf (h : head) (g : option (list ascii)) (b : items) (cr : chain_rest)
with chain_rest : Type :=
| CElif (h : head) (g : option (list ascii)) (b : items) (cr : chain_rest)
| CElse (h : head) (b : items) (cr : chain_rest)
| CEnd (h : head).

Scheme items_mut := Induction for items Sort Prop
  with item_mut := Induction for item Sort Prop
  with chain_rest_mut := Induction for chain_rest Sort Prop.
Combined Scheme document_mutind from items_mut, item_mut, chain_rest_mut.

(** A guard line: the guard and its newline. *)
Definition guard_line (g : option (list ascii)) : list ascii :=
  match g with Some g => g ++ [NL] | None => [] end.

Definition guard_of (g : option (list ascii)) : list ascii := default [] g.

(** The bytes of a document.  The argument of [define]/[undef] is blanks,
    the tag and one more byte. *)
Fixpoint render_items (d : items) : list ascii :=
  match d with
  | INil => []
  | ICons i d => render_item i ++ render_items d
  end
with render_item (i : item) : list ascii :=
  match i with
  | IChar c => [c]
  | IEcho h => render_head h
  | IDefine h ws t sep | IUndef h ws t sep =>
      render_head h ++ ws ++ txt t ++ [sep]
  | IIf h g b cr =>
      render_head h ++ guard_line g ++ render_items b ++ render_rest cr
  end
with render_rest (cr : chain_rest) : list ascii :=
  match cr with
  | CElif h g b cr =>
      render_head h ++ guard_line g ++ render_items b ++ render_rest cr
  | CElse h b cr => render_head h ++ render_items b ++ render_rest cr
  | CEnd h => render_head h
  end.

(** ** The specified effect of a document

    Modelled on the specification: what an active span does to the output
    and to the tag set.  A chain has the effect of one body, the first whose
    guard is true under the tags at the [if], the first [else] body when no
    guard before it is; the other bodies have no effect at all.  A head that
    is passed on is written as the marker and its word. *)

Definition obs : Type := list ascii * gset string.

(** The body chosen among the branches behind the [if] branch. *)
Fixpoint spec_select (tags : gset string) (cr : chain_rest) : items :=
  match cr with
  | CElif _ g b cr =>
      if guard_value tags (guard_of g) then b else spec_select tags cr
  | CElse _ b _ => b
  | CEnd _ => INil
  end.

Fixpoint spec_items (d : items) (st : obs) : obs :=
  match d with
  | INil => st
  | ICons i d => spec_items d (spec_item i st)
  end
with spec_item (i : item) (st : obs) : obs :=
  match i with
  | IChar c => (st.1 ++ [c], st.2)
  | IEcho h => (st.1 ++ PP_START :: c_str (h_word h), st.2)
  | IDefine _ _ t _ => (st.1, {[ t ]} ∪ st.2)
  | IUndef _ _ t _ => (st.1, st.2 ∖ {[ t ]})
  | IIf _ g b cr =>
      if guard_value st.2 (guard_of g) then spec_items b st else spec_rest cr st
  end
with spec_rest (cr : chain_rest) (st : obs) : obs :=
  match cr with
  | CElif _ g b cr =>
      if guard_value st.2 (guard_of g) then spec_items b st else spec_rest cr st
  | CElse _ b _ => spec_items b st
  | CEnd _ => st
  end.

(** A skipped span has no effect on output and tags. *)
Definition eff (skip : bool) (f : obs → obs) (st : obs) : obs :=
  if skip then st else f st.

(** The tags behind a span. *)
Definition tags_after (skip : bool) (f : obs → obs) (tags : gset string)
  : gset string :=
  (eff skip f ([], tags)).2.

(** ** Documents that the code reads as they are written

    [ok_items skip tags d]: scanned with the flag [skip] under the tags
    [tags], the document [d] is read directive by directive as its syntax
    says.  Every head is one scan of the scanner and has the operation of
    its place.  What the code evaluates must be there: the guard of an
    [if] or [elif] that is evaluated is one line, an active [define] or
    [undef] has its tag, a word without spaces, between blanks and a space
    or newline.  What the code skips is scanned as text and holds no
    marker: the guard line of a skipped [if], the guard line of an [elif]
    behind a branch that has fired, the argument of a skipped [define] or
    [undef] (a marker in such a place begins a directive of the body and
    is written as one: the guard is then [None], the [define] or [undef]
    an [IEcho]).  [ok_rest ignore c o tags eof cr] is the same for the
    branches behind a body, with the loop variables [condition] and
    [once_true] of [handle_if] as they stand behind that body; [eof] allows
    the last [endif] to end the input. *)

(** The argument of [define] and [undef]. *)
Definition ok_arg (skip : bool) (ws : list ascii) (t : string) (sep : ascii)
  : Prop :=
  if skip then PP_START ∉ ws ++ txt t ++ [sep]
  else Forall blank ws ∧ t ≠ "" ∧
       string_forall (λ c, isspace c = false) t ∧ isspace sep = true.

(** A head that is scanned and passed on: any word that is no keyword,
    and in a skipped span [define] and [undef] as well. *)
Definition ok_echo (skip : bool) (h : head) : Prop :=
  head_op h = Operation.Unknown ∨
  (skip = true ∧ (head_op h = Operation.Define ∨ head_op h = Operation.Undef)).

Fixpoint ok_items (skip : bool) (tags : gset string) (d : items) : Prop :=
  match d with
  | INil => True
  | ICons i d =>
      ok_item skip tags i ∧ ok_items skip (tags_after skip (spec_item i) tags) d
  end
with ok_item (skip : bool) (tags : gset string) (i : item) : Prop :=
  match i with
  | IChar c => c ≠ PP_START
  | IEcho h => wf_head false h ∧ ok_echo skip h
  | IDefine h ws t sep =>
      wf_head false h ∧ head_op h = Operation.Define ∧ ok_arg skip ws t sep
  | IUndef h ws t sep =>
      wf_head false h ∧ head_op h = Operation.Undef ∧ ok_arg skip ws t sep
  | IIf h og b cr =>
      wf_head false h ∧ head_op h = Operation.If ∧
      if skip then
        (PP_START ∉ guard_of og) ∧ ok_items true tags b ∧
        ok_rest true false false tags false cr
      else
        match og with
        | Some g =>
            (NL ∉ g) ∧
            ok_items (negb (guard_value tags g)) tags b ∧
            ok_rest false (guard_value tags g) false
              (tags_after (negb (guard_value tags g)) (spec_items b) tags)
              false cr
        | None => False
        end
  end
with ok_rest (ignore c o : bool) (tags : gset string) (eof : bool)
    (cr : chain_rest) : Prop :=
  match cr with
  | CElif h og b cr =>
      wf_head false h ∧ head_op h = Operation.Elif ∧
      if c || o then
        (PP_START ∉ guard_of og) ∧ ok_items true tags b ∧
        ok_rest ignore false true tags eof cr
      else
        match og with
        | Some g =>
            (NL ∉ g) ∧
            ok_items (ignore || negb (guard_value tags g)) tags b ∧
            ok_rest ignore (guard_value tags g) false
              (tags_after (ignore || negb (guard_value tags g))
                 (spec_items b) tags)
              eof cr
        | None => False
        end
  | CElse h b cr =>
      wf_head false h ∧ head_op h = Operation.Else ∧
      ok_items (ignore || c || o) tags b ∧
      ok_rest ignore (negb (c || o)) (c || o)
        (tags_after (ignore || c || o) (spec_items b) tags) eof cr
  | CEnd h => wf_head eof h ∧ head_op h = Operation.Endif
  end.

(** A chain met with output active, from behind its [if] head on. *)
Definition render_chain (g : list ascii) (b : items) (cr : chain_rest)
  : list ascii :=
  g ++ NL :: render_items b ++ render_rest cr.

Definition ok_chain (tags : gset string) (eof : bool) (g : list ascii)
    (b : items) (cr : chain_rest) : Prop :=
  (NL ∉ g) ∧
  ok_items (negb (guard_value tags g)) tags b ∧
  ok_rest false (guard_value tags g) false
    (tags_after (negb (guard_value tags g)) (spec_items b) tags) eof cr.

(** Scanning [text] with the flag [skip] under [tags] leads to the state
    with the effect [f] (none when skipping) and the stream behind [text];
    the diagnostics may have grown. *)
Definition scans_through (skip : bool) (tags : gset string)
    (text : list ascii) (f : obs → obs) : Prop :=
  ∀ out err dp rest, (dp < SIZE_MAX1)%N →
    ∃ err', ∀ next r,
      scans (mk_io rest (eff skip f (out, tags)).1 err')
            (mk_ctx (eff skip f (out, tags)).2 dp) skip next r →
      scans (mk_io (text ++ rest) out err) (mk_ctx tags dp) skip next r.

(** The loop of [handle_if], standing in front of the remaining branches of
    a chain, runs to the [endif]; the branches have their specified effect
    unless the block is ignored or a branch has fired before. *)
Definition loops_through (ignore c o : bool) (tags : gset string) (eof : bool)
    (cr : chain_rest) : Prop :=
  ∀ cur out err dp tail, (dp < SIZE_MAX1)%N → (eof = true → tail = []) →
    ∃ err',
      loops (mk_io (render_rest cr ++ tail) out err) (mk_ctx tags dp)
            ignore c o cur
            (mk_io tail (eff (ignore || c || o) (spec_rest cr) (out, tags)).1 err',
             mk_ctx (eff (ignore || c || o) (spec_rest cr) (out, tags)).2 dp).

(** A sample chain: the [if] body holds a [#pragma]; then [# elif b] with
    a [define] whose tag stands on the next line, [#else], and an [#endif]
    that ends the input. *)
Definition demo_chain_body : items :=
  ICons (IChar "A") (ICons (IEcho (head_sp "pragma")) (ICons (IChar "o") INil)).

Definition demo_chain_rest : chain_rest :=
  CElif {| h_ws := [" "%char]; h_word := txt "elif"; h_sep := Some " "%char |}
    (Some (txt "b"))
    (ICons (IDefine (head_nl "define") [] "x" NL) (ICons (IChar "B") INil))
    (CElse (head_nl "else") (ICons (IChar "C") INil)
       (CEnd {| h_ws := []; h_word := txt "endif"; h_sep := None |})).

(** ** Lines and words *)

(** What is left of a stream behind its first newline. *)
Fixpoint drop_line (s : list ascii) : list ascii :=
  match s with
  | [] => []
  | c :: s' => if Ascii.eqb c NL then s' else drop_line s'
  end.

(** The first line of the stream holds nothing but spaces. *)
Fixpoint line_blank (s : list ascii) : bool :=
  match s with
  | [] => true
  | c :: s' => if Ascii.eqb c NL then true else isspace c && line_blank s'
  end.

(** The bytes the lexer gathers into a tag name. *)
Definition tag_char (c : ascii) : bool :=
  negb (isspace c) && negb (Ascii.eqb c "!") && negb (Ascii.eqb c "^")
  && negb (Ascii.eqb c "(") && negb (Ascii.eqb c ")")
  && negb (Ascii.eqb c "&") && negb (Ascii.eqb c "|").

(** A token as the lexer makes them: a tag with a name of tag bytes, or an
    operator without name; never the end-of-sequence token. *)
Definition token_ok (tok : Token) : Prop :=
  match Type_ tok with
  | TokenType.Tag => Tag tok ≠ "" ∧ string_forall (λ c, tag_char c = true) (Tag tok)
  | TokenType.EOS => False
  | _ => Tag tok = ""
  end.

(** A name that the lexer reads back as one tag. *)
Definition plain_tag (t : string) : Prop :=
  t ≠ "" ∧ string_forall (λ c, tag_char c = true) t.

(** ** Channels that move one way *)

(** From [io] to [io']: the stream was only read, output and diagnostics
    were only appended to. *)
Definition advances (io io' : IO) : Prop :=
  io_in io' `suffix_of` io_in io ∧
  (∃ o, io_out io' = io_out io ++ o) ∧
  (∃ e, io_err io' = io_err io ++ e).

(** ** Evaluator results *)

(** The result [r] of an evaluator call made on [lx] with the diagnostics
    [err]: same token vector, a position further on, diagnostics only
    appended. *)
Definition consumed (lx : ExprLexer) (err : list string)
    (r : bool * ExprLexer * list string) : Prop :=
  mTokens r.1.2 = mTokens lx ∧ mPosition lx < mPosition r.1.2 ∧
  ∃ e, r.2 = err ++ e.

(** ** Guards without parentheses

    A guard line as the evaluator reads one: a tag under some negations,
    then possibly an operator and another such guard. *)

Inductive binop := BAnd | BOr | BXor.

Definition binop_text (o : binop) : string :=
  match o with BAnd => "&&" | BOr => "||" | BXor => "^" end.

Definition binop_type (o : binop) : TokenType.t :=
  match o with
  | BAnd => TokenType.And | BOr => TokenType.Or | BXor => TokenType.Xor
  end.

Definition binop_eval (o : binop) (a b : bool) : bool :=
  match o with BAnd => a && b | BOr => a || b | BXor => xorb a b end.

Inductive guard :=
| GLast (nots : nat) (t : string)
| GMore (nots : nat) (t : string) (o : binop) (g : guard).

Fixpoint render_guard (g : guard) : list ascii :=
  match g with
  | GLast n t => repeat "!"%char n ++ txt t
  | GMore n t o g =>
      repeat "!"%char n ++ txt t ++ " "%char :: txt (binop_text o)
        ++ " "%char :: render_guard g
  end.

Fixpoint guard_tokens (g : guard) : list Token :=
  match g with
  | GLast n t =>
      repeat (op_token TokenType.Not) n ++ [{| Type_ := TokenType.Tag; Tag := t |}]
  | GMore n t o g =>
      repeat (op_token TokenType.Not) n
        ++ {| Type_ := TokenType.Tag; Tag := t |} :: op_token (binop_type o)
        :: guard_tokens g
  end.

Fixpoint guard_tags_plain (g : guard) : Prop :=
  match g with
  | GLast _ t => plain_tag t
  | GMore _ t _ g => plain_tag t ∧ guard_tags_plain g
  end.

Fixpoint nots_eval (n : nat) (b : bool) : bool :=
  match n with 0 => b | S n => negb (nots_eval n b) end.

(** The value read off the text: each operator joins the term on its left
    with all that follows. *)
Fixpoint guard_eval (ctx : Context) (g : guard) : bool :=
  match g with
  | GLast n t => nots_eval n (has_tag ctx t)
  | GMore n t o g =>
      binop_eval o (nots_eval n (has_tag ctx t)) (guard_eval ctx g)
  end.

(** * Properties *)

(** ** The model on small inputs *)

(** A parenthesised tag: [binary_condition] consumes the closing
    parenthesis itself, so [primary_condition] then misses it. *)
Example handle_condition_paren :
  handle_condition (mk_io (txt "(a)") [] []) (mk_ctx {[ "a" ]} 0)
  = (false, mk_io [] [] ["Expected ')' but got 'EOS'"]).
Proof. vm_compute. reflexivity. Qed.

Example parse_if_else_defined :
  outcome (parse 30 (txt ("A#if x" +:+ nl +:+ "B#else" +:+ nl +:+ "C#endif"
                          +:+ nl +:+ "D")) {[ "x" ]})
  = Some (true, "ABD", []).
Proof. vm_compute. reflexivity. Qed.

Example parse_if_else_undefined :
  outcome (parse 30 (txt ("A#if x" +:+ nl +:+ "B#else" +:+ nl +:+ "C#endif"
                          +:+ nl +:+ "D")) ∅)
  = Some (true, "ACD", []).
Proof. vm_compute. reflexivity. Qed.

Example parse_define_then_if :
  outcome (parse 40 (txt ("#define X" +:+ nl +:+ "#if X" +:+ nl +:+ "yes#endif"
                          +:+ nl +:+ "#undef X" +:+ nl +:+ "#if X" +:+ nl
                          +:+ "no#endif" +:+ nl)) ∅)
  = Some (true, "yes", []).
Proof. vm_compute. reflexivity. Qed.

(** ** The evaluator: fuel is only a depth bound *)

Section Evaluator.
Context (ctx : Context).

Lemma condition_fuel_mono (f : nat) :
  (∀ lx err r, binary_condition f lx err ctx = Some r →
     ∀ f', f ≤ f' → binary_condition f' lx err ctx = Some r) ∧
  (∀ lx err r, unary_condition f lx err ctx = Some r →
     ∀ f', f ≤ f' → unary_condition f' lx err ctx = Some r) ∧
  (∀ lx err r, primary_condition f lx err ctx = Some r →
     ∀ f', f ≤ f' → primary_condition f' lx err ctx = Some r).
Proof.
  induction f as [|f (IHb & IHu & IHp)]; [by repeat split|].
  repeat split; intros lx err r H [|f'] Hle; try lia;
    assert (f ≤ f') as Hf by lia; simpl in H |- *.
  - destruct (unary_condition f lx err ctx) as [[[a lx1] err1]|] eqn:Hu;
      [|done].
    rewrite (IHu _ _ _ Hu _ Hf). simpl in H |- *.
    repeat case_match; simplify_eq; try done;
      destruct (binary_condition f (accept lx1) err1 ctx)
        as [[[b lx2] err2]|] eqn:Hb; try done;
      by rewrite (IHb _ _ _ Hb _ Hf).
  - case_match.
    + destruct (unary_condition f (accept lx) err ctx)
        as [[[a lx1] err1]|] eqn:Hu; [|done].
      by rewrite (IHu _ _ _ Hu _ Hf).
    + by apply IHp.
  - case_match; [|done].
    destruct (binary_condition f (accept lx) err ctx)
      as [[[a lx1] err1]|] eqn:Hb; [|done].
    by rewrite (IHb _ _ _ Hb _ Hf).
Qed.

Lemma current_not_EOS lx :
  Type_ (current lx) ≠ TokenType.EOS → 0 < remaining lx.
Proof.
  unfold current, remaining. intros H.
  destruct (mTokens lx !! mPosition lx) eqn:E; [|done].
  apply lookup_lt_Some in E. lia.
Qed.

Lemma remaining_accept lx : remaining (accept lx) = remaining lx - 1.
Proof. unfold remaining, accept. simpl. lia. Qed.

(** With [3 * n + 3] units ([+ 2] for a unary, [+ 1] for a primary
    condition) an expression of at most [n] remaining tokens is evaluated
    to the end. *)
Lemma condition_total (n : nat) :
  ∀ lx err, remaining lx ≤ n →
    evaluates lx (primary_condition (3 * n + 1) lx err ctx) ∧
    evaluates lx (unary_condition (3 * n + 2) lx err ctx) ∧
    evaluates lx (binary_condition (3 * n + 3) lx err ctx).
Proof.
  induction n as [n IH] using lt_wf_ind. intros lx err Hn.
  remember (3 * n) as m eqn:Hm.
  replace (m + 1) with (S m) by lia.
  replace (m + 2) with (S (S m)) by lia.
  replace (m + 3) with (S (S (S m))) by lia.
  assert (∀ lx0 err0, 0 < remaining lx0 → remaining lx0 ≤ n →
            evaluates lx0 (binary_condition m (accept lx0) err0 ctx))
    as Hbin.
  { intros lx0 err0 H0 Hle. destruct n as [|n]; [lia|].
    destruct (IH n ltac:(lia) (accept lx0) err0)
      as (_ & _ & a & l & e & Hb & Ht & Hr).
    { rewrite remaining_accept. lia. }
    exists a, l, e. replace m with (3 * n + 3) by lia.
    rewrite remaining_accept in Hr. split_and!; [done|done|lia]. }
  assert (∀ lx0 err0, remaining lx0 ≤ n →
            evaluates lx0 (primary_condition (S m) lx0 err0 ctx)) as Hp.
  { intros lx0 err0 Hle. simpl. case_bool_decide as Hty.
    - destruct (Hbin lx0 err0) as (a & l & e & -> & Ht & Hr);
        [apply current_not_EOS; by rewrite Hty|done|].
      simpl. unfold accept_type. case_bool_decide; simpl;
        eexists _, _, _; (split_and!; [done|done|]);
        rewrite remaining_accept; lia.
    - unfold accept_type. case_bool_decide; simpl;
        eexists _, _, _; (split_and!; [done|done|]);
        rewrite remaining_accept; lia. }
  assert (∀ lx0 err0, remaining lx0 ≤ n →
            evaluates lx0 (unary_condition (S (S m)) lx0 err0 ctx)) as Hun.
  { intros lx0 err0 Hle.
    change (unary_condition (S (S m)) lx0 err0 ctx) with
      (if bool_decide (Type_ (current lx0) = TokenType.Not) then
         '(a, lx, err) ← unary_condition (S m) (accept lx0) err0 ctx;
         Some (negb a, lx, err)
       else primary_condition (S m) lx0 err0 ctx).
    case_bool_decide as Hty; [|by apply Hp].
    assert (0 < remaining lx0) by (apply current_not_EOS; by rewrite Hty).
    destruct n as [|n]; [lia|].
    destruct (IH n ltac:(lia) (accept lx0) err0)
      as (_ & (a & l & e & Hu & Ht & Hr) & _).
    { rewrite remaining_accept. lia. }
    apply (proj1 (proj2 (condition_fuel_mono _))) with (f' := S m) in Hu;
      [|lia].
    rewrite Hu. simpl. eexists _, _, _. split_and!; [done|done|].
    rewrite remaining_accept in Hr. lia. }
  split_and!; [by apply Hp|by apply Hun|].
  destruct (Hun lx err Hn) as (a & lx1 & err1 & Hu & Ht & Hr).
  change (binary_condition (S (S (S m))) lx err ctx) with
    ('(a, lx, err) ← unary_condition (S (S m)) lx err ctx;
     let ty := Type_ (current lx) in
     if bool_decide (ty = TokenType.EOS)
        || bool_decide (ty = TokenType.ParantheseClose)
     then Some (a, accept lx, err)
     else if bool_decide (ty = TokenType.And) then
       '(b, lx, err) ← binary_condition (S (S m)) (accept lx) err ctx;
       Some (a && b, lx, err)
     else if bool_decide (ty = TokenType.Or) then
       '(b, lx, err) ← binary_condition (S (S m)) (accept lx) err ctx;
       Some (a || b, lx, err)
     else if bool_decide (ty = TokenType.Xor) then
       '(b, lx, err) ← binary_condition (S (S m)) (accept lx) err ctx;
       Some (xorb a b, lx, err)
     else Some (false, lx, err)).
  rewrite Hu. cbn [mbind option_bind].
  assert (∀ ty, ty ≠ TokenType.EOS → Type_ (current lx1) = ty →
            ∃ b lx2 err2,
              binary_condition (S (S m)) (accept lx1) err1 ctx
                = Some (b, lx2, err2) ∧
              mTokens lx2 = mTokens lx ∧ remaining lx2 ≤ remaining lx) as Hrec.
  { intros ty Hne Hty.
    assert (0 < remaining lx1) by (apply current_not_EOS; by rewrite Hty).
    destruct (Hbin lx1 err1) as (b & lx2 & err2 & Hb & Ht2 & Hr2); [done|lia|].
    apply (proj1 (condition_fuel_mono _)) with (f' := S (S m)) in Hb; [|lia].
    exists b, lx2, err2. split_and!; [done|congruence|lia]. }
  cbv zeta.
  repeat case_bool_decide; cbn [orb].
  all: try (eexists _, _, _; split_and!;
            [done|done|rewrite ?remaining_accept; lia]).
  all: edestruct Hrec as (b & lx2 & err2 & -> & ? & ?); [|done|];
            [done|]; cbn [mbind option_bind]; by eexists _, _, _.
Qed.

Lemma binary_condition_total lx err :
  ∃ a lx' err', binary_condition (cond_fuel lx) lx err ctx = Some (a, lx', err').
Proof.
  destruct (condition_total (remaining lx) lx err)
    as (_ & _ & a & l & e & H & _); [done|].
  by exists a, l, e.
Qed.

(** Any larger depth budget gives the result of [cond_fuel]. *)
Lemma binary_condition_enough lx err fuel :
  cond_fuel lx ≤ fuel →
  binary_condition fuel lx err ctx = binary_condition (cond_fuel lx) lx err ctx.
Proof.
  intros Hle. destruct (binary_condition_total lx err) as (a & l & e & H).
  rewrite H. by apply (proj1 (condition_fuel_mono _)) with (f' := fuel) in H.
Qed.
(** So the last [match] of [handle_condition] always takes its first
    branch. *)
Lemma handle_condition_evaluated io lexer err s' :
  ExprLexer_new (io_err io) (io_in io) = (lexer, err, s') →
  Type_ (current lexer) ≠ TokenType.EOS →
  ∃ a lx' err',
    binary_condition (cond_fuel lexer) lexer err ctx = Some (a, lx', err') ∧
    handle_condition io ctx
    = (a, {| io_in := s'; io_out := io_out io; io_err := err' |}).
Proof.
  intros Hlex Hne. unfold handle_condition. rewrite Hlex.
  rewrite bool_decide_false by done.
  destruct (binary_condition_total lexer err) as (a & lx' & err' & H).
  exists a, lx', err'. by rewrite H.
Qed.

End Evaluator.

(** ** The stream loops: more fuel never changes a result *)

Lemma stream_fuel_mono (f : nat) :
  (∀ io ctx ignore next r, consume_next f io ctx ignore next = Some r →
     ∀ f', f ≤ f' → consume_next f' io ctx ignore next = Some r) ∧
  (∀ io ctx ignore r, handle_if f io ctx ignore = Some r →
     ∀ f', f ≤ f' → handle_if f' io ctx ignore = Some r) ∧
  (∀ io ctx ignore c o cur r, handle_if_loop f io ctx ignore c o cur = Some r →
     ∀ f', f ≤ f' → handle_if_loop f' io ctx ignore c o cur = Some r).
Proof.
  induction f as [|f (IHn & IHi & IHl)]; [by repeat split|].
  repeat split.
  - intros io ctx ignore next r H [|f'] Hle; [lia|].
    assert (f ≤ f') as Hf by lia. simpl in H |- *.
    repeat case_match; simplify_eq; try done; try (by eapply IHn).
    all: destruct (handle_if f _ ctx ignore) as [[[ok io2] ctx2]|] eqn:Hi;
      [|done]; rewrite (IHi _ _ _ _ Hi _ Hf); simpl in H |- *;
      destruct ok; simpl in H |- *; [by eapply IHn|done].
  - intros io ctx ignore r H [|f'] Hle; [lia|].
    assert (f ≤ f') as Hf by lia. simpl in H |- *.
    destruct (if ignore then _ else _) as [condition io1].
    destruct (handle_if_loop f io1 _ ignore condition false Operation.If)
      as [[io2 ctx2]|] eqn:Hl; [|done].
    by rewrite (IHl _ _ _ _ _ _ _ Hl _ Hf).
  - intros io ctx ignore c o cur r H [|f'] Hle; [lia|].
    assert (f ≤ f') as Hf by lia. simpl in H |- *.
    destruct (consume_next f io ctx _ cur) as [[[[ok io1] ctx1] cur1]|] eqn:Hn;
      [|done].
    rewrite (IHn _ _ _ _ _ Hn _ Hf). simpl in H |- *.
    repeat case_match; simplify_eq; try done; by eapply IHl.
Qed.

Lemma consume_next_mono f f' io ctx ignore next r :
  consume_next f io ctx ignore next = Some r → f ≤ f' →
  consume_next f' io ctx ignore next = Some r.
Proof. intros H Hle. by eapply (proj1 (stream_fuel_mono f)). Qed.

Lemma handle_if_mono f f' io ctx ignore r :
  handle_if f io ctx ignore = Some r → f ≤ f' →
  handle_if f' io ctx ignore = Some r.
Proof. intros H Hle. by eapply (proj1 (proj2 (stream_fuel_mono f))). Qed.

Lemma handle_if_loop_mono f f' io ctx ignore c o cur r :
  handle_if_loop f io ctx ignore c o cur = Some r → f ≤ f' →
  handle_if_loop f' io ctx ignore c o cur = Some r.
Proof. intros H Hle. by eapply (proj2 (proj2 (stream_fuel_mono f))). Qed.

Lemma consume_mono f : ∀ f' io ctx ignore r,
  consume f io ctx ignore = Some r → f ≤ f' →
  consume f' io ctx ignore = Some r.
Proof.
  induction f as [|f IH]; [done|].
  intros [|f'] io ctx ignore r H Hle; [lia|].
  assert (f ≤ f') as Hf by lia. simpl in H |- *.
  repeat case_match; simplify_eq; try done; try (by eapply IH).
  all: destruct (handle_if f _ ctx ignore) as [[[ok io2] ctx2]|] eqn:Hi;
    [|done]; rewrite (handle_if_mono _ _ _ _ _ _ Hi Hf); simpl in H |- *;
    destruct ok; simpl in H |- *; [by eapply IH|done].
Qed.

(** ** One iteration of the loops on a directive *)

Lemma consume_if f io ctx ignore s name s' :
  io_in io = PP_START :: s → extract_operation s = (Operation.If, name, s') →
  consume (S f) io ctx ignore
  = '(ok, io2, ctx2) ← handle_if f (set_in io s') ctx ignore;
    if negb ok then Some (false, io2, ctx2) else consume f io2 ctx2 ignore.
Proof.
  intros Hin Hex. simpl. rewrite Hin.
  change (Ascii.eqb PP_START PP_START) with true. cbv iota. by rewrite Hex.
Qed.

Lemma consume_next_if f io ctx ignore next s name s' :
  io_in io = PP_START :: s → extract_operation s = (Operation.If, name, s') →
  consume_next (S f) io ctx ignore next
  = '(ok, io2, ctx2) ← handle_if f (set_in io s') ctx ignore;
    if negb ok then Some (false, io2, ctx2, next)
    else consume_next f io2 ctx2 ignore next.
Proof.
  intros Hin Hex. simpl. rewrite Hin.
  change (Ascii.eqb PP_START PP_START) with true. cbv iota. by rewrite Hex.
Qed.

Lemma handle_if_S f io ctx ignore :
  handle_if (S f) io ctx ignore
  = let '(condition, io1) :=
      if ignore then (false, io) else handle_condition io ctx in
    '(io2, ctx2) ← handle_if_loop f io1 (depth_incr ctx) ignore
                     condition false Operation.If;
    Some (true, io2, depth_decr ctx2).
Proof. done. Qed.

Lemma handle_if_loop_S f io ctx ignore condition once_true current :
  handle_if_loop (S f) io ctx ignore condition once_true current
  = '(ok, io1, ctx1, current) ←
      consume_next f io ctx (ignore || once_true || negb condition) current;
    if negb ok then Some (io1, ctx1)
    else if bool_decide (current = Operation.Endif) then Some (io1, ctx1)
    else
      let once_true := if condition then true else once_true in
      if once_true then
        handle_if_loop f io1 ctx1 ignore false once_true current
      else if bool_decide (current = Operation.Elif) then
        let '(condition, io2) := handle_condition io1 ctx1 in
        handle_if_loop f io2 ctx1 ignore condition once_true current
      else
        handle_if_loop f io1 ctx1 ignore true once_true current.
Proof. done. Qed.

(** ** Plain text *)

Lemma emit_active io cs :
  emit false io cs = {| io_in := io_in io; io_out := io_out io ++ cs; io_err := io_err io |}.
Proof. done. Qed.

Lemma not_marker (c : ascii) : c ≠ PP_START → Ascii.eqb c PP_START = false.
Proof. intros H. by apply Ascii.eqb_neq. Qed.

(** One iteration of either loop on a byte that is not the marker. *)
Lemma consume_char f io ctx ignore c s :
  io_in io = c :: s → c ≠ PP_START →
  consume (S f) io ctx ignore
  = consume f (emit ignore (set_in io s) [c]) ctx ignore.
Proof. intros Hin Hc. simpl. by rewrite Hin, not_marker. Qed.

Lemma consume_next_char f io ctx ignore next c s :
  io_in io = c :: s → c ≠ PP_START →
  consume_next (S f) io ctx ignore next
  = consume_next f (emit ignore (set_in io s) [c]) ctx ignore next.
Proof. intros Hin Hc. simpl. by rewrite Hin, not_marker. Qed.

Lemma consume_plain (L : list ascii) : ∀ f io ctx,
  io_in io = L → PP_START ∉ L → length L < f →
  consume f io ctx false
  = Some (true, {| io_in := []; io_out := io_out io ++ L; io_err := io_err io |}, ctx).
Proof.
  induction L as [|c L IH]; intros [|f] [i o e] ctx Hin Hno Hlen;
    simpl in Hin, Hlen; subst; try lia.
  - simpl. by rewrite app_nil_r.
  - apply not_elem_of_cons in Hno as [Hc Hno].
    rewrite (consume_char _ _ _ _ c L); [|done|done].
    rewrite (IH f); [|done|done|lia]. simpl. by rewrite <- app_assoc.
Qed.

(** C8.  For every initial tag set and every input without the directive
    marker, the run succeeds and its output is the input, byte for byte;
    nothing is written to the diagnostics and the tag context is unchanged.
    Any fuel above the input length is enough. *)
Theorem plain_text_identity (tags : gset string) (L : list ascii) (fuel : nat) :
  PP_START ∉ L → length L < fuel →
  parse fuel L tags
  = Some (true, {| io_in := []; io_out := L; io_err := [] |},
          {| Tags := tags; Depth := 0 |}).
Proof. intros Hno Hlen. unfold parse. by rewrite (consume_plain L). Qed.

Lemma plain_text_identity_witness :
  parse 12 (txt "hello world") {[ "x" ]}
  = Some (true, {| io_in := []; io_out := txt "hello world"; io_err := [] |},
          {| Tags := {[ "x" ]}; Depth := 0 |}).
Proof.
  apply (plain_text_identity {[ "x" ]} (txt "hello world") 12).
  - vm_compute. intros H. repeat (apply elem_of_cons in H as [H|H]; [done|]).
    by apply elem_of_nil in H.
  - simpl. lia.
Defined.

(** ** Keywords of the directive scanner *)

Lemma classify_keyword name op :
  classify name = op → op ≠ Operation.Unknown → name = keyword op.
Proof. unfold classify. repeat case_decide; by intros <-. Qed.

Lemma extract_operation_keyword s op name s' :
  extract_operation s = (op, name, s') → op ≠ Operation.Unknown →
  name = keyword op.
Proof.
  unfold extract_operation. destruct (extract_loop [] false s) as [b t].
  intros [= <- <- <-]. apply classify_keyword. done.
Qed.

(** ** The keyword buffer of the directive scanner *)

Lemma c_str_length buf : length (c_str buf) ≤ length buf.
Proof. induction buf as [|c r IH]; simpl; [done|]. case_match; simpl; lia. Qed.

Lemma extract_loop_length s : ∀ buffer started,
  length buffer ≤ MAX_BUF_SIZE →
  length (extract_loop buffer started s).1 ≤ MAX_BUF_SIZE.
Proof.
  induction s as [|c s IH]; intros buffer started Hb; simpl.
  - by case_match.
  - destruct (Nat.ltb_spec (length buffer) MAX_BUF_SIZE) as [Hlt|Hge]; [|done].
    repeat case_match; simpl; try done; apply IH; [|done].
    rewrite length_app. simpl. lia.
Qed.

Lemma nonspace_not_NL c : isspace c = false → Ascii.eqb c NL = false.
Proof.
  intros H. apply Ascii.eqb_neq. intros ->. discriminate H.
Qed.

(** Leading blanks in front of the keyword are read and dropped. *)
Lemma extract_loop_blanks ws s :
  Forall (λ c, isspace c = true ∧ c ≠ NL) ws →
  extract_loop [] false (ws ++ s) = extract_loop [] false s.
Proof.
  induction 1 as [|c ws [Hsp Hnl] _ IH]; [done|].
  change ((c :: ws) ++ s) with (c :: (ws ++ s)).
  cbn [extract_loop length]. change (Nat.ltb 0 MAX_BUF_SIZE) with true. cbv iota.
  apply Ascii.eqb_neq in Hnl. rewrite Hnl, Hsp. simpl. apply IH.
Qed.

(** Bytes that fill the buffer exactly: the loop stops on the full buffer and
    the stream keeps everything behind them. *)
Lemma extract_loop_fill w : ∀ buffer started s,
  Forall (λ c, isspace c = false) w →
  length buffer + length w = MAX_BUF_SIZE →
  extract_loop buffer started (w ++ s) = (buffer ++ w, s).
Proof.
  induction w as [|c w IH]; intros buffer started s Hw Hlen.
  - simpl in Hlen. rewrite app_nil_r.
    destruct s; simpl;
      by destruct (Nat.ltb_spec (length buffer) MAX_BUF_SIZE) as [Hlt|Hge];
        [lia|].
  - apply Forall_cons in Hw as [Hc Hw]. simpl in Hlen.
    change ((c :: w) ++ s) with (c :: (w ++ s)). cbn [extract_loop].
    destruct (Nat.ltb_spec (length buffer) MAX_BUF_SIZE) as [Hlt|Hge]; [|lia].
    rewrite (nonspace_not_NL c Hc), Hc. simpl.
    rewrite IH; [|done|rewrite length_app; simpl; lia].
    by rewrite <- app_assoc.
Qed.

(** C7, as the code has it.  The scanner never returns more than 16 bytes of
    keyword, and once 16 bytes are stored it reads no further: for an input
    made of blanks, 16 non-blank bytes [w] and any [rest], the word is [w]
    (as a C string) and the stream is left at [rest], whose first bytes may
    well be the tail of a longer keyword. *)
Theorem extract_operation_stops_at_cap (s : list ascii) :
  length (extract_operation s).1.2 ≤ MAX_BUF_SIZE ∧
  ∀ ws w rest,
    s = ws ++ w ++ rest →
    Forall (λ c, isspace c = true ∧ c ≠ NL) ws →
    Forall (λ c, isspace c = false) w →
    length w = MAX_BUF_SIZE →
    extract_operation s = (classify (c_str w), c_str w, rest).
Proof.
  split.
  - unfold extract_operation.
    pose proof (extract_loop_length s [] false) as H.
    destruct (extract_loop [] false s) as [b t]. simpl in *.
    etrans; [apply c_str_length|]. apply H. unfold MAX_BUF_SIZE. lia.
  - intros ws w rest -> Hws Hw Hlen. unfold extract_operation.
    rewrite extract_loop_blanks by done.
    by rewrite (extract_loop_fill w [] false rest Hw Hlen).
Qed.

Lemma extract_operation_stops_at_cap_witness :
  extract_operation (txt "  abcdefghijklmnopqrstu vw")
  = (Operation.Unknown, txt "abcdefghijklmnop", txt "qrstu vw").
Proof.
  apply (proj2 (extract_operation_stops_at_cap (txt "  abcdefghijklmnopqrstu vw"))
           (txt "  ") (txt "abcdefghijklmnop") (txt "qrstu vw")).
  - reflexivity.
  - repeat constructor; by vm_compute.
  - repeat constructor.
  - reflexivity.
Defined.

(** C7, as the specification words it, fails: the bytes of a keyword beyond
    the sixteenth are not read by the scanner.  They stay on the stream, and
    the caller copies them to the output as ordinary text. *)
Lemma long_keyword_tail_left_on_stream :
  (extract_operation (txt "abcdefghijklmnopqrstu vw")).2 = txt "qrstu vw" ∧
  (extract_operation (txt "abcdefghijklmnopqrstu vw")).2 ≠ txt "vw" ∧
  outcome (parse 30 (txt "#abcdefghijklmnopqrstu vw") ∅)
  = Some (true, "#abcdefghijklmnopqrstu vw", []).
Proof. split_and!; [by vm_compute|by vm_compute|by vm_compute]. Qed.

(** ** What [handle_condition] does to the channels *)

Lemma handle_condition_channels io ctx :
  io_in (handle_condition io ctx).2 = (lex_loop "" [] (io_err io) (io_in io)).2 ∧
  io_out (handle_condition io ctx).2 = io_out io.
Proof.
  unfold handle_condition, ExprLexer_new.
  destruct (lex_loop "" [] (io_err io) (io_in io)) as [[toks err'] s'].
  case_bool_decide; [done|].
  by destruct (binary_condition _ _ _ _) as [[[??]?]|].
Qed.

Lemma handle_condition_eof io ctx :
  io_in io = [] → io_in (handle_condition io ctx).2 = [].
Proof.
  intros H. rewrite (proj1 (handle_condition_channels io ctx)). by rewrite H.
Qed.

(** ** An [if] that is not closed *)

(** At end of stream [consume_next] returns [true] and leaves [current] as it
    was, so the loop of [handle_if] comes round again in the same
    situation. *)
Lemma handle_if_loop_eof fuel : ∀ io ctx ignore condition once_true current,
  io_in io = [] → current ≠ Operation.Endif →
  handle_if_loop fuel io ctx ignore condition once_true current = None.
Proof.
  induction fuel as [|fuel IH]; intros io ctx ignore c o cur Hin Hcur; [done|].
  rewrite handle_if_loop_S. destruct fuel as [|fuel]; [done|].
  cbn [consume_next]. rewrite Hin. cbn [mbind option_bind negb].
  rewrite bool_decide_false by done.
  repeat case_match; try (by apply IH).
  apply IH; [|done].
  pose proof (handle_condition_eof io ctx Hin) as Hc.
  by destruct (handle_condition io ctx); simplify_eq.
Qed.

Lemma lex_loop_rest (n : nat) : ∀ s tag toks err x,
  length s ≤ n → x ∈ (lex_loop tag toks err s).2 → x ∈ s.
Proof.
  induction n as [n IH] using lt_wf_ind.
  intros [|c s] tag toks err x Hlen; [done|]. simpl in Hlen.
  assert (∀ tag toks err, x ∈ (lex_loop tag toks err s).2 → x ∈ c :: s) as IHs.
  { intros ??? H. apply list_elem_of_further. apply (IH (length s)) in H; [done|lia|lia]. }
  cbn [lex_loop].
  destruct (Ascii.eqb c NL). { apply list_elem_of_further. }
  destruct (isspace c); [apply IHs|].
  do 4 (destruct (Ascii.eqb c _); [apply IHs|]).
  do 2 (destruct (Ascii.eqb c _);
        [destruct s as [|c2 s2]; [apply IHs|];
         destruct (Ascii.eqb c2 _); [|apply IHs];
         intros H; do 2 apply list_elem_of_further;
         apply (IH (length s2)) in H; [done|simpl in *; lia|simpl in *; lia]|]).
  apply IHs.
Qed.

(** A body scan over text without a marker ends at the end of the stream. *)
Lemma consume_next_plain f : ∀ io ctx ignore next r,
  PP_START ∉ io_in io →
  consume_next f io ctx ignore next = Some r →
  ∃ io', r = (true, io', ctx, next) ∧ io_in io' = [].
Proof.
  induction f as [|f IH]; intros io ctx ignore next r Hno H; [done|].
  destruct (io_in io) as [|c s] eqn:Hin.
  - simpl in H. rewrite Hin in H. simplify_eq. by exists io.
  - apply not_elem_of_cons in Hno as [Hc Hno].
    rewrite (consume_next_char _ _ _ _ _ c s) in H by done.
    apply IH in H; [done|]. by destruct ignore.
Qed.

(** An [if] followed by nothing but text without a marker: no return. *)
Lemma unclosed_if_diverges fuel tags rest :
  PP_START ∉ rest → parse fuel (PP_START :: txt "if " ++ rest) tags = None.
Proof.
  intros Hno. destruct fuel as [|[|fuel]]; [done|done|].
  unfold parse.
  rewrite (consume_if _ _ _ _ (txt "if " ++ rest) (txt "if") rest) by done.
  rewrite handle_if_S.
  set (io1 := set_in _ _). set (ctx := {| Tags := tags; Depth := 0 |}).
  pose proof (proj1 (handle_condition_channels io1 ctx)) as Hin.
  destruct (handle_condition io1 ctx) as [condition io2]. simpl in Hin.
  assert (PP_START ∉ io_in io2) as Hno2.
  { rewrite Hin. intros H. by apply (lex_loop_rest (length rest)) in H. }
  destruct fuel as [|fuel]; [done|]. rewrite handle_if_loop_S.
  destruct (consume_next fuel io2 _ _ _) as [r|] eqn:Hscan; [|done].
  apply consume_next_plain in Hscan as (io3 & -> & Hin3); [|done].
  cbn [mbind option_bind negb]. rewrite bool_decide_false by done.
  destruct condition; cbn iota; by rewrite handle_if_loop_eof.
Qed.

(** C9 fails on the code: on the five bytes [#if a] the run returns for no
    amount of fuel, whatever the predefined tags.  The condition line is
    read, the body scan meets the end of the stream, and the loop of
    [handle_if] never sees an [Endif]. *)
Theorem unclosed_if_never_returns (fuel : nat) (tags : gset string) :
  parse fuel (txt "#if a") tags = None.
Proof.
  destruct fuel as [|[|fuel]]; [done|done|].
  unfold parse.
  rewrite (consume_if _ _ _ _ (txt "if a") (txt "if") (txt "a")) by done.
  rewrite handle_if_S.
  set (io1 := set_in _ _). set (ctx := {| Tags := tags; Depth := 0 |}).
  pose proof (proj1 (handle_condition_channels io1 ctx)) as Hin.
  destruct (handle_condition io1 ctx) as [condition io2]. simpl in Hin.
  by rewrite handle_if_loop_eof.
Qed.

(** ** [define] / [undef] without a tag *)

(** At the top level the failure of [handle_define] / [handle_undef] ends
    the run: [consume] returns [false] right after the diagnostic. *)
Lemma missing_tag_top_level fuel io ctx s name s' s'' :
  io_in io = PP_START :: s →
  get_tag s' = ("", s'') →
  (extract_operation s = (Operation.Define, name, s') →
   consume (S fuel) io ctx false
   = Some (false, cerr (set_in io s'') ["Define statement without tag"], ctx)) ∧
  (extract_operation s = (Operation.Undef, name, s') →
   consume (S fuel) io ctx false
   = Some (false, cerr (set_in io s'') ["Undef statement without tag"], ctx)).
Proof.
  intros Hin Htag.
  split; intros Hex; simpl; rewrite Hin;
    change (Ascii.eqb PP_START PP_START) with true; cbv iota; rewrite Hex;
    [unfold handle_define|unfold handle_undef]; simpl; by rewrite Htag.
Qed.

Lemma parse_mono f f' s tags r :
  parse f s tags = Some r → f ≤ f' → parse f' s tags = Some r.
Proof. apply consume_mono. Qed.

Lemma missing_tag_inside_if_run :
  parse 10 (txt ("#if a" +:+ nl +:+ "#define " +:+ nl +:+ "X")) {[ "a" ]}
  = Some (true,
          {| io_in := []; io_out := txt "X";
             io_err := ["Define statement without tag"] |},
          {| Tags := {[ "a" ]}; Depth := 0 |}).
Proof. vm_compute. reflexivity. Qed.

(** C5 fails on the code when the directive stands inside an [if] block:
    [consume_next] returns [false], the loop of [handle_if] takes that for
    its exit, [handle_if] returns [true], and [consume] carries on.  With
    [a] defined, the bytes after the faulty [define] are written and the
    run succeeds. *)
Theorem missing_tag_inside_if_is_swallowed (k : nat) :
  outcome (parse (10 + k)
             (txt ("#if a" +:+ nl +:+ "#define " +:+ nl +:+ "X")) {[ "a" ]})
  = Some (true, "X", ["Define statement without tag"]).
Proof.
  rewrite (parse_mono 10 (10 + k) _ _ _ missing_tag_inside_if_run);
    [reflexivity|lia].
Qed.

(** ** Right fold of the binary operators *)

Lemma binary_condition_S f lx err ctx :
  binary_condition (S f) lx err ctx
  = '(a, lx, err) ← unary_condition f lx err ctx;
    let ty := Type_ (current lx) in
    if bool_decide (ty = TokenType.EOS) || bool_decide (ty = TokenType.ParantheseClose)
    then Some (a, accept lx, err)
    else if bool_decide (ty = TokenType.And) then
      '(b, lx, err) ← binary_condition f (accept lx) err ctx;
      Some (a && b, lx, err)
    else if bool_decide (ty = TokenType.Or) then
      '(b, lx, err) ← binary_condition f (accept lx) err ctx;
      Some (a || b, lx, err)
    else if bool_decide (ty = TokenType.Xor) then
      '(b, lx, err) ← binary_condition f (accept lx) err ctx;
      Some (xorb a b, lx, err)
    else Some (false, lx, err).
Proof. done. Qed.

Lemma binary_condition_operator ctx lx err fuel :
  cond_fuel lx ≤ fuel →
  ∃ a lx1 err1,
    unary_condition fuel lx err ctx = Some (a, lx1, err1) ∧
    ∀ op, op ∈ [TokenType.And; TokenType.Or; TokenType.Xor] →
      Type_ (current lx1) = op →
      ∃ b lx2 err2,
        binary_condition fuel (accept lx1) err1 ctx = Some (b, lx2, err2) ∧
        binary_condition fuel lx err ctx = Some (apply_op op a b, lx2, err2).
Proof.
  unfold cond_fuel. intros Hfuel.
  destruct (condition_total ctx (remaining lx) lx err)
    as (_ & (a & lx1 & err1 & Hu & _ & Hr) & _); [done|].
  destruct fuel as [|f]; [lia|].
  pose proof (proj1 (proj2 (condition_fuel_mono ctx _)) _ _ _ Hu) as Hu'.
  exists a, lx1, err1. split; [apply Hu'; lia|].
  intros op Hop Hty.
  assert (op = TokenType.And ∨ op = TokenType.Or ∨ op = TokenType.Xor) as Hcases.
  { repeat (apply elem_of_cons in Hop as [->|Hop]; [tauto|]).
    by apply elem_of_nil in Hop. }
  assert (0 < remaining lx1) as Hpos.
  { apply current_not_EOS. rewrite Hty. by destruct Hcases as [->|[->| ->]]. }
  destruct (binary_condition_total ctx (accept lx1) err1) as (b & lx2 & err2 & Hb).
  pose proof (proj1 (condition_fuel_mono ctx _) _ _ _ Hb) as Hb'.
  assert (cond_fuel (accept lx1) ≤ f) as Hle.
  { unfold cond_fuel. rewrite remaining_accept. lia. }
  exists b, lx2, err2. split; [apply Hb'; lia|].
  rewrite binary_condition_S, (Hu' f) by lia. cbn [mbind option_bind].
  cbv zeta. rewrite Hty.
  destruct Hcases as [->|[->| ->]]; simpl; by rewrite (Hb' f) by done.
Qed.

Lemma a_and_b_or_c io ctx :
  io_in io = txt "a && b || c" →
  handle_condition io ctx
  = (has_tag ctx "a" && (has_tag ctx "b" || has_tag ctx "c"),
     {| io_in := []; io_out := io_out io; io_err := io_err io |}).
Proof.
  intros Hin. unfold handle_condition. rewrite Hin.
  lazy -[has_tag io_out io_err andb orb]. reflexivity.
Qed.

(** The same line read with the usual precedence, [(a && b) || c], would be
    true whenever [c] is defined; the code answers [false] when [a] is not. *)
Lemma a_and_b_or_c_without_a io ctx :
  io_in io = txt "a && b || c" →
  "a" ∉ Tags ctx → "c" ∈ Tags ctx →
  (handle_condition io ctx).1 = false.
Proof.
  intros Hin Ha Hc. rewrite a_and_b_or_c by done. unfold has_tag. simpl.
  by rewrite (bool_decide_false _ Ha).
Qed.

(** ** Suppressed text *)

Lemma set_in_id io : set_in io (io_in io) = io.
Proof. by destruct io. Qed.

Lemma set_in_set_in io s t : set_in (set_in io s) t = set_in io t.
Proof. done. Qed.

(** While ignoring, text without the marker is read and dropped, one byte
    per iteration. *)
Lemma consume_next_skip g : ∀ f io ctx next s,
  io_in io = g ++ s → PP_START ∉ g →
  consume_next (length g + f) io ctx true next
  = consume_next f (set_in io s) ctx true next.
Proof.
  induction g as [|c g IH]; intros f io ctx next s Hin Hno.
  - simpl in *. by rewrite <- Hin, set_in_id.
  - apply not_elem_of_cons in Hno as [Hc Hno].
    change (length (c :: g) + f) with (S (length g + f)).
    rewrite (consume_next_char _ _ _ _ _ c (g ++ s)) by done.
    by rewrite (IH f _ ctx next s).
Qed.

Lemma consume_next_skipped g : ∀ f io ctx next s r,
  io_in io = g ++ s → PP_START ∉ g →
  consume_next f io ctx true next = Some r →
  consume_next f (set_in io s) ctx true next = Some r.
Proof.
  induction g as [|c g IH]; intros f io ctx next s r Hin Hno H.
  - simpl in *. by rewrite <- Hin, set_in_id.
  - apply not_elem_of_cons in Hno as [Hc Hno].
    destruct f as [|f]; [done|].
    rewrite (consume_next_char _ _ _ _ _ c (g ++ s)) in H by done.
    apply (IH f _ ctx next s) in H; [|done|done].
    eapply consume_next_mono; [done|lia].
Qed.

(** The first body scan of a loop iteration decides the iteration. *)
Lemma handle_if_loop_first_scan f f1 io io1 ctx ignore c o cur x r :
  consume_next f io ctx (ignore || o || negb c) cur = Some x →
  consume_next f1 io1 ctx (ignore || o || negb c) cur = Some x →
  f ≤ f1 →
  handle_if_loop (S f) io ctx ignore c o cur = Some r →
  handle_if_loop (S f1) io1 ctx ignore c o cur = Some r.
Proof.
  intros H H1 Hle. rewrite !handle_if_loop_S, H, H1.
  destruct x as [[[ok io2] ctx2] cur2]. cbn [mbind option_bind].
  repeat case_match; try done; intros Hl; by eapply handle_if_loop_mono.
Qed.

Lemma handle_if_loop_skip io ctx ignore c o cur g s r :
  ignore || o || negb c = true →
  io_in io = g ++ s → PP_START ∉ g →
  returns (λ f, handle_if_loop f io ctx ignore c o cur) r ↔
  returns (λ f, handle_if_loop f (set_in io s) ctx ignore c o cur) r.
Proof.
  intros Hig Hin Hno. split; intros [[|f] H]; try done.
  - exists (S f).
    destruct (consume_next f io ctx (ignore || o || negb c) cur) as [x|] eqn:Hx;
      [|by rewrite handle_if_loop_S, Hx in H].
    eapply handle_if_loop_first_scan; [done| |done|done].
    rewrite Hig in Hx |- *. by eapply consume_next_skipped.
  - exists (S (length g + f)).
    destruct (consume_next f (set_in io s) ctx (ignore || o || negb c) cur)
      as [x|] eqn:Hx; [|by rewrite handle_if_loop_S, Hx in H].
    eapply handle_if_loop_first_scan; [done| |lia|done].
    rewrite Hig in Hx |- *. by rewrite (consume_next_skip g f io ctx cur s).
Qed.

(** C4, as the code has it.  Under [ignore] the guard of an [if] is false
    and [handle_condition] is not called, so the lexer does not run: the
    loop is entered on the stream as it stands, and condition text without
    a marker is dropped by the body scan like any suppressed text -- the
    call returns the same result with or without it. *)
Theorem ignored_if_leaves_condition_on_stream
    (io : IO) (ctx : Context) (g s : list ascii) (r : bool * IO * Context) :
  io_in io = g ++ s → PP_START ∉ g →
  (∀ fuel, handle_if (S fuel) io ctx true
           = '(io2, ctx2) ← handle_if_loop fuel io (depth_incr ctx) true
                              false false Operation.If;
             Some (true, io2, depth_decr ctx2)) ∧
  (returns (λ fuel, handle_if fuel io ctx true) r ↔
   returns (λ fuel, handle_if fuel (set_in io s) ctx true) r).
Proof.
  intros Hin Hno. split; [done|].
  assert (∀ io0, returns (λ fuel, handle_if fuel io0 ctx true) r ↔
            ∃ io2 ctx2, r = (true, io2, depth_decr ctx2) ∧
              returns (λ f, handle_if_loop f io0 (depth_incr ctx) true
                              false false Operation.If) (io2, ctx2)) as Hchar.
  { intros io0. split.
    - intros [[|f] H]; [done|]. rewrite handle_if_S in H.
      destruct (handle_if_loop f _ _ _ _ _ _) as [[io2 ctx2]|] eqn:Hl; [|done].
      injection H as <-. exists io2, ctx2. split; [done|by exists f].
    - intros (io2 & ctx2 & -> & f & Hl). exists (S f).
      by rewrite handle_if_S, Hl. }
  rewrite !Hchar. split; intros (io2 & ctx2 & -> & Hl); exists io2, ctx2;
    (split; [done|]);
    by apply (handle_if_loop_skip io _ true false false _ g s _ eq_refl Hin Hno).
Qed.

Lemma ignored_if_leaves_condition_on_stream_witness :
  let io := io_start (txt ("cond" +:+ nl +:+ "X#endif" +:+ nl +:+ "Y")) in
  let r := (true, {| io_in := txt "Y"; io_out := []; io_err := [] |}, ctx0) in
  (∀ fuel, handle_if (S fuel) io ctx0 true
           = '(io2, ctx2) ← handle_if_loop fuel io (depth_incr ctx0) true
                              false false Operation.If;
             Some (true, io2, depth_decr ctx2)) ∧
  (returns (λ fuel, handle_if fuel io ctx0 true) r ↔
   returns (λ fuel, handle_if fuel
                      (set_in io (txt ("X#endif" +:+ nl +:+ "Y"))) ctx0 true) r).
Proof.
  intros io r.
  apply (ignored_if_leaves_condition_on_stream io ctx0
           (txt ("cond" +:+ nl)) (txt ("X#endif" +:+ nl +:+ "Y")) r).
  - reflexivity.
  - apply (bool_decide_unpack _). vm_compute. exact I.
Defined.

(** C4 fails on the code: under [ignore] the lexer is not invoked on the
    condition line.  On [b#endif] the ignored [if] takes the marker inside
    the condition text for its own [endif] and returns with the stream at
    [X#endif..]; not ignored, the lexer reads the whole line as one tag and
    the block ends at the second [endif].  And a line on which the lexer
    would warn is passed in silence. *)
Lemma ignored_if_does_not_lex_condition :
  let io := io_start (txt ("b#endif" +:+ nl +:+ "X#endif" +:+ nl +:+ "Y")) in
  handle_if 20 io ctx0 true
  = Some (true, {| io_in := txt ("X#endif" +:+ nl +:+ "Y"); io_out := [];
                   io_err := [] |}, ctx0) ∧
  handle_if 20 io ctx0 false
  = Some (true, {| io_in := txt "Y"; io_out := []; io_err := [] |}, ctx0) ∧
  let io' := io_start (txt ("a & b" +:+ nl +:+ "#endif" +:+ nl)) in
  handle_if 20 io' ctx0 true
  = Some (true, {| io_in := []; io_out := []; io_err := [] |}, ctx0) ∧
  handle_if 20 io' ctx0 false
  = Some (true, {| io_in := []; io_out := [];
                   io_err := ["And operator is && not &"] |}, ctx0).
Proof. cbv zeta. split_and!; vm_compute; reflexivity. Qed.

(** ** Lines: what the argument readers do up to the newline *)

Lemma string_app_cons c s t : String c s +:+ t = String c (s +:+ t).
Proof. done. Qed.

Lemma string_app_snoc s : ∀ c t, (s +:+ String c "") +:+ t = s +:+ String c t.
Proof.
  induction s as [|a s IH]; intros c t; [done|].
  by rewrite !string_app_cons, IH.
Qed.

Lemma string_app_empty_r s : s +:+ "" = s.
Proof. induction s as [|a s IH]; [done|]. by rewrite string_app_cons, IH. Qed.

Lemma string_forall_list P s :
  string_forall P s → Forall P (list_ascii_of_string s).
Proof.
  induction s as [|c s IH]; simpl; [constructor|].
  intros [Hc Hs]. constructor; [done|by apply IH].
Qed.

(** [get_tag] on a word closed by a newline. *)
Lemma get_tag_loop_word t : ∀ buffer started rest,
  string_forall (λ c, isspace c = false) t →
  get_tag_loop buffer started (list_ascii_of_string t ++ NL :: rest)
  = (buffer +:+ t, rest).
Proof.
  induction t as [|c t IH]; intros buffer started rest Ht; simpl.
  - by rewrite string_app_empty_r.
  - destruct Ht as [Hc Ht]. rewrite (nonspace_not_NL c Hc), Hc. simpl.
    by rewrite IH, string_app_snoc.
Qed.

Lemma get_tag_word t rest :
  string_forall (λ c, isspace c = false) t →
  get_tag (list_ascii_of_string t ++ NL :: rest) = (t, rest).
Proof. intros Ht. unfold get_tag. by rewrite get_tag_loop_word. Qed.

(** The lexer on a line: the tokens do not depend on what follows the
    newline, nor on the diagnostics written before. *)
Lemma lex_loop_line (n : nat) : ∀ g tag toks err rest,
  length g ≤ n → NL ∉ g →
  lex_loop tag toks err (g ++ NL :: rest)
  = let '(t, e, _) := lex_loop tag toks [] (g ++ [NL]) in (t, err ++ e, rest).
Proof.
  induction n as [n IH] using lt_wf_ind.
  intros [|c g] tag toks err rest Hlen Hnl.
  { simpl. by rewrite app_nil_r. }
  apply not_elem_of_cons in Hnl as [Hc Hnl]. simpl in Hlen.
  assert (∀ tag toks err rest, lex_loop tag toks err (g ++ NL :: rest)
            = let '(t, e, _) := lex_loop tag toks [] (g ++ [NL]) in
              (t, err ++ e, rest)) as IHg.
  { intros. apply (IH (length g)); [lia|done|done]. }
  assert (∀ msg op,
    match g ++ NL :: rest with
    | [] => lex_loop "" (checkAddTag tag toks ++ [op_token op]) err (g ++ NL :: rest)
    | c2 :: s'' =>
        if Ascii.eqb c2 c
        then lex_loop "" (checkAddTag tag toks ++ [op_token op]) err s''
        else lex_loop "" (checkAddTag tag toks ++ [op_token op]) (err ++ [msg])
               (g ++ NL :: rest)
    end
    = let '(t, e, _) :=
        match g ++ [NL] with
        | [] => lex_loop "" (checkAddTag tag toks ++ [op_token op]) [] (g ++ [NL])
        | c2 :: s'' =>
            if Ascii.eqb c2 c
            then lex_loop "" (checkAddTag tag toks ++ [op_token op]) [] s''
            else lex_loop "" (checkAddTag tag toks ++ [op_token op]) ([] ++ [msg])
                   (g ++ [NL])
        end in (t, err ++ e, rest)) as Hop.
  { intros msg op. destruct g as [|c2 g'].
    - cbn [app]. apply Ascii.eqb_neq in Hc. rewrite Hc.
      cbn [lex_loop app]. change (Ascii.eqb NL NL) with true. done.
    - apply not_elem_of_cons in Hnl as [Hc2 Hnl']. simpl in Hlen.
      change ((c2 :: g') ++ NL :: rest) with (c2 :: (g' ++ NL :: rest)).
      change ((c2 :: g') ++ [NL]) with (c2 :: (g' ++ [NL])). cbv iota.
      destruct (Ascii.eqb c2 c).
      + apply (IH (length g')); [lia|done|done].
      + change (c2 :: (g' ++ NL :: rest)) with ((c2 :: g') ++ NL :: rest).
        change (c2 :: (g' ++ [NL])) with ((c2 :: g') ++ [NL]).
        rewrite (IHg _ _ (err ++ [msg]) rest), (IHg _ _ ([] ++ [msg]) []).
        destruct (lex_loop _ _ [] _) as [[t e] ?]. by rewrite <- app_assoc. }
  change ((c :: g) ++ NL :: rest) with (c :: (g ++ NL :: rest)).
  change ((c :: g) ++ [NL]) with (c :: (g ++ [NL])).
  cbn [lex_loop]. apply Ascii.eqb_neq in Hc. rewrite (Ascii.eqb_sym c NL), Hc.
  destruct (isspace c); [apply IHg|].
  do 4 (destruct (Ascii.eqb c _); [apply IHg|]).
  destruct (Ascii.eqb c "&") eqn:Eand.
  { apply Ascii.eqb_eq in Eand. subst c.
    apply (Hop "And operator is && not &" TokenType.And). }
  destruct (Ascii.eqb c "|") eqn:Eor.
  { apply Ascii.eqb_eq in Eor. subst c.
    apply (Hop "Or operator is || not |" TokenType.Or). }
  apply IHg.
Qed.

(** ** The value of a guard *)

Lemma unary_condition_S f lx err ctx :
  unary_condition (S f) lx err ctx
  = if bool_decide (Type_ (current lx) = TokenType.Not) then
      '(a, lx, err) ← unary_condition f (accept lx) err ctx;
      Some (negb a, lx, err)
    else primary_condition f lx err ctx.
Proof. done. Qed.

Lemma primary_condition_S f lx err ctx :
  primary_condition (S f) lx err ctx
  = if bool_decide (Type_ (current lx) = TokenType.ParantheseOpen) then
      '(a, lx, err) ← binary_condition f (accept lx) err ctx;
      let '(good, lx, err) := accept_type lx err TokenType.ParantheseClose in
      if negb good then Some (false, lx, err) else Some (a, lx, err)
    else
      let tag := current lx in
      let '(good, lx, err) := accept_type lx err TokenType.Tag in
      if negb good then Some (false, lx, err)
      else Some (has_tag ctx (Tag tag), lx, err).
Proof. done. Qed.

Lemma accept_type_post lx err e type :
  accept_type lx (err ++ e) type
  = let '(good, lx', e') := accept_type lx e type in (good, lx', err ++ e').
Proof.
  unfold accept_type. case_bool_decide; [done|]. by rewrite <- app_assoc.
Qed.

Lemma condition_indep (f : nat) : ∀ lx err e ctx ctx',
  Tags ctx = Tags ctx' →
  binary_condition f lx (err ++ e) ctx = post err <$> binary_condition f lx e ctx' ∧
  unary_condition f lx (err ++ e) ctx = post err <$> unary_condition f lx e ctx' ∧
  primary_condition f lx (err ++ e) ctx = post err <$> primary_condition f lx e ctx'.
Proof.
  induction f as [|f IH]; intros lx err e ctx ctx' Htags; [done|].
  assert (∀ lx e, binary_condition f lx (err ++ e) ctx
                  = post err <$> binary_condition f lx e ctx') as IHb.
  { intros. by apply IH. }
  assert (∀ lx e, unary_condition f lx (err ++ e) ctx
                  = post err <$> unary_condition f lx e ctx') as IHu.
  { intros. by apply IH. }
  assert (∀ lx e, primary_condition f lx (err ++ e) ctx
                  = post err <$> primary_condition f lx e ctx') as IHp.
  { intros. by apply IH. }
  split_and!.
  - rewrite !binary_condition_S, IHu.
    destruct (unary_condition f lx e ctx') as [[[a lx1] e1]|]; [|done].
    cbn [fmap option_fmap option_map mbind option_bind post]. cbv zeta.
    repeat case_match; try done; rewrite IHb;
      by destruct (binary_condition f (accept lx1) e1 ctx') as [[[b lx2] e2]|].
  - rewrite !unary_condition_S. case_match; [|apply IHp].
    rewrite IHu.
    by destruct (unary_condition f (accept lx) e ctx') as [[[a lx1] e1]|].
  - rewrite !primary_condition_S. case_match.
    + rewrite IHb.
      destruct (binary_condition f (accept lx) e ctx') as [[[a lx1] e1]|]; [|done].
      cbn [fmap option_fmap option_map mbind option_bind post].
      rewrite accept_type_post.
      destruct (accept_type lx1 e1 TokenType.ParantheseClose) as [[good l] e2].
      by destruct good.
    + cbv zeta. rewrite accept_type_post.
      destruct (accept_type lx e TokenType.Tag) as [[good l] e2].
      unfold has_tag. rewrite Htags. by destruct good.
Qed.

Lemma handle_condition_line g rest out err ctx :
  NL ∉ g →
  ∃ e, handle_condition {| io_in := g ++ NL :: rest; io_out := out; io_err := err |} ctx
       = (guard_value (Tags ctx) g,
          {| io_in := rest; io_out := out; io_err := err ++ e |}).
Proof.
  intros Hnl. unfold guard_value, handle_condition, ExprLexer_new. simpl.
  rewrite (lex_loop_line (length g) g "" [] err rest) by done.
  destruct (lex_loop "" [] [] (g ++ [NL])) as [[toks e] s'].
  set (lx := {| mTokens := toks; mPosition := 0 |}).
  case_bool_decide.
  { exists (e ++ ["Expected condition but got nothing"]). simpl.
    unfold cerr. simpl. by rewrite app_assoc. }
  pose proof (proj1 (condition_indep (cond_fuel lx) lx err e ctx
                {| Tags := Tags ctx; Depth := 0 |} eq_refl)) as Hind.
  rewrite Hind.
  destruct (binary_condition (cond_fuel lx) lx e _) as [[[a lx1] e1]|]; simpl.
  - by exists e1.
  - exists e. done.
Qed.

(** ** Composing scans *)

Lemma scan_char io ctx ignore next r c s :
  io_in io = c :: s → c ≠ PP_START →
  scans (emit ignore (set_in io s) [c]) ctx ignore next r →
  scans io ctx ignore next r.
Proof.
  intros Hin Hc [f H]. exists (S f).
  by rewrite (consume_next_char _ _ _ _ _ c s).
Qed.

Lemma scan_skip io ctx next r g s :
  io_in io = g ++ s → PP_START ∉ g →
  scans (set_in io s) ctx true next r → scans io ctx true next r.
Proof.
  intros Hin Hno [f H]. exists (length g + f).
  by rewrite (consume_next_skip g f io ctx next s).
Qed.

Lemma scan_if io ctx ignore next r s name s' io2 ctx2 :
  io_in io = PP_START :: s →
  extract_operation s = (Operation.If, name, s') →
  returns (λ f, handle_if f (set_in io s') ctx ignore) (true, io2, ctx2) →
  scans io2 ctx2 ignore next r →
  scans io ctx ignore next r.
Proof.
  intros Hin Hex [f1 H1] [f2 H2]. exists (S (f1 `max` f2)).
  rewrite (consume_next_if _ _ _ _ _ s name s') by done.
  rewrite (handle_if_mono f1 (f1 `max` f2) _ _ _ _ H1) by lia. simpl.
  apply (consume_next_mono f2); [done|lia].
Qed.

Lemma scan_flag_active io ctx next r s op name s' io2 ctx2 :
  io_in io = PP_START :: s →
  extract_operation s = (op, name, s') →
  (op = Operation.Define ∧ handle_define (set_in io s') ctx = (true, io2, ctx2)) ∨
  (op = Operation.Undef ∧ handle_undef (set_in io s') ctx = (true, io2, ctx2)) →
  scans io2 ctx2 false next r →
  scans io ctx false next r.
Proof.
  intros Hin Hex Hop [f H]. exists (S f). simpl. rewrite Hin.
  change (Ascii.eqb PP_START PP_START) with true. cbv iota. rewrite Hex.
  by destruct Hop as [[-> ->]|[-> ->]].
Qed.

Lemma scan_flag_ignored io ctx next r s op name s' :
  io_in io = PP_START :: s →
  extract_operation s = (op, name, s') →
  op = Operation.Define ∨ op = Operation.Undef →
  scans (set_in io s') ctx true next r →
  scans io ctx true next r.
Proof.
  intros Hin Hex Hop [f H]. exists (S f). simpl. rewrite Hin.
  change (Ascii.eqb PP_START PP_START) with true. cbv iota. rewrite Hex.
  by destruct Hop as [-> | ->].
Qed.

Lemma scan_branch io ctx ignore next s op name s' :
  io_in io = PP_START :: s →
  extract_operation s = (op, name, s') →
  op = Operation.Elif ∨ op = Operation.Else ∨ op = Operation.Endif →
  scans io ctx ignore next (true, set_in io s', ctx, op).
Proof.
  intros Hin Hex Hop. exists 1. simpl. rewrite Hin.
  change (Ascii.eqb PP_START PP_START) with true. cbv iota. rewrite Hex.
  by destruct Hop as [->|[->| ->]].
Qed.

(** The loop of [handle_if] begins with a scan, so it cannot tell a state
    from one that scans into it. *)
Lemma loop_scan_prefix io1 ctx1 io2 ctx2 ignore c o cur r :
  (∀ next x, scans io2 ctx2 (ignore || o || negb c) next x →
             scans io1 ctx1 (ignore || o || negb c) next x) →
  loops io2 ctx2 ignore c o cur r → loops io1 ctx1 ignore c o cur r.
Proof.
  intros Hpre [[|f] H]; [done|].
  destruct (consume_next f io2 ctx2 (ignore || o || negb c) cur) as [x|] eqn:Hx;
    [|by rewrite handle_if_loop_S, Hx in H].
  destruct (Hpre cur x) as [f1 H1]; [by exists f|].
  exists (S (f `max` f1)).
  rewrite !handle_if_loop_S, Hx in *.
  rewrite (consume_next_mono f1 (f `max` f1) _ _ _ _ _ H1) by lia.
  destruct x as [[[ok io3] ctx3] cur3]. cbn [mbind option_bind] in *.
  repeat case_match; try done;
    (eapply handle_if_loop_mono; [done|lia]).
Qed.

Lemma loop_endif io ctx ignore c o cur io1 ctx1 :
  scans io ctx (ignore || o || negb c) cur (true, io1, ctx1, Operation.Endif) →
  loops io ctx ignore c o cur (io1, ctx1).
Proof. intros [f H]. exists (S f). by rewrite handle_if_loop_S, H. Qed.

Lemma loop_else io ctx ignore c o cur io1 ctx1 r :
  scans io ctx (ignore || o || negb c) cur (true, io1, ctx1, Operation.Else) →
  loops io1 ctx1 ignore (negb (c || o)) (c || o) Operation.Else r →
  loops io ctx ignore c o cur r.
Proof.
  intros [f1 H1] [f2 H2]. exists (S (f1 `max` f2)).
  rewrite handle_if_loop_S.
  rewrite (consume_next_mono f1 (f1 `max` f2) _ _ _ _ _ H1) by lia.
  cbn [mbind option_bind negb]. rewrite !bool_decide_false by done.
  destruct c, o; simpl in *; (eapply handle_if_loop_mono; [done|lia]).
Qed.

Lemma loop_elif_fired io ctx ignore c o cur io1 ctx1 r :
  scans io ctx (ignore || o || negb c) cur (true, io1, ctx1, Operation.Elif) →
  c || o = true →
  loops io1 ctx1 ignore false true Operation.Elif r →
  loops io ctx ignore c o cur r.
Proof.
  intros [f1 H1] Hco [f2 H2]. exists (S (f1 `max` f2)).
  rewrite handle_if_loop_S.
  rewrite (consume_next_mono f1 (f1 `max` f2) _ _ _ _ _ H1) by lia.
  cbn [mbind option_bind negb]. rewrite bool_decide_false by done.
  destruct c, o; try done; simpl; (eapply handle_if_loop_mono; [done|lia]).
Qed.

Lemma loop_elif_eval io ctx ignore cur io1 ctx1 v io2 r :
  scans io ctx (ignore || false || negb false) cur
    (true, io1, ctx1, Operation.Elif) →
  handle_condition io1 ctx1 = (v, io2) →
  loops io2 ctx1 ignore v false Operation.Elif r →
  loops io ctx ignore false false cur r.
Proof.
  intros [f1 H1] Hv [f2 H2]. exists (S (f1 `max` f2)).
  rewrite handle_if_loop_S.
  rewrite (consume_next_mono f1 (f1 `max` f2) _ _ _ _ _ H1) by lia.
  cbn [mbind option_bind negb]. rewrite bool_decide_false by done.
  rewrite bool_decide_true by done. rewrite Hv.
  eapply handle_if_loop_mono; [done|lia].
Qed.

Lemma if_returns io ctx (ignore : bool) v io1 io2 ctx2 :
  (if ignore then (false, io) else handle_condition io ctx) = (v, io1) →
  loops io1 (depth_incr ctx) ignore v false Operation.If (io2, ctx2) →
  returns (λ f, handle_if f io ctx ignore) (true, io2, depth_decr ctx2).
Proof.
  intros Hv [f H]. exists (S f). by rewrite handle_if_S, Hv, H.
Qed.

(** The nesting counter: one step up and one step down cancel, for a
    counter that fits [size_t]. *)
Lemma wf_depth_incr ctx : wf_ctx (depth_incr ctx).
Proof. unfold wf_ctx, depth_incr. simpl. by apply N.mod_lt. Qed.

Lemma depth_decr_incr tags tags' dp :
  (dp < SIZE_MAX1)%N →
  depth_decr {| Tags := tags';
                Depth := Depth (depth_incr {| Tags := tags; Depth := dp |}) |}
  = {| Tags := tags'; Depth := dp |}.
Proof.
  intros Hdp. unfold depth_decr, depth_incr. simpl. f_equal.
  destruct (decide (dp + 1 = SIZE_MAX1)%N) as [Heq|Hne].
  - rewrite Heq, N.Div0.mod_same. simpl.
    rewrite N.mod_small; unfold SIZE_MAX1 in *; lia.
  - rewrite (N.mod_small (dp + 1)) by lia.
    replace (dp + 1 + SIZE_MAX1 - 1)%N with (dp + 1 * SIZE_MAX1)%N by lia.
    rewrite N.Div0.mod_add. by apply N.mod_small.
Qed.

(** ** One step of the scan on a directive *)

Lemma scan_branch_mk s out err ctx ignore next op name s' :
  extract_operation s = (op, name, s') →
  op = Operation.Elif ∨ op = Operation.Else ∨ op = Operation.Endif →
  scans (mk_io (PP_START :: s) out err) ctx ignore next
        (true, mk_io s' out err, ctx, op).
Proof.
  intros Hex Hop.
  exact (scan_branch (mk_io (PP_START :: s) out err) ctx ignore next s op name s'
           eq_refl Hex Hop).
Qed.

Lemma scan_skip_mk g s out err ctx next r :
  PP_START ∉ g →
  scans (mk_io s out err) ctx true next r →
  scans (mk_io (g ++ s) out err) ctx true next r.
Proof.
  intros Hno Hr.
  exact (scan_skip (mk_io (g ++ s) out err) ctx next r g s eq_refl Hno Hr).
Qed.

Lemma scan_if_mk s out err ctx ignore next r name s' io2 ctx2 :
  extract_operation s = (Operation.If, name, s') →
  returns (λ f, handle_if f (mk_io s' out err) ctx ignore) (true, io2, ctx2) →
  scans io2 ctx2 ignore next r →
  scans (mk_io (PP_START :: s) out err) ctx ignore next r.
Proof.
  intros Hex Hif Hr.
  exact (scan_if (mk_io (PP_START :: s) out err) ctx ignore next r s name s'
           io2 ctx2 eq_refl Hex Hif Hr).
Qed.

Lemma if_returns_mk io tags dp (ignore : bool) v io1 io2 tags2 :
  (dp < SIZE_MAX1)%N →
  (if ignore then (false, io) else handle_condition io (mk_ctx tags dp))
  = (v, io1) →
  loops io1 (mk_ctx tags (Depth (depth_incr (mk_ctx tags dp)))) ignore v false
        Operation.If
        (io2, mk_ctx tags2 (Depth (depth_incr (mk_ctx tags dp)))) →
  returns (λ f, handle_if f io (mk_ctx tags dp) ignore)
          (true, io2, mk_ctx tags2 dp).
Proof.
  intros Hdp Hv Hl.
  change (mk_ctx tags2 dp) with {| Tags := tags2; Depth := dp |}.
  rewrite <- (depth_decr_incr tags tags2 dp Hdp).
  by eapply if_returns.
Qed.

(** ** A marker in a skipped guard *)

(** C3 fails on the code for a chain whose skipped guard holds the marker.
    The guard of an [elif] behind a fired branch is not lexed but scanned as
    suppressed text, so in [#elif #endif] the marker ends the block: the
    body of that [elif] is then read at the enclosing level, where it is
    written to the output and its [define] takes effect. *)
Lemma marker_in_skipped_guard_ends_chain :
  outcome (parse 40 (txt ("#if a" +:+ nl +:+ "A#elif #endif" +:+ nl
                          +:+ "B#endif" +:+ nl)) {[ "a" ]})
  = Some (true, "AB#endif", []) ∧
  outcome (parse 40 (txt ("#if a" +:+ nl +:+ "A#elif #endif" +:+ nl
                          +:+ "#define x" +:+ nl +:+ "#endif" +:+ nl
                          +:+ "#if x" +:+ nl +:+ "X#endif" +:+ nl)) {[ "a" ]})
  = Some (true, "A#endifX", []).
Proof. split; vm_compute; reflexivity. Qed.

(** ** From the body scan to [consume] *)

(** A body scan entered with [next = Unknown] that returns [Unknown] did not
    stop at a branch directive, and [consume] goes the same way. *)
Lemma consume_of_consume_next f : ∀ io ctx ignore ok io' ctx',
  consume_next f io ctx ignore Operation.Unknown
  = Some (ok, io', ctx', Operation.Unknown) →
  consume f io ctx ignore = Some (ok, io', ctx').
Proof.
  induction f as [|f IH]; intros io ctx ignore ok io' ctx' H; [done|].
  simpl in H |- *. destruct (io_in io) as [|c s]; [by simplify_eq|].
  destruct (Ascii.eqb c PP_START); [|by apply IH].
  destruct (extract_operation s) as [[op name] s'].
  destruct op; try done; try (by apply IH).
  - destruct (handle_if f _ ctx ignore) as [[[ok2 io2] ctx2]|]; [|done].
    simpl in H |- *. destruct ok2; simpl in H |- *; [by apply IH|by simplify_eq].
  - destruct ignore; [by apply IH|].
    destruct (handle_define _ ctx) as [[ok2 io2] ctx2].
    destruct ok2; simpl in H |- *; [by apply IH|by simplify_eq].
  - destruct ignore; [by apply IH|].
    destruct (handle_undef _ ctx) as [[ok2 io2] ctx2].
    destruct ok2; simpl in H |- *; [by apply IH|by simplify_eq].
Qed.

(** ** Errors in a condition *)

(** C1 fails on the code: after an empty condition, an unmatched parenthesis
    or an unexpected token the diagnostic is written, the run goes on, the
    text behind the block is written and the result is success. *)
Lemma condition_error_does_not_abort :
  outcome (parse 20 (txt ("#if " +:+ nl +:+ "X" +:+ nl +:+ "#endif" +:+ nl +:+ "Y")) ∅)
  = Some (true, "Y", ["Expected condition but got nothing"]) ∧
  outcome (parse 20 (txt ("#if (a" +:+ nl +:+ "X" +:+ nl +:+ "#endif" +:+ nl +:+ "Y")) ∅)
  = Some (true, "Y", ["Expected ')' but got 'EOS'"]) ∧
  outcome (parse 20 (txt ("#if &&" +:+ nl +:+ "X" +:+ nl +:+ "#endif" +:+ nl +:+ "Y")) ∅)
  = Some (true, "Y", ["Expected 'Tag' but got '&&'"]) ∧
  outcome (parse 20 (txt ("#if !" +:+ nl +:+ "X#endif" +:+ nl +:+ "Y")) ∅)
  = Some (true, "XY", ["Expected 'Tag' but got 'EOS'"]).
Proof. split_and!; vm_compute; reflexivity. Qed.

Lemma handle_if_returns_true fuel io ctx ignore ok io' ctx' :
  handle_if fuel io ctx ignore = Some (ok, io', ctx') → ok = true.
Proof.
  destruct fuel as [|fuel]; [done|]. rewrite handle_if_S.
  destruct (if ignore then _ else _) as [condition io1].
  destruct (handle_if_loop _ _ _ _ _ _ _) as [[io2 ctx2]|]; [|done].
  by intros [= <- _ _].
Qed.

Lemma consume_fails_on_missing_tag fuel : ∀ io ctx ignore io' ctx',
  consume fuel io ctx ignore = Some (false, io', ctx') →
  ignore = false ∧
  ∃ msgs m, io_err io' = msgs ++ [m] ∧ missing_tag_diag m.
Proof.
  induction fuel as [|fuel IH]; intros io ctx ignore io' ctx' H; [done|].
  simpl in H. destruct (io_in io) as [|c s]; [done|].
  destruct (Ascii.eqb c PP_START); [|by eapply IH].
  destruct (extract_operation s) as [[op name] s'].
  destruct op; try (by eapply IH).
  - destruct (handle_if fuel _ ctx ignore) as [[[ok io2] ctx2]|] eqn:Hi; [|done].
    apply handle_if_returns_true in Hi as ->. simpl in H. by eapply IH.
  - destruct ignore; [by eapply IH|].
    unfold handle_define in H. destruct (get_tag _) as [tag s''].
    case_decide; simpl in H; [|by eapply IH].
    injection H as <- <-. split; [done|].
    eexists _, _. split; [done|by left].
  - destruct ignore; [by eapply IH|].
    unfold handle_undef in H. destruct (get_tag _) as [tag s''].
    case_decide; simpl in H; [|by eapply IH].
    injection H as <- <-. split; [done|].
    eexists _, _. split; [done|by right].
Qed.

(** The diagnostics only grow. *)
Lemma lex_loop_diag (n : nat) : ∀ s tag toks err,
  length s ≤ n → ∃ e, (lex_loop tag toks err s).1.2 = err ++ e.
Proof.
  induction n as [n IH] using lt_wf_ind.
  intros [|c s] tag toks err Hlen.
  { exists []. simpl. by rewrite app_nil_r. }
  simpl in Hlen.
  assert (∀ tag toks err, ∃ e, (lex_loop tag toks err s).1.2 = err ++ e) as IHs.
  { intros. apply (IH (length s)); lia. }
  assert (∀ tag toks err msg,
            ∃ e, (lex_loop tag toks (err ++ [msg]) s).1.2 = err ++ e) as IHm.
  { intros tag' toks' err' msg. destruct (IHs tag' toks' (err' ++ [msg])) as [e He].
    exists ([msg] ++ e). by rewrite He, app_assoc. }
  assert (∀ tag toks err, ∃ e, (lex_loop tag toks err (tail s)).1.2 = err ++ e)
    as IHt.
  { intros. apply (IH (length s)); [lia|]. destruct s; simpl; lia. }
  cbn [lex_loop].
  destruct (Ascii.eqb c NL). { exists []. simpl. by rewrite app_nil_r. }
  destruct (isspace c); [apply IHs|].
  do 4 (destruct (Ascii.eqb c _); [apply IHs|]).
  do 2 (destruct (Ascii.eqb c _);
        [destruct s as [|c2 s2]; [apply IHs|];
         destruct (Ascii.eqb c2 _); [apply (IHt _ _ _)|apply IHm]|]).
  apply IHs.
Qed.

Lemma handle_condition_diag io ctx :
  ∃ e, io_err (handle_condition io ctx).2 = io_err io ++ e.
Proof.
  unfold handle_condition, ExprLexer_new.
  destruct (lex_loop_diag (length (io_in io)) (io_in io) "" [] (io_err io))
    as [e He]; [done|].
  destruct (lex_loop "" [] (io_err io) (io_in io)) as [[toks err'] s'].
  simpl in He. subst err'.
  case_bool_decide.
  { exists (e ++ ["Expected condition but got nothing"]). simpl.
    by rewrite app_assoc. }
  set (lx := {| mTokens := toks; mPosition := 0 |}).
  rewrite (proj1 (condition_indep (cond_fuel lx) lx (io_err io) e ctx ctx eq_refl)).
  destruct (binary_condition _ _ e ctx) as [[[a lx'] e']|]; simpl.
  - by exists e'.
  - by exists e.
Qed.

Lemma stream_diag_mono (f : nat) :
  (∀ io ctx ignore next ok io' ctx' next',
     consume_next f io ctx ignore next = Some (ok, io', ctx', next') →
     ∃ e, io_err io' = io_err io ++ e) ∧
  (∀ io ctx ignore ok io' ctx',
     handle_if f io ctx ignore = Some (ok, io', ctx') →
     ∃ e, io_err io' = io_err io ++ e) ∧
  (∀ io ctx ignore c o cur io' ctx',
     handle_if_loop f io ctx ignore c o cur = Some (io', ctx') →
     ∃ e, io_err io' = io_err io ++ e).
Proof.
  assert (∀ (a b c : list string) e1 e2, b = a ++ e1 → c = b ++ e2 →
            ∃ e, c = a ++ e) as Htrans.
  { intros a b c e1 e2 -> ->. exists (e1 ++ e2). by rewrite app_assoc. }
  assert (∀ a : list string, ∃ e, a = a ++ e) as Hrefl.
  { intros a. exists []. by rewrite app_nil_r. }
  induction f as [|f (IHn & IHi & IHl)]; [by repeat split|].
  split_and!.
  - intros io ctx ignore next ok io' ctx' next' H. simpl in H.
    destruct (io_in io) as [|c s]; [by simplify_eq|].
    assert (∀ io1 ctx1, io_err io1 = io_err io →
              consume_next f io1 ctx1 ignore next = Some (ok, io', ctx', next') →
              ∃ e, io_err io' = io_err io ++ e) as Hgo.
    { intros io1 ctx1 Herr H1. apply IHn in H1 as [e He].
      exists e. by rewrite He, Herr. }
    destruct (Ascii.eqb c PP_START);
      [|by (eapply Hgo; [|exact H]; destruct ignore)].
    destruct (extract_operation s) as [[op name] s'].
    destruct op; simplify_eq; try done;
      try (by (eapply Hgo; [|exact H]; destruct ignore)).
    + destruct (handle_if f _ ctx ignore) as [[[ok2 io2] ctx2]|] eqn:Hi; [|done].
      apply IHi in Hi as [e1 He1]. simpl in H, He1.
      destruct ok2; simpl in H; [|simplify_eq; by exists e1].
      apply IHn in H as [e2 He2]. by eapply Htrans.
    + destruct ignore; [by (eapply Hgo; [|exact H])|].
      unfold handle_define in H. destruct (get_tag _) as [tag s''].
      case_decide; simpl in H; [simplify_eq; by eexists|].
      by (eapply Hgo; [|exact H]).
    + destruct ignore; [by (eapply Hgo; [|exact H])|].
      unfold handle_undef in H. destruct (get_tag _) as [tag s''].
      case_decide; simpl in H; [simplify_eq; by eexists|].
      by (eapply Hgo; [|exact H]).
  - intros io ctx ignore ok io' ctx' H. rewrite handle_if_S in H.
    destruct (handle_condition_diag io ctx) as [e1 He1].
    destruct ignore.
    + destruct (handle_if_loop f io _ true false false _)
        as [[io2 ctx2]|] eqn:Hl; [|done].
      simplify_eq/=. by eapply IHl.
    + destruct (handle_condition io ctx) as [v io1].
      destruct (handle_if_loop f io1 _ false v false _)
        as [[io2 ctx2]|] eqn:Hl; [|done].
      simplify_eq/=. apply IHl in Hl as [e2 He2]. by eapply Htrans.
  - intros io ctx ignore c o cur io' ctx' H. rewrite handle_if_loop_S in H.
    destruct (consume_next f io ctx _ cur) as [[[[ok io1] ctx1] cur1]|] eqn:Hn;
      [|done].
    apply IHn in Hn as [e1 He1]. cbn [mbind option_bind] in H.
    destruct ok; cbn [negb] in H; [|simplify_eq; by exists e1].
    case_bool_decide; [simplify_eq; by exists e1|].
    destruct (if c then true else o).
    { apply IHl in H as [e2 He2]. by eapply Htrans. }
    case_bool_decide.
    + destruct (handle_condition_diag io1 ctx1) as [e2 He2].
      destruct (handle_condition io1 ctx1) as [v io2]. simpl in He2.
      apply IHl in H as [e3 He3].
      destruct (Htrans _ _ _ _ _ He1 He2) as [e12 He12]. by eapply Htrans.
    + apply IHl in H as [e2 He2]. by eapply Htrans.
Qed.

(** * Further properties of the code *)

(** ** Suppressed spans *)

Lemma ignored_silent (f : nat) :
  (∀ io ctx next ok io' ctx' next',
     consume_next f io ctx true next = Some (ok, io', ctx', next') →
     ok = true ∧ io_out io' = io_out io ∧ Tags ctx' = Tags ctx) ∧
  (∀ io ctx ok io' ctx',
     handle_if f io ctx true = Some (ok, io', ctx') →
     ok = true ∧ io_out io' = io_out io ∧ Tags ctx' = Tags ctx) ∧
  (∀ io ctx ignore c o cur io' ctx',
     ignore || o = true →
     handle_if_loop f io ctx ignore c o cur = Some (io', ctx') →
     io_out io' = io_out io ∧ Tags ctx' = Tags ctx).
Proof.
  induction f as [|f (IHn & IHi & IHl)]; [by repeat split|].
  split_and!.
  - intros io ctx next ok io' ctx' next' H. simpl in H.
    destruct (io_in io) as [|c s]; [by simplify_eq|].
    destruct (Ascii.eqb c PP_START); [|by apply IHn in H].
    destruct (extract_operation s) as [[op name] s'].
    destruct op; try (by simplify_eq); try (by apply IHn in H).
    destruct (handle_if f _ ctx true) as [[[ok2 io2] ctx2]|] eqn:Hi; [|done].
    apply IHi in Hi as (-> & Ho & Ht). simpl in H, Ho.
    apply IHn in H as (-> & Ho' & Ht'). split_and!; congruence.
  - intros io ctx ok io' ctx' H. rewrite handle_if_S in H.
    destruct (handle_if_loop f io _ true false false _)
      as [[io2 ctx2]|] eqn:Hl; [|done].
    apply IHl in Hl as [Ho Ht]; [|done]. by simplify_eq/=.
  - intros io ctx ignore c o cur io' ctx' Hig H. rewrite handle_if_loop_S in H.
    replace (ignore || o || negb c) with true in H
      by (by destruct ignore, o; simplify_eq/=).
    destruct (consume_next f io ctx true cur) as [[[[ok io1] ctx1] cur1]|] eqn:Hn;
      [|done].
    apply IHn in Hn as (-> & Ho & Ht). cbn [mbind option_bind negb] in H.
    case_bool_decide; [by simplify_eq|].
    destruct (if c then true else o) eqn:Honce.
    { apply IHl in H as [Ho' Ht']; [|by destruct ignore]. split; congruence. }
    assert (ignore = true) as -> by (by destruct c, o, ignore; simplify_eq/=).
    pose proof (proj2 (handle_condition_channels io1 ctx1)) as Hc.
    case_bool_decide.
    + destruct (handle_condition io1 ctx1) as [v io2]. simpl in Hc.
      apply IHl in H as [Ho' Ht']; [|done]. split; congruence.
    + apply IHl in H as [Ho' Ht']; [|done]. split; congruence.
Qed.

(** An [if] block or a body scan met while ignoring writes nothing to the
    output, leaves the tag set as it is and never fails, whatever its text:
    guards, [define], [undef] and nested blocks included. *)
Theorem suppressed_span_is_silent (fuel : nat) (io : IO) (ctx : Context) :
  (∀ next ok io' ctx' next',
     consume_next fuel io ctx true next = Some (ok, io', ctx', next') →
     ok = true ∧ io_out io' = io_out io ∧ Tags ctx' = Tags ctx) ∧
  (∀ ok io' ctx',
     handle_if fuel io ctx true = Some (ok, io', ctx') →
     ok = true ∧ io_out io' = io_out io ∧ Tags ctx' = Tags ctx).
Proof.
  destruct (ignored_silent fuel) as (Hn & Hi & _).
  split; [intros; by eapply Hn|intros; by eapply Hi].
Qed.

Lemma suppressed_span_run :
  handle_if 40 (mk_io (txt ("x" +:+ nl +:+ "A#define y" +:+ nl +:+ "#if y"
                            +:+ nl +:+ "B#else" +:+ nl +:+ "C#endif" +:+ nl
                            +:+ "#endif" +:+ nl +:+ "T")) (txt "out") [])
    (mk_ctx {[ "x" ]} 0) true
  = Some (true, mk_io (txt "T") (txt "out") [], mk_ctx {[ "x" ]} 0).
Proof. vm_compute. reflexivity. Qed.

Lemma suppressed_span_is_silent_witness :
  true = true ∧ txt "out" = txt "out" ∧ ({[ "x" ]} : gset string) = {[ "x" ]}.
Proof.
  exact (proj2 (suppressed_span_is_silent 40 _ _) _ _ _ suppressed_span_run).
Defined.

(** ** One line per condition *)

Lemma lex_loop_drop_line (n : nat) : ∀ s tag toks err,
  length s ≤ n → (lex_loop tag toks err s).2 = drop_line s.
Proof.
  induction n as [n IH] using lt_wf_ind.
  intros [|c s] tag toks err Hlen; [done|]. simpl in Hlen.
  assert (∀ tag toks err, (lex_loop tag toks err s).2 = drop_line s) as IHs.
  { intros. apply (IH (length s)); lia. }
  cbn [lex_loop drop_line].
  destruct (Ascii.eqb c NL); [done|].
  destruct (isspace c); [apply IHs|].
  do 4 (destruct (Ascii.eqb c _); [apply IHs|]).
  do 2 (destruct (Ascii.eqb c _);
        [destruct s as [|c2 s2]; [apply IHs|];
         destruct (Ascii.eqb c2 _) eqn:Hc2; [|apply IHs];
         apply Ascii.eqb_eq in Hc2; subst c2; cbn [drop_line];
         change (Ascii.eqb _ NL) with false; cbv iota;
         apply (IH (length s2)); simpl in *; lia|]).
  apply IHs.
Qed.

(** [handle_condition] reads exactly one line, with its newline: the stream
    is left behind the first newline, or empty when there is none, whatever
    the line holds; the output is not touched and the diagnostics only
    grow. *)
Theorem handle_condition_reads_one_line (io : IO) (ctx : Context) :
  io_in (handle_condition io ctx).2 = drop_line (io_in io) ∧
  io_out (handle_condition io ctx).2 = io_out io ∧
  ∃ e, io_err (handle_condition io ctx).2 = io_err io ++ e.
Proof.
  destruct (handle_condition_channels io ctx) as [Hin Hout].
  split_and!; [|done|apply handle_condition_diag].
  rewrite Hin. by apply (lex_loop_drop_line (length (io_in io))).
Qed.

(** ** The channels move one way *)

Lemma extract_loop_suffix s : ∀ buffer started,
  (extract_loop buffer started s).2 `suffix_of` s.
Proof.
  induction s as [|c s IH]; intros buffer started; simpl.
  - by case_match.
  - repeat case_match; simpl; try done; try (by apply suffix_cons_r).
Qed.

Lemma extract_operation_suffix s : (extract_operation s).2 `suffix_of` s.
Proof.
  unfold extract_operation.
  pose proof (extract_loop_suffix s [] false) as H.
  by destruct (extract_loop [] false s).
Qed.

Lemma get_tag_suffix s : (get_tag s).2 `suffix_of` s.
Proof.
  unfold get_tag. generalize "" false.
  induction s as [|c s IH]; intros buffer started; simpl; [done|].
  repeat case_match; simpl; try done; by apply suffix_cons_r.
Qed.

Lemma drop_line_suffix s : drop_line s `suffix_of` s.
Proof.
  induction s as [|c s IH]; simpl; [done|].
  case_match; by apply suffix_cons_r.
Qed.

Lemma advances_refl io : advances io io.
Proof.
  split_and!; [done|exists []|exists []]; by rewrite app_nil_r.
Qed.

Lemma advances_trans io1 io2 io3 :
  advances io1 io2 → advances io2 io3 → advances io1 io3.
Proof.
  intros (Hi & [o Ho] & [e He]) (Hi' & [o' Ho'] & [e' He']). split_and!.
  - by etrans.
  - exists (o ++ o'). by rewrite Ho', Ho, app_assoc.
  - exists (e ++ e'). by rewrite He', He, app_assoc.
Qed.

(** A step that reads on and writes at most to the output. *)
Lemma advances_step io s ignore cs :
  s `suffix_of` io_in io → advances io (emit ignore (set_in io s) cs).
Proof.
  intros Hs. destruct ignore; simpl.
  - split_and!; [done|exists []|exists []]; by rewrite app_nil_r.
  - split_and!; [done|by exists cs|exists []; by rewrite app_nil_r].
Qed.

Lemma advances_set_in io s : s `suffix_of` io_in io → advances io (set_in io s).
Proof. apply (advances_step io s true []). Qed.

Lemma handle_condition_advances io ctx : advances io (handle_condition io ctx).2.
Proof.
  destruct (handle_condition_channels io ctx) as [Hin Hout]. split_and!.
  - rewrite Hin, (lex_loop_drop_line (length (io_in io))) by done.
    apply drop_line_suffix.
  - exists []. by rewrite app_nil_r.
  - apply handle_condition_diag.
Qed.

Lemma handle_flag_advances io ctx :
  advances io (handle_define io ctx).1.2 ∧ advances io (handle_undef io ctx).1.2.
Proof.
  unfold handle_define, handle_undef.
  pose proof (get_tag_suffix (io_in io)) as Hs.
  destruct (get_tag (io_in io)) as [tag s'].
  split; case_decide; simpl;
    (split_and!; [done|exists []; by rewrite app_nil_r|eexists; simpl]);
    try done; by rewrite app_nil_r.
Qed.

Lemma stream_advances (f : nat) :
  (∀ io ctx ignore next ok io' ctx' next',
     consume_next f io ctx ignore next = Some (ok, io', ctx', next') →
     advances io io') ∧
  (∀ io ctx ignore ok io' ctx',
     handle_if f io ctx ignore = Some (ok, io', ctx') → advances io io') ∧
  (∀ io ctx ignore c o cur io' ctx',
     handle_if_loop f io ctx ignore c o cur = Some (io', ctx') →
     advances io io').
Proof.
  induction f as [|f (IHn & IHi & IHl)]; [by repeat split|].
  split_and!.
  - intros io ctx ignore next ok io' ctx' next' H. simpl in H.
    destruct (io_in io) as [|c s] eqn:Hin; [simplify_eq; apply advances_refl|].
    assert (s `suffix_of` io_in io) as Hs by (rewrite Hin; by apply suffix_cons_r).
    destruct (Ascii.eqb c PP_START).
    2:{ apply IHn in H. eapply advances_trans; [|done]. by apply advances_step. }
    pose proof (extract_operation_suffix s) as Hex.
    destruct (extract_operation s) as [[op name] s']. simpl in Hex.
    assert (s' `suffix_of` io_in io) as Hs' by (by etrans).
    assert (advances io (set_in io s')) as Hadv by (by apply advances_set_in).
    assert (∀ ctx1 ign nxt r,
              consume_next f (set_in io s') ctx1 ign nxt = Some r →
              advances io r.1.1.2) as Hgo.
    { intros ctx1 ign nxt [[[ok1 io1] c1] n1] H1. apply IHn in H1.
      by eapply advances_trans. }
    destruct op.
    + destruct (handle_if f _ ctx ignore) as [[[ok2 io2] ctx2]|] eqn:Hi; [|done].
      apply IHi in Hi. simpl in H.
      assert (advances io io2) as H2 by (by eapply advances_trans).
      destruct ok2; simpl in H; [|by simplify_eq].
      apply IHn in H. by eapply advances_trans.
    + by simplify_eq.
    + by simplify_eq.
    + by simplify_eq.
    + destruct ignore; [by apply Hgo in H|].
      pose proof (proj1 (handle_flag_advances (set_in io s') ctx)) as Hd.
      destruct (handle_define _ ctx) as [[ok2 io2] ctx2]. simpl in Hd.
      assert (advances io io2) as H2 by (by eapply advances_trans).
      destruct ok2; simpl in H; [|by simplify_eq].
      apply IHn in H. by eapply advances_trans.
    + destruct ignore; [by apply Hgo in H|].
      pose proof (proj2 (handle_flag_advances (set_in io s') ctx)) as Hd.
      destruct (handle_undef _ ctx) as [[ok2 io2] ctx2]. simpl in Hd.
      assert (advances io io2) as H2 by (by eapply advances_trans).
      destruct ok2; simpl in H; [|by simplify_eq].
      apply IHn in H. by eapply advances_trans.
    + apply IHn in H. eapply advances_trans; [|done]. by apply advances_step.
  - intros io ctx ignore ok io' ctx' H. rewrite handle_if_S in H.
    pose proof (handle_condition_advances io ctx) as Hc.
    destruct ignore.
    + destruct (handle_if_loop f io _ true false false _)
        as [[io2 ctx2]|] eqn:Hl; [|done].
      simplify_eq/=. by eapply IHl.
    + destruct (handle_condition io ctx) as [v io1].
      destruct (handle_if_loop f io1 _ false v false _)
        as [[io2 ctx2]|] eqn:Hl; [|done].
      simplify_eq/=. apply IHl in Hl. by eapply advances_trans.
  - intros io ctx ignore c o cur io' ctx' H. rewrite handle_if_loop_S in H.
    destruct (consume_next f io ctx _ cur) as [[[[ok io1] ctx1] cur1]|] eqn:Hn;
      [|done].
    apply IHn in Hn. cbn [mbind option_bind] in H.
    destruct ok; cbn [negb] in H; [|by simplify_eq].
    case_bool_decide; [by simplify_eq|].
    destruct (if c then true else o).
    { apply IHl in H. by eapply advances_trans. }
    case_bool_decide.
    + pose proof (handle_condition_advances io1 ctx1) as Hc.
      destruct (handle_condition io1 ctx1) as [v io2]. simpl in Hc.
      apply IHl in H. eapply advances_trans; [done|]. by eapply advances_trans.
    + apply IHl in H. by eapply advances_trans.
Qed.

Lemma consume_advances f : ∀ io ctx ignore ok io' ctx',
  consume f io ctx ignore = Some (ok, io', ctx') → advances io io'.
Proof.
  induction f as [|f IH]; intros io ctx ignore ok io' ctx' H; [done|].
  simpl in H.
  destruct (io_in io) as [|c s] eqn:Hin; [simplify_eq; apply advances_refl|].
  assert (s `suffix_of` io_in io) as Hs by (rewrite Hin; by apply suffix_cons_r).
  destruct (Ascii.eqb c PP_START).
  2:{ apply IH in H. eapply advances_trans; [|done]. by apply advances_step. }
  pose proof (extract_operation_suffix s) as Hex.
  destruct (extract_operation s) as [[op name] s']. simpl in Hex.
  assert (s' `suffix_of` io_in io) as Hs' by (by etrans).
  assert (advances io (set_in io s')) as Hadv by (by apply advances_set_in).
  assert (∀ ign cs, consume f (emit ign (set_in io s') cs) ctx ignore
                    = Some (ok, io', ctx') → advances io io') as Hecho.
  { intros ign cs H1. apply IH in H1. eapply advances_trans; [|done].
    by apply advances_step. }
  destruct op; try (by eapply Hecho).
  - destruct (handle_if f _ ctx ignore) as [[[ok2 io2] ctx2]|] eqn:Hi; [|done].
    apply (proj1 (proj2 (stream_advances f))) in Hi. simpl in H.
    assert (advances io io2) as H2 by (by eapply advances_trans).
    destruct ok2; simpl in H; [|by simplify_eq].
    apply IH in H. by eapply advances_trans.
  - destruct ignore; [by apply (Hecho true [])|].
    pose proof (proj1 (handle_flag_advances (set_in io s') ctx)) as Hd.
    destruct (handle_define _ ctx) as [[ok2 io2] ctx2]. simpl in Hd.
    assert (advances io io2) as H2 by (by eapply advances_trans).
    destruct ok2; simpl in H; [|by simplify_eq].
    apply IH in H. by eapply advances_trans.
  - destruct ignore; [by apply (Hecho true [])|].
    pose proof (proj2 (handle_flag_advances (set_in io s') ctx)) as Hd.
    destruct (handle_undef _ ctx) as [[ok2 io2] ctx2]. simpl in Hd.
    assert (advances io io2) as H2 by (by eapply advances_trans).
    destruct ok2; simpl in H; [|by simplify_eq].
    apply IH in H. by eapply advances_trans.
Qed.

(** Whatever a run does, it does in one direction: what is left of the
    input is a suffix of the input, and what was written to the output and
    to the diagnostics before the call is still there, in front. *)
Theorem run_advances (fuel : nat) (io : IO) (ctx : Context) (ignore ok : bool)
    (io' : IO) (ctx' : Context) :
  (consume fuel io ctx ignore = Some (ok, io', ctx') → advances io io') ∧
  (handle_if fuel io ctx ignore = Some (ok, io', ctx') → advances io io').
Proof.
  split; [apply consume_advances|apply (proj1 (proj2 (stream_advances fuel)))].
Qed.

Lemma run_advances_run :
  consume 40 (mk_io (txt ("a#if x" +:+ nl +:+ "b#define " +:+ nl +:+ "c"))
                (txt "out") ["earlier"]) (mk_ctx {[ "x" ]} 0) false
  = Some (true, mk_io [] (txt "outabc")
            ["earlier"; "Define statement without tag"], mk_ctx {[ "x" ]} 0).
Proof. vm_compute. reflexivity. Qed.

Lemma run_advances_witness :
  advances (mk_io (txt ("a#if x" +:+ nl +:+ "b#define " +:+ nl +:+ "c"))
              (txt "out") ["earlier"])
    (mk_io [] (txt "outabc") ["earlier"; "Define statement without tag"]).
Proof.
  exact (proj1 (run_advances 40 _ _ _ _ _ _) run_advances_run).
Defined.

(** ** The nesting counter *)

Lemma depth_decr_incr_depth ctx ctx2 :
  wf_ctx ctx → Depth ctx2 = Depth (depth_incr ctx) →
  Depth (depth_decr ctx2) = Depth ctx.
Proof.
  intros Hwf H2. destruct ctx as [tags dp], ctx2 as [tags2 dp2].
  simpl in H2. subst dp2.
  exact (f_equal Depth (depth_decr_incr tags tags2 dp Hwf)).
Qed.

Lemma handle_flag_depth io ctx :
  Depth (handle_define io ctx).2 = Depth ctx ∧
  Depth (handle_undef io ctx).2 = Depth ctx.
Proof.
  unfold handle_define, handle_undef.
  destruct (get_tag (io_in io)) as [tag s']. split; by case_decide.
Qed.

Lemma stream_depth (f : nat) :
  (∀ io ctx ignore next ok io' ctx' next',
     wf_ctx ctx →
     consume_next f io ctx ignore next = Some (ok, io', ctx', next') →
     Depth ctx' = Depth ctx) ∧
  (∀ io ctx ignore ok io' ctx',
     wf_ctx ctx →
     handle_if f io ctx ignore = Some (ok, io', ctx') →
     Depth ctx' = Depth ctx) ∧
  (∀ io ctx ignore c o cur io' ctx',
     wf_ctx ctx →
     handle_if_loop f io ctx ignore c o cur = Some (io', ctx') →
     Depth ctx' = Depth ctx).
Proof.
  unfold wf_ctx.
  induction f as [|f (IHn & IHi & IHl)]; [by repeat split|].
  split_and!.
  - intros io ctx ignore next ok io' ctx' next' Hwf H. simpl in H.
    destruct (io_in io) as [|c s] eqn:Hin; [by simplify_eq|].
    destruct (Ascii.eqb c PP_START); [|by eapply IHn].
    destruct (extract_operation s) as [[op name] s'].
    destruct op; try (by simplify_eq); try (by eapply IHn).
    + destruct (handle_if f _ ctx ignore) as [[[ok2 io2] ctx2]|] eqn:Hi; [|done].
      apply IHi in Hi; [|done]. simpl in H.
      destruct ok2; simpl in H; [|by simplify_eq].
      apply IHn in H; congruence.
    + destruct ignore; [by eapply IHn|].
      pose proof (proj1 (handle_flag_depth (set_in io s') ctx)) as Hd.
      destruct (handle_define _ ctx) as [[ok2 io2] ctx2]. simpl in Hd.
      destruct ok2; simpl in H; [|by simplify_eq].
      apply IHn in H; congruence.
    + destruct ignore; [by eapply IHn|].
      pose proof (proj2 (handle_flag_depth (set_in io s') ctx)) as Hd.
      destruct (handle_undef _ ctx) as [[ok2 io2] ctx2]. simpl in Hd.
      destruct ok2; simpl in H; [|by simplify_eq].
      apply IHn in H; congruence.
  - intros io ctx ignore ok io' ctx' Hwf H. rewrite handle_if_S in H.
    destruct (if ignore then _ else _) as [v io1].
    destruct (handle_if_loop f io1 _ ignore v false _)
      as [[io2 ctx2]|] eqn:Hl; [|done].
    simplify_eq/=. apply IHl in Hl; [|apply wf_depth_incr].
    by apply depth_decr_incr_depth.
  - intros io ctx ignore c o cur io' ctx' Hwf H. rewrite handle_if_loop_S in H.
    destruct (consume_next f io ctx _ cur) as [[[[ok io1] ctx1] cur1]|] eqn:Hn;
      [|done].
    apply IHn in Hn; [|done]. cbn [mbind option_bind] in H.
    destruct ok; cbn [negb] in H; [|by simplify_eq].
    case_bool_decide; [by simplify_eq|].
    destruct (if c then true else o).
    { apply IHl in H; congruence. }
    case_bool_decide.
    + destruct (handle_condition io1 ctx1) as [v io2].
      apply IHl in H; congruence.
    + apply IHl in H; congruence.
Qed.

Lemma consume_depth f : ∀ io ctx ignore ok io' ctx',
  wf_ctx ctx → consume f io ctx ignore = Some (ok, io', ctx') →
  Depth ctx' = Depth ctx.
Proof.
  unfold wf_ctx.
  induction f as [|f IH]; intros io ctx ignore ok io' ctx' Hwf H; [done|].
  simpl in H.
  destruct (io_in io) as [|c s] eqn:Hin; [by simplify_eq|].
  destruct (Ascii.eqb c PP_START); [|by eapply IH].
  destruct (extract_operation s) as [[op name] s'].
  destruct op; try (by eapply IH).
  - destruct (handle_if f _ ctx ignore) as [[[ok2 io2] ctx2]|] eqn:Hi; [|done].
    apply (proj1 (proj2 (stream_depth f))) in Hi; [|done]. simpl in H.
    destruct ok2; simpl in H; [|by simplify_eq].
    apply IH in H; congruence.
  - destruct ignore; [by eapply IH|].
    pose proof (proj1 (handle_flag_depth (set_in io s') ctx)) as Hd.
    destruct (handle_define _ ctx) as [[ok2 io2] ctx2]. simpl in Hd.
    destruct ok2; simpl in H; [|by simplify_eq].
    apply IH in H; congruence.
  - destruct ignore; [by eapply IH|].
    pose proof (proj2 (handle_flag_depth (set_in io s') ctx)) as Hd.
    destruct (handle_undef _ ctx) as [[ok2 io2] ctx2]. simpl in Hd.
    destruct ok2; simpl in H; [|by simplify_eq].
    apply IH in H; congruence.
Qed.

(** [Depth] is restored by every call that returns: [handle_if] adds one
    before its loop and takes one off behind it on every path, also when a
    flag directive without a tag has ended the loop, and nothing else
    writes the counter.  A whole run therefore ends with [Depth] at zero,
    with or without success. *)
Theorem depth_is_restored (fuel : nat) (io : IO) (ctx : Context)
    (ignore ok : bool) (io' : IO) (ctx' : Context) :
  wf_ctx ctx →
  (consume fuel io ctx ignore = Some (ok, io', ctx') → Depth ctx' = Depth ctx) ∧
  (handle_if fuel io ctx ignore = Some (ok, io', ctx') → Depth ctx' = Depth ctx).
Proof.
  intros Hwf. split; intros H.
  - by eapply consume_depth.
  - by eapply (proj1 (proj2 (stream_depth fuel))).
Qed.

Lemma depth_is_restored_run :
  handle_if 40 (mk_io (txt ("x" +:+ nl +:+ "#if x" +:+ nl +:+ "#define " +:+ nl
                            +:+ "#endif" +:+ nl +:+ "T")) [] [])
    (mk_ctx {[ "x" ]} 18446744073709551615) false
  = Some (true, mk_io (txt "T") [] ["Define statement without tag"],
          mk_ctx {[ "x" ]} 18446744073709551615).
Proof. vm_compute. reflexivity. Qed.

Lemma depth_is_restored_witness :
  wf_ctx (mk_ctx {[ "x" ]} 18446744073709551615) ∧
  Depth (mk_ctx {[ "x" ]} 18446744073709551615) = 18446744073709551615%N.
Proof.
  split; [reflexivity|].
  refine (proj2 (depth_is_restored 40 _ (mk_ctx {[ "x" ]} 18446744073709551615)
                   _ _ _ _ _) depth_is_restored_run).
  reflexivity.
Defined.

(** ** What the lexer hands over *)

Lemma string_forall_snoc (P : ascii → Prop) s c :
  string_forall P s → P c → string_forall P (s +:+ String c "").
Proof.
  induction s as [|a s IH]; simpl; [done|].
  intros [Ha Hs] Hc. split; [done|by apply IH].
Qed.

Lemma checkAddTag_ok tag toks :
  Forall token_ok toks → string_forall (λ c, tag_char c = true) tag →
  Forall token_ok (checkAddTag tag toks).
Proof.
  intros Htoks Htag. unfold checkAddTag. case_decide; [done|].
  apply Forall_app. split; [done|]. by repeat constructor.
Qed.

Lemma op_token_ok tag toks ty :
  ty ≠ TokenType.Tag → ty ≠ TokenType.EOS →
  Forall token_ok toks → string_forall (λ c, tag_char c = true) tag →
  Forall token_ok (checkAddTag tag toks ++ [op_token ty]).
Proof.
  intros Hty Hty' Htoks Htag. apply Forall_app.
  split; [by apply checkAddTag_ok|].
  constructor; [|constructor]. unfold token_ok. simpl. by destruct ty.
Qed.

Lemma lex_loop_tokens (n : nat) : ∀ s tag toks err,
  length s ≤ n → Forall token_ok toks →
  string_forall (λ c, tag_char c = true) tag →
  Forall token_ok (lex_loop tag toks err s).1.1.
Proof.
  induction n as [n IH] using lt_wf_ind.
  intros [|c s] tag toks err Hlen Htoks Htag.
  { by apply checkAddTag_ok. }
  simpl in Hlen.
  assert (∀ tag toks err, Forall token_ok toks →
            string_forall (λ c, tag_char c = true) tag →
            Forall token_ok (lex_loop tag toks err s).1.1) as IHs.
  { intros. apply (IH (length s)); [lia|lia|done|done]. }
  cbn [lex_loop].
  destruct (Ascii.eqb c NL) eqn:E0. { by apply checkAddTag_ok. }
  destruct (isspace c) eqn:E1. { apply IHs; [by apply checkAddTag_ok|done]. }
  destruct (Ascii.eqb c "!") eqn:E2. { apply IHs; [by apply op_token_ok|done]. }
  destruct (Ascii.eqb c "^") eqn:E3. { apply IHs; [by apply op_token_ok|done]. }
  destruct (Ascii.eqb c "(") eqn:E4. { apply IHs; [by apply op_token_ok|done]. }
  destruct (Ascii.eqb c ")") eqn:E5. { apply IHs; [by apply op_token_ok|done]. }
  destruct (Ascii.eqb c "&") eqn:E6.
  { destruct s as [|c2 s2]; [apply IHs; [by apply op_token_ok|done]|].
    destruct (Ascii.eqb c2 "&"); [|apply IHs; [by apply op_token_ok|done]].
    apply (IH (length s2)); [simpl in *; lia|simpl in *; lia| |done].
    by apply op_token_ok. }
  destruct (Ascii.eqb c "|") eqn:E7.
  { destruct s as [|c2 s2]; [apply IHs; [by apply op_token_ok|done]|].
    destruct (Ascii.eqb c2 "|"); [|apply IHs; [by apply op_token_ok|done]].
    apply (IH (length s2)); [simpl in *; lia|simpl in *; lia| |done].
    by apply op_token_ok. }
  apply IHs; [done|]. apply string_forall_snoc; [done|].
  unfold tag_char. by rewrite E1, E2, E3, E4, E5, E6, E7.
Qed.

(** The token vector of a condition line holds tags and operators only:
    every tag token has a name, which is not empty and holds no blank and
    no operator byte, every operator token has the empty name, and there
    is no end-of-sequence token in the vector (the lexer answers [EOS]
    only past its end).  The lexer starts at the first token. *)
Theorem lexer_tokens_ok (err : list string) (s : list ascii) :
  Forall token_ok (mTokens (ExprLexer_new err s).1.1) ∧
  mPosition (ExprLexer_new err s).1.1 = 0.
Proof.
  unfold ExprLexer_new.
  pose proof (lex_loop_tokens (length s) s "" [] err) as H.
  destruct (lex_loop "" [] err s) as [[toks err'] s'].
  split; [|done]. apply H; [done|constructor|done].
Qed.

(** ** The evaluator moves forwards *)

Lemma consumed_accept_type lx0 err0 lx err ty :
  mTokens lx = mTokens lx0 → mPosition lx0 ≤ mPosition lx →
  (∃ e, err = err0 ++ e) →
  ∀ a, consumed lx0 err0 (a, (accept_type lx err ty).1.2, (accept_type lx err ty).2).
Proof.
  intros Ht Hp [e ->] a. unfold consumed, accept_type. simpl.
  split_and!; [done|lia|].
  case_bool_decide; [by exists e|]. eexists. by rewrite <- app_assoc.
Qed.

Lemma condition_progress (f : nat) (ctx : Context) :
  ∀ lx err r,
    (binary_condition f lx err ctx = Some r → consumed lx err r) ∧
    (unary_condition f lx err ctx = Some r → consumed lx err r) ∧
    (primary_condition f lx err ctx = Some r → consumed lx err r).
Proof.
  induction f as [|f IH]; intros lx err r; [done|].
  assert (∀ lx1 err1 r1 lx2 err2,
            mTokens lx1 = mTokens lx → mPosition lx ≤ mPosition lx1 →
            (∃ e, err1 = err ++ e) →
            consumed lx1 err1 r1 → r1.1.2 = lx2 → r1.2 = err2 →
            ∀ a, consumed lx err (a, lx2, err2)) as Hchain.
  { intros lx1 err1 r1 lx2 err2 Ht Hp [e ->] (Ht' & Hp' & [e' He']) <- <- a.
    unfold consumed. simpl. split_and!; [congruence|lia|].
    exists (e ++ e'). by rewrite He', app_assoc. }
  split_and!.
  - rewrite binary_condition_S. intros H.
    destruct (unary_condition f lx err ctx) as [[[a lx1] err1]|] eqn:Hu; [|done].
    apply IH in Hu. destruct Hu as (Ht & Hp & He). simpl in Ht, Hp, He.
    cbn [mbind option_bind] in H. cbv zeta in H.
    assert (∀ b, consumed lx err (b, accept lx1, err1)) as Hacc.
    { intros b. unfold consumed. simpl. split_and!; [done|lia|done]. }
    assert (∀ r2, binary_condition f (accept lx1) err1 ctx = Some r2 →
                  ∀ b, consumed lx err (b, r2.1.2, r2.2)) as Hrec.
    { intros r2 H2 b. apply IH in H2.
      eapply (Hchain (accept lx1) err1 r2); simpl; [done|lia|done|done|done|done]. }
    destruct (_ || _); [simplify_eq; apply Hacc|].
    repeat case_bool_decide;
      try (destruct (binary_condition f (accept lx1) err1 ctx)
             as [[[b lx2] err2]|] eqn:Hb; [|by simplify_eq/=];
           simplify_eq/=; exact (Hrec (b, lx2, err2) eq_refl _)).
    simplify_eq. unfold consumed. simpl. done.
  - rewrite unary_condition_S. intros H. case_bool_decide.
    + destruct (unary_condition f (accept lx) err ctx)
        as [[[a lx1] err1]|] eqn:Hu; [|done].
      simplify_eq/=. apply IH in Hu.
      eapply (Hchain (accept lx) err _); simpl;
        [done|lia|by exists []; rewrite app_nil_r|done|done|done].
    + by apply IH in H.
  - rewrite primary_condition_S. intros H. case_bool_decide.
    + destruct (binary_condition f (accept lx) err ctx)
        as [[[a lx1] err1]|] eqn:Hb; [|done].
      apply IH in Hb. destruct Hb as (Ht & Hp & He). simpl in Ht, Hp, He.
      cbn [mbind option_bind] in H.
      pose proof (consumed_accept_type lx err lx1 err1 TokenType.ParantheseClose)
        as Hcons.
      destruct (accept_type lx1 err1 _) as [[good lx2] err2]. simpl in Hcons.
      destruct good; simplify_eq/=; apply Hcons; try done; lia.
    + pose proof (consumed_accept_type lx err lx err TokenType.Tag) as Hcons.
      destruct (accept_type lx err _) as [[good lx2] err2]. simpl in Hcons.
      assert (∃ e, err = err ++ e) as He by (exists []; by rewrite app_nil_r).
      destruct good; simplify_eq/=; apply Hcons; try done.
Qed.

(** The evaluator always comes to an end on the tokens it is given, and
    always further on than it started: the token vector is the one it was
    called on, the position has grown by at least one, and the diagnostics
    were only appended to.  A call depth of [cond_fuel] suffices, and more
    depth does not change the result. *)
Theorem evaluator_consumes_tokens (lx : ExprLexer) (err : list string)
    (ctx : Context) :
  ∃ r, consumed lx err r ∧
       ∀ fuel, cond_fuel lx ≤ fuel → binary_condition fuel lx err ctx = Some r.
Proof.
  destruct (binary_condition_total ctx lx err) as (a & lx' & err' & H).
  exists (a, lx', err'). split.
  - by apply (condition_progress _ ctx lx err) in H.
  - intros fuel Hfuel. by rewrite binary_condition_enough.
Qed.

(** ** Guards without parentheses *)

Lemma tag_char_tests c :
  tag_char c = true →
  Ascii.eqb c NL = false ∧ isspace c = false ∧ Ascii.eqb c "!" = false ∧
  Ascii.eqb c "^" = false ∧ Ascii.eqb c "(" = false ∧ Ascii.eqb c ")" = false ∧
  Ascii.eqb c "&" = false ∧ Ascii.eqb c "|" = false.
Proof.
  unfold tag_char. intros H.
  repeat (apply andb_prop in H as [H ?]).
  repeat match goal with
         | H : negb _ = true |- _ => apply negb_true_iff in H
         end.
  split_and!; try done. by apply nonspace_not_NL.
Qed.

Lemma lex_loop_word t : ∀ tag toks err s,
  string_forall (λ c, tag_char c = true) t →
  lex_loop tag toks err (txt t ++ s) = lex_loop (tag +:+ t) toks err s.
Proof.
  induction t as [|c t IH]; intros tag toks err s Ht.
  { by rewrite string_app_empty_r. }
  destruct Ht as [Hc Ht].
  destruct (tag_char_tests c Hc) as (E0 & E1 & E2 & E3 & E4 & E5 & E6 & E7).
  change (txt (String c t) ++ s) with (c :: (txt t ++ s)).
  cbn [lex_loop]. rewrite E0, E1, E2, E3, E4, E5, E6, E7.
  rewrite IH by done. by rewrite string_app_snoc.
Qed.

Lemma lex_loop_nots n : ∀ toks err s,
  lex_loop "" toks err (repeat "!"%char n ++ s)
  = lex_loop "" (toks ++ repeat (op_token TokenType.Not) n) err s.
Proof.
  induction n as [|n IH]; intros toks err s; simpl.
  { by rewrite app_nil_r. }
  change (checkAddTag "" toks) with toks.
  rewrite IH. by rewrite <- app_assoc.
Qed.

Lemma checkAddTag_empty toks : checkAddTag "" toks = toks.
Proof. done. Qed.

Lemma checkAddTag_plain t toks :
  plain_tag t → checkAddTag t toks = toks ++ [{| Type_ := TokenType.Tag; Tag := t |}].
Proof. intros [Hne _]. unfold checkAddTag. by case_decide. Qed.

Lemma lex_loop_binop o t toks err s :
  plain_tag t →
  lex_loop t toks err (" "%char :: txt (binop_text o) ++ " "%char :: s)
  = lex_loop "" (toks ++ [{| Type_ := TokenType.Tag; Tag := t |};
                          op_token (binop_type o)]) err s.
Proof.
  intros Ht. cbn [lex_loop].
  change (Ascii.eqb " " NL) with false. change (isspace " ") with true.
  cbv iota. rewrite (checkAddTag_plain t toks Ht).
  destruct o; simpl; rewrite !checkAddTag_empty; by rewrite <- app_assoc.
Qed.

Lemma lex_loop_guard g : ∀ toks err rest,
  guard_tags_plain g →
  lex_loop "" toks err (render_guard g ++ NL :: rest)
  = (toks ++ guard_tokens g, err, rest).
Proof.
  induction g as [n t|n t o g IH]; intros toks err rest Hg; simpl in Hg |- *.
  - rewrite <- app_assoc, lex_loop_nots, lex_loop_word by apply Hg.
    simpl. rewrite checkAddTag_plain by done. by rewrite <- app_assoc.
  - destruct Hg as [Ht Hg].
    rewrite <- !app_assoc, lex_loop_nots, lex_loop_word by apply Ht.
    simpl app at 1.
    rewrite <- app_comm_cons, <- app_assoc, <- app_comm_cons.
    rewrite (lex_loop_binop o t _ err _ Ht).
    rewrite IH by done. f_equal. f_equal.
    rewrite <- !app_assoc. done.
Qed.

Lemma current_at toks pre tok post pos :
  toks = pre ++ tok :: post → pos = length pre →
  current {| mTokens := toks; mPosition := pos |} = tok.
Proof.
  intros -> ->. unfold current. simpl. by rewrite list_lookup_middle.
Qed.

Lemma current_past toks pos :
  length toks ≤ pos →
  current {| mTokens := toks; mPosition := pos |} = op_token TokenType.EOS.
Proof.
  intros Hle. unfold current. simpl. by rewrite lookup_ge_None_2.
Qed.

Lemma unary_condition_nots n : ∀ toks pre post pos t err ctx,
  toks = pre ++ repeat (op_token TokenType.Not) n
             ++ {| Type_ := TokenType.Tag; Tag := t |} :: post →
  pos = length pre →
  unary_condition (n + 2) {| mTokens := toks; mPosition := pos |} err ctx
  = Some (nots_eval n (has_tag ctx t),
          {| mTokens := toks; mPosition := pos + n + 1 |}, err).
Proof.
  induction n as [|n IH]; intros toks pre post pos t err ctx Htoks Hpos.
  - simpl in Htoks.
    change (0 + 2) with 2. rewrite unary_condition_S, primary_condition_S.
    rewrite (current_at toks pre _ post pos Htoks Hpos).
    unfold accept_type.
    rewrite (current_at toks pre _ post pos Htoks Hpos). simpl.
    unfold accept. simpl. by replace (pos + 0 + 1) with (S pos) by lia.
  - change (S n + 2) with (S (n + 2)). rewrite unary_condition_S.
    simpl in Htoks.
    rewrite (current_at toks pre _ _ pos Htoks Hpos). simpl.
    unfold accept. simpl.
    rewrite (IH toks (pre ++ [op_token TokenType.Not]) post (S pos) t err ctx).
    + simpl. by replace (pos + S n + 1) with (S (pos + n + 1)) by lia.
    + by rewrite <- app_assoc.
    + rewrite length_app. simpl. lia.
Qed.

Lemma guard_tokens_length g : 0 < length (guard_tokens g).
Proof. destruct g; simpl; rewrite length_app; simpl; lia. Qed.

Lemma binary_condition_guard g : ∀ toks pre pos err ctx,
  toks = pre ++ guard_tokens g → pos = length pre →
  ∃ f, binary_condition f {| mTokens := toks; mPosition := pos |} err ctx
       = Some (guard_eval ctx g,
               {| mTokens := toks; mPosition := S (length toks) |}, err).
Proof.
  induction g as [n t|n t o g IH]; intros toks pre pos err ctx Htoks Hpos;
    simpl in Htoks.
  - exists (S (n + 2)). rewrite binary_condition_S.
    rewrite (unary_condition_nots n toks pre [] pos t err ctx Htoks Hpos).
    cbn [mbind option_bind]. cbv zeta.
    assert (length toks = pos + n + 1) as Hlen.
    { rewrite Htoks, !length_app, repeat_length. simpl. lia. }
    rewrite current_past by lia. simpl. unfold accept. simpl.
    by rewrite Hlen.
  - destruct (IH toks
                (pre ++ repeat (op_token TokenType.Not) n
                     ++ [{| Type_ := TokenType.Tag; Tag := t |};
                         op_token (binop_type o)])
                (S (pos + n + 1)) err ctx) as [f Hf].
    { rewrite Htoks. by rewrite <- !app_assoc. }
    { rewrite !length_app, repeat_length. simpl. lia. }
    exists (S (f + (n + 2))). rewrite binary_condition_S.
    rewrite (proj1 (proj2 (condition_fuel_mono ctx _)) _ _ _
               (unary_condition_nots n toks pre _ pos t err ctx Htoks Hpos))
      by lia.
    cbn [mbind option_bind]. cbv zeta.
    rewrite (current_at toks
               (pre ++ repeat (op_token TokenType.Not) n
                    ++ [{| Type_ := TokenType.Tag; Tag := t |}])
               (op_token (binop_type o)) (guard_tokens g) (pos + n + 1)).
    2:{ rewrite Htoks. by rewrite <- !app_assoc. }
    2:{ rewrite !length_app, repeat_length. simpl. lia. }
    unfold accept. simpl.
    pose proof (proj1 (condition_fuel_mono ctx _) _ _ _ Hf (f + (n + 2))) as Hf'.
    destruct o; simpl; rewrite Hf' by lia; done.
Qed.

(** A guard line made of tags, negations and operators, without
    parentheses, evaluates to the value read from left to right with every
    operator joining its left term to all that follows; the line is read
    with its newline and nothing is written to the diagnostics. *)
Theorem guard_chain_value (g : guard) (rest out : list ascii)
    (err : list string) (ctx : Context) :
  guard_tags_plain g →
  handle_condition (mk_io (render_guard g ++ NL :: rest) out err) ctx
  = (guard_eval ctx g, mk_io rest out err).
Proof.
  intros Hg. unfold handle_condition, ExprLexer_new, mk_io. simpl.
  rewrite (lex_loop_guard g [] err rest Hg). simpl.
  set (lx := {| mTokens := guard_tokens g; mPosition := 0 |}).
  destruct (binary_condition_guard g (guard_tokens g) [] 0 err ctx eq_refl eq_refl)
    as [f Hf].
  destruct (binary_condition_total ctx lx err) as (a & lx' & err' & Hb).
  pose proof (proj1 (condition_fuel_mono ctx _) _ _ _ Hf (f + cond_fuel lx)) as H1.
  pose proof (proj1 (condition_fuel_mono ctx _) _ _ _ Hb (f + cond_fuel lx)) as H2.
  specialize (H1 ltac:(lia)). specialize (H2 ltac:(lia)).
  unfold lx in *. clear lx. rewrite H1 in H2.
  injection H2 as <- <- <-. rewrite Hb.
  case_bool_decide as Heos; [|done].
  exfalso. pose proof (guard_tokens_length g) as Hlen.
  unfold current in Heos. simpl in Heos.
  destruct g as [[|n] t|[|n] t o g]; simpl in Heos; discriminate Heos.
Qed.

Lemma guard_chain_value_witness :
  guard_tags_plain (GMore 1 "a" BAnd (GMore 0 "b" BOr (GLast 2 "c"))) ∧
  handle_condition (mk_io (txt ("!a && b || !!c" +:+ nl +:+ "T")) (txt "out") [])
                   (mk_ctx {[ "c" ]} 0)
  = (guard_eval (mk_ctx {[ "c" ]} 0)
       (GMore 1 "a" BAnd (GMore 0 "b" BOr (GLast 2 "c"))),
     mk_io (txt "T") (txt "out") []).
Proof.
  assert (guard_tags_plain (GMore 1 "a" BAnd (GMore 0 "b" BOr (GLast 2 "c"))))
    as Hg by (repeat split; done).
  split; [exact Hg|].
  exact (guard_chain_value _ (txt "T") (txt "out") [] (mk_ctx {[ "c" ]} 0) Hg).
Defined.

(** ** Parentheses *)

Lemma lex_loop_closers n : ∀ toks err rest,
  lex_loop "" toks err (repeat ")"%char n ++ NL :: rest)
  = (toks ++ repeat (op_token TokenType.ParantheseClose) n, err, rest).
Proof.
  induction n as [|n IH]; intros toks err rest; simpl.
  { by rewrite app_nil_r. }
  rewrite IH. by rewrite <- app_assoc.
Qed.

Lemma lex_loop_parenthesised t closers err rest :
  plain_tag t →
  lex_loop "" [] err ("("%char :: txt t ++ repeat ")"%char (S closers) ++ NL :: rest)
  = (op_token TokenType.ParantheseOpen :: {| Type_ := TokenType.Tag; Tag := t |}
       :: repeat (op_token TokenType.ParantheseClose) (S closers), err, rest).
Proof.
  intros Ht. cbn [lex_loop].
  change (Ascii.eqb "(" NL) with false. change (isspace "(") with false.
  change (Ascii.eqb "(" "!") with false. change (Ascii.eqb "(" "^") with false.
  change (Ascii.eqb "(" "(") with true. cbv iota.
  rewrite checkAddTag_empty, lex_loop_word by apply Ht.
  change ("" +:+ t) with t.
  change (repeat ")"%char (S closers) ++ NL :: rest)
    with (")"%char :: (repeat ")"%char closers ++ NL :: rest)).
  cbn [lex_loop].
  change (Ascii.eqb ")" NL) with false. change (isspace ")") with false.
  change (Ascii.eqb ")" "!") with false. change (Ascii.eqb ")" "^") with false.
  change (Ascii.eqb ")" "(") with false. change (Ascii.eqb ")" ")") with true.
  cbv iota. rewrite checkAddTag_plain by done.
  by rewrite lex_loop_closers.
Qed.

(** A tag in parentheses is never true as written: [binary_condition]
    takes the closing parenthesis as the end of its expression and
    consumes it, and [primary_condition] then asks for it again.  With one
    closing parenthesis the guard is false and the miss is reported; with
    the parenthesis written twice the guard has the value of the tag and
    nothing is reported. *)
Theorem parenthesised_tag_needs_two_closers (t : string) (rest out : list ascii)
    (err : list string) (ctx : Context) :
  plain_tag t →
  handle_condition (mk_io ("("%char :: txt t ++ ")"%char :: NL :: rest) out err) ctx
  = (false, mk_io rest out (err ++ ["Expected ')' but got 'EOS'"])) ∧
  handle_condition
    (mk_io ("("%char :: txt t ++ ")"%char :: ")"%char :: NL :: rest) out err) ctx
  = (has_tag ctx t, mk_io rest out err).
Proof.
  intros Ht. split.
  - unfold handle_condition, ExprLexer_new, mk_io. cbn [io_in io_out io_err].
    rewrite (lex_loop_parenthesised t 0 err rest Ht
             : lex_loop "" [] err ("("%char :: txt t ++ ")"%char :: NL :: rest) = _).
    lazy -[has_tag app]. reflexivity.
  - unfold handle_condition, ExprLexer_new, mk_io. cbn [io_in io_out io_err].
    rewrite (lex_loop_parenthesised t 1 err rest Ht
             : lex_loop "" [] err
                 ("("%char :: txt t ++ ")"%char :: ")"%char :: NL :: rest) = _).
    lazy -[has_tag app]. reflexivity.
Qed.

Lemma parenthesised_tag_needs_two_closers_witness :
  plain_tag "a" ∧
  handle_condition (mk_io (txt ("(a)" +:+ nl +:+ "T")) [] []) (mk_ctx {[ "a" ]} 0)
  = (false, mk_io (txt "T") [] ["Expected ')' but got 'EOS'"]).
Proof.
  assert (plain_tag "a") as Ht by (split; done).
  split; [exact Ht|].
  exact (proj1 (parenthesised_tag_needs_two_closers
                  "a" (txt "T") [] [] (mk_ctx {[ "a" ]} 0) Ht)).
Defined.

(** ** The tag of [define] and [undef] *)

Lemma string_app_nonempty s c : s +:+ String c "" ≠ "".
Proof. by destruct s. Qed.

Lemma get_tag_loop_nonempty s : ∀ buffer started,
  buffer ≠ "" → (get_tag_loop buffer started s).1 ≠ "".
Proof.
  induction s as [|c s IH]; intros buffer started Hb; simpl; [done|].
  repeat case_match; simpl; try done; apply IH; try done.
  apply string_app_nonempty.
Qed.

Lemma get_tag_loop_blank s :
  (get_tag_loop "" false s).1 = "" ↔ line_blank s = true.
Proof.
  induction s as [|c s IH]; simpl; [done|].
  destruct (Ascii.eqb c NL); [done|].
  destruct (isspace c); simpl; [done|].
  split; [|done]. intros H.
  by apply (get_tag_loop_nonempty s (String c "") true) in H.
Qed.

Lemma get_tag_loop_nonspace s : ∀ buffer started,
  string_forall (λ c, isspace c = false) buffer →
  string_forall (λ c, isspace c = false) (get_tag_loop buffer started s).1.
Proof.
  induction s as [|c s IH]; intros buffer started Hb; simpl; [done|].
  destruct (Ascii.eqb c NL); [done|].
  destruct (isspace c) eqn:Hc; simpl.
  - destruct started; [done|by apply IH].
  - apply IH. by apply string_forall_snoc.
Qed.

(** [define] and [undef] miss their tag exactly when the rest of the line
    is blank: nothing but spaces up to the newline or the end of the
    input.  A tag that is found holds no space. *)
Theorem flag_fails_iff_line_blank (io : IO) (ctx : Context) :
  (handle_define io ctx).1.1 = negb (line_blank (io_in io)) ∧
  (handle_undef io ctx).1.1 = negb (line_blank (io_in io)) ∧
  string_forall (λ c, isspace c = false) (get_tag (io_in io)).1.
Proof.
  pose proof (get_tag_loop_blank (io_in io)) as Hb.
  pose proof (get_tag_loop_nonspace (io_in io) "" false I) as Hn.
  unfold handle_define, handle_undef, get_tag in *.
  destruct (get_tag_loop "" false (io_in io)) as [tag s']. simpl in *.
  destruct (line_blank (io_in io)).
  - rewrite (proj2 Hb eq_refl). by repeat case_decide.
  - assert (tag ≠ "") as Hne by (intros H; by apply Hb in H).
    by repeat case_decide.
Qed.

Lemma get_tag_loop_blanks ws s :
  Forall (λ c, isspace c = true ∧ c ≠ NL) ws →
  get_tag_loop "" false (ws ++ s) = get_tag_loop "" false s.
Proof.
  induction 1 as [|c ws [Hsp Hnl] _ IH]; [done|].
  simpl. apply Ascii.eqb_neq in Hnl. by rewrite Hnl, Hsp.
Qed.

Lemma get_tag_loop_chars w : ∀ buffer started s,
  string_forall (λ c, isspace c = false) w →
  get_tag_loop buffer started (txt w ++ s)
  = get_tag_loop (buffer +:+ w) (if decide (w = "") then started else true) s.
Proof.
  induction w as [|c w IH]; intros buffer started s Hw.
  { by rewrite string_app_empty_r. }
  destruct Hw as [Hc Hw]. simpl.
  rewrite (nonspace_not_NL c Hc), Hc. simpl.
  rewrite IH, string_app_snoc by done. by case_decide.
Qed.

Lemma get_tag_one_word ws w c rest :
  Forall (λ c, isspace c = true ∧ c ≠ NL) ws →
  w ≠ "" → string_forall (λ c, isspace c = false) w →
  isspace c = true →
  get_tag (ws ++ txt w ++ c :: rest) = (w, rest).
Proof.
  intros Hws Hne Hw Hc. unfold get_tag.
  rewrite get_tag_loop_blanks, get_tag_loop_chars by done.
  rewrite decide_False by done. simpl. rewrite Hc. simpl.
  by destruct (Ascii.eqb c NL).
Qed.

(** [define] and [undef] read one word: the blanks before it, the word
    and the one space or newline behind it.  The word is inserted into,
    or erased from, the tag set; what follows it on the line stays on the
    stream. *)
Theorem flag_reads_one_word (ws : list ascii) (w : string) (c : ascii)
    (rest out : list ascii) (err : list string) (ctx : Context) :
  Forall (λ c, isspace c = true ∧ c ≠ NL) ws →
  w ≠ "" → string_forall (λ c, isspace c = false) w →
  isspace c = true →
  handle_define (mk_io (ws ++ txt w ++ c :: rest) out err) ctx
  = (true, mk_io rest out err, mk_ctx ({[ w ]} ∪ Tags ctx) (Depth ctx)) ∧
  handle_undef (mk_io (ws ++ txt w ++ c :: rest) out err) ctx
  = (true, mk_io rest out err, mk_ctx (Tags ctx ∖ {[ w ]}) (Depth ctx)).
Proof.
  intros Hws Hne Hw Hc. unfold handle_define, handle_undef, mk_io. simpl.
  rewrite (get_tag_one_word ws w c rest Hws Hne Hw Hc).
  by split; case_decide.
Qed.

Lemma flag_reads_one_word_witness :
  handle_define (mk_io (txt "  x y z") [] []) (mk_ctx ∅ 0)
  = (true, mk_io (txt "y z") [] [], mk_ctx ({[ "x" ]} ∪ ∅) 0).
Proof.
  refine (proj1 (flag_reads_one_word (txt "  ") "x" " " (txt "y z") [] []
                   (mk_ctx ∅ 0) _ _ _ _)).
  - repeat constructor; done.
  - done.
  - done.
  - done.
Defined.

(** ** The scanner on a short word *)

Lemma extract_loop_chars w : ∀ buffer started s,
  Forall (λ c, isspace c = false) w →
  length buffer + length w ≤ MAX_BUF_SIZE →
  extract_loop buffer started (w ++ s)
  = extract_loop (buffer ++ w) (if decide (w = []) then started else true) s.
Proof.
  induction w as [|c w IH]; intros buffer started s Hw Hlen.
  { by rewrite app_nil_r. }
  apply Forall_cons in Hw as [Hc Hw]. simpl in Hlen.
  change ((c :: w) ++ s) with (c :: (w ++ s)).
  cbn [extract_loop].
  destruct (Nat.ltb_spec (length buffer) MAX_BUF_SIZE) as [Hlt|Hge]; [|lia].
  rewrite (nonspace_not_NL c Hc), Hc. simpl.
  rewrite IH; [|done|rewrite length_app; simpl; lia].
  rewrite <- app_assoc. simpl. by case_decide.
Qed.

Lemma extract_operation_word ws w c rest :
  Forall (λ c, isspace c = true ∧ c ≠ NL) ws →
  Forall (λ c, isspace c = false) w →
  length w < MAX_BUF_SIZE → w ≠ [] → isspace c = true →
  extract_operation (ws ++ w ++ c :: rest) = (classify (c_str w), c_str w, rest).
Proof.
  intros Hws Hw Hlen Hne Hc. unfold extract_operation.
  rewrite extract_loop_blanks, extract_loop_chars by (done || simpl; lia).
  rewrite decide_False by done. simpl app.
  destruct w as [|c0 w]; [done|]. cbn [extract_loop].
  destruct (Nat.ltb_spec (length (c0 :: w)) MAX_BUF_SIZE) as [Hlt|Hge]; [|lia].
  rewrite Hc. simpl. by destruct (Ascii.eqb c NL).
Qed.

(** The scanner skips the blanks before the word and consumes the one
    space or newline behind a word of fewer than 16 bytes; that byte is
    not part of the name and is not put back.  A newline before any word
    ends the scan with the empty name. *)
Theorem extract_operation_short_word (ws w : list ascii) (c : ascii)
    (rest : list ascii) :
  Forall (λ c, isspace c = true ∧ c ≠ NL) ws →
  Forall (λ c, isspace c = false) w →
  length w < MAX_BUF_SIZE →
  (w ≠ [] → isspace c = true →
   extract_operation (ws ++ w ++ c :: rest) = (classify (c_str w), c_str w, rest)) ∧
  extract_operation (ws ++ NL :: rest) = (Operation.Unknown, [], rest).
Proof.
  intros Hws Hw Hlen. split.
  - intros Hne Hc. by apply extract_operation_word.
  - unfold extract_operation. by rewrite extract_loop_blanks.
Qed.

Lemma extract_operation_short_word_witness :
  extract_operation (txt (" endif" +:+ nl +:+ "T"))
  = (classify (c_str (txt "endif")), c_str (txt "endif"), txt "T").
Proof.
  refine (proj1 (extract_operation_short_word
                   (txt " ") (txt "endif") NL (txt "T") _ _ _) _ _).
  - repeat constructor; done.
  - repeat constructor.
  - simpl. unfold MAX_BUF_SIZE. lia.
  - done.
  - done.
Defined.

(** ** Directives that are echoed *)

Lemma consume_plain_prefix (a : list ascii) : ∀ f s out err ctx,
  PP_START ∉ a →
  consume (length a + f) (mk_io (a ++ s) out err) ctx false
  = consume f (mk_io s (out ++ a) err) ctx false.
Proof.
  induction a as [|c a IH]; intros f s out err ctx Hno.
  { simpl. by rewrite app_nil_r. }
  apply not_elem_of_cons in Hno as [Hc Hno].
  change (length (c :: a) + f) with (S (length a + f)).
  rewrite (consume_char _ _ _ _ c (a ++ s)); [|done|done].
  etrans; [exact (IH f s (out ++ [c]) err ctx Hno)|].
  by rewrite <- app_assoc.
Qed.


Lemma no_marker_forallb (L : list ascii) :
  forallb (λ c, negb (Ascii.eqb c PP_START)) L = true → PP_START ∉ L.
Proof.
  induction L as [|c L IH]; simpl; intros H.
  - apply not_elem_of_nil.
  - apply andb_prop in H as [Hc HL]. apply not_elem_of_cons.
    split; [|by apply IH]. intros <-. discriminate Hc.
Qed.


(** ** Guards that are not well formed *)

Lemma handle_condition_tokens io ctx toks err' s' f a lx' e :
  lex_loop "" [] (io_err io) (io_in io) = (toks, err', s') →
  Type_ (current {| mTokens := toks; mPosition := 0 |}) ≠ TokenType.EOS →
  binary_condition f {| mTokens := toks; mPosition := 0 |} err' ctx
  = Some (a, lx', e) →
  handle_condition io ctx = (a, {| io_in := s'; io_out := io_out io; io_err := e |}).
Proof.
  intros Hlex Hne Hf. unfold handle_condition, ExprLexer_new. rewrite Hlex.
  rewrite bool_decide_false by done.
  set (lx := {| mTokens := toks; mPosition := 0 |}) in *.
  destruct (binary_condition_total ctx lx err') as (a2 & lx2 & e2 & Hb).
  pose proof (proj1 (condition_fuel_mono ctx _) _ _ _ Hf (f + cond_fuel lx)
                ltac:(lia)) as H1.
  pose proof (proj1 (condition_fuel_mono ctx _) _ _ _ Hb (f + cond_fuel lx)
                ltac:(lia)) as H2.
  rewrite H1 in H2. injection H2 as <- <- <-. by rewrite Hb.
Qed.

Lemma unary_condition_nots_eos n : ∀ toks pre pos err ctx,
  toks = pre ++ repeat (op_token TokenType.Not) n →
  pos = length pre →
  unary_condition (n + 2) {| mTokens := toks; mPosition := pos |} err ctx
  = Some (nots_eval n false,
          {| mTokens := toks; mPosition := pos + n + 1 |},
          err ++ ["Expected 'Tag' but got 'EOS'"]).
Proof.
  induction n as [|n IH]; intros toks pre pos err ctx Htoks Hpos.
  - simpl in Htoks. rewrite app_nil_r in Htoks.
    change (0 + 2) with 2. rewrite unary_condition_S, primary_condition_S.
    unfold accept_type.
    rewrite current_past by (subst; lia). simpl.
    unfold accept. simpl. by replace (pos + 0 + 1) with (S pos) by lia.
  - change (S n + 2) with (S (n + 2)). rewrite unary_condition_S.
    simpl in Htoks.
    rewrite (current_at toks pre _ _ pos Htoks Hpos). simpl.
    unfold accept. simpl.
    rewrite (IH toks (pre ++ [op_token TokenType.Not]) (S pos) err ctx).
    + simpl. by replace (pos + S n + 1) with (S (pos + n + 1)) by lia.
    + by rewrite <- app_assoc.
    + rewrite length_app. simpl. lia.
Qed.

(** Two faults that the evaluator answers with a value.  Negations with
    nothing behind them: the missing tag is reported and counts as false,
    and the negations are applied to that, so an odd number of them makes
    the guard true.  Two tags side by side: the guard is false whatever the
    tags are, and nothing is reported. *)
Theorem malformed_guard_values (t u : string) (n : nat) (rest out : list ascii)
    (err : list string) (ctx : Context) :
  handle_condition (mk_io (repeat "!"%char (S n) ++ NL :: rest) out err) ctx
  = (nots_eval (S n) false,
     mk_io rest out (err ++ ["Expected 'Tag' but got 'EOS'"])) ∧
  (plain_tag t → plain_tag u →
   handle_condition (mk_io (txt t ++ " "%char :: txt u ++ NL :: rest) out err) ctx
   = (false, mk_io rest out err)).
Proof.
  unfold mk_io. split.
  - apply (handle_condition_tokens
             {| io_in := repeat "!"%char (S n) ++ NL :: rest;
                io_out := out; io_err := err |} ctx
             (repeat (op_token TokenType.Not) (S n)) err rest (S (S n + 2))
             _ {| mTokens := repeat (op_token TokenType.Not) (S n);
                  mPosition := S (0 + S n + 1) |}).
    + cbn [io_in io_err].
      rewrite lex_loop_nots. simpl. by rewrite checkAddTag_empty.
    + done.
    + rewrite binary_condition_S.
      rewrite (unary_condition_nots_eos (S n)
                 (repeat (op_token TokenType.Not) (S n)) [] 0 err ctx
                 eq_refl eq_refl).
      cbn [mbind option_bind]. cbv zeta.
      rewrite current_past by (simpl; rewrite repeat_length; lia).
      done.
  - intros Ht Hu.
    apply (handle_condition_tokens
             {| io_in := txt t ++ " "%char :: txt u ++ NL :: rest;
                io_out := out; io_err := err |} ctx
             [{| Type_ := TokenType.Tag; Tag := t |};
              {| Type_ := TokenType.Tag; Tag := u |}] err rest 3
             _ {| mTokens := [{| Type_ := TokenType.Tag; Tag := t |};
                              {| Type_ := TokenType.Tag; Tag := u |}];
                  mPosition := 1 |}).
    + cbn [io_in io_err].
      rewrite lex_loop_word by apply Ht. change ("" +:+ t) with t.
      cbn [lex_loop].
      change (Ascii.eqb " " NL) with false. change (isspace " ") with true.
      cbv iota. rewrite checkAddTag_plain by done.
      rewrite lex_loop_word by apply Hu. change ("" +:+ u) with u.
      simpl. by rewrite checkAddTag_plain.
    + done.
    + lazy -[has_tag app]. reflexivity.
Qed.

Lemma malformed_guard_values_witness :
  plain_tag "a" ∧ plain_tag "b" ∧
  handle_condition (mk_io (txt ("a b" +:+ nl +:+ "T")) [] []) (mk_ctx {[ "a"; "b" ]} 0)
  = (false, mk_io (txt "T") [] []).
Proof.
  assert (plain_tag "a") as Ha by (split; done).
  assert (plain_tag "b") as Hb by (split; done).
  split; [exact Ha|]. split; [exact Hb|].
  exact (proj2 (malformed_guard_values "a" "b" 0 (txt "T") [] []
                  (mk_ctx {[ "a"; "b" ]} 0)) Ha Hb).
Defined.

(** ** The command line *)





Lemma parse_arguments_loop_reports args : ∀ options help,
  let r := parse_arguments_loop args options help in
  (p_ok r = true → p_cerr r = []) ∧
  (p_ok r = false → p_help r = help ∧ p_cout r = [] ∧ ∃ m, p_cerr r = [m]) ∧
  (p_cout r = [] ∧ p_help r = help ∨
   p_cout r = [usage_text] ∧ p_help r = true ∧ p_ok r = true).
Proof.
  induction args as [args IH] using (induction_ltof1 _ (@length string)).
  unfold ltof in IH. intros options help.
  destruct args as [|arg rest].
  { simpl. split_and!; [done|done|by left]. }
  cbn [parse_arguments_loop].
  assert (∀ m, let r := {| p_ok := false; p_options := options; p_help := help;
                          p_cout := []; p_cerr := [m] |} in
               (p_ok r = true → p_cerr r = []) ∧
               (p_ok r = false → p_help r = help ∧ p_cout r = [] ∧
                                 ∃ m, p_cerr r = [m]) ∧
               (p_cout r = [] ∧ p_help r = help ∨
                p_cout r = [usage_text] ∧ p_help r = true ∧ p_ok r = true))
    as Hfail.
  { intros m. simpl. split_and!; [done| |by left]. intros _. by eauto. }
  destruct (starts_dash arg).
  - destruct (_ || _). { simpl. split_and!; [done|done|by right]. }
    destruct (_ || _); [|apply Hfail].
    destruct rest as [|tag rest']; [apply Hfail|].
    apply IH. simpl. lia.
  - case_bool_decide; [apply IH; simpl; lia|].
    case_bool_decide; [apply IH; simpl; lia|apply Hfail].
Qed.

(** [parse_arguments] says what it does: it fails with exactly one line on
    the error console and nothing else done to the flags, it succeeds
    without one, and the usage text is printed exactly when it sets
    [help], in which case it succeeds. *)
Theorem parse_arguments_reports (argv : list string) (options : Options.t)
    (help : bool) :
  let r := parse_arguments argv options help in
  (p_ok r = true → p_cerr r = []) ∧
  (p_ok r = false → p_help r = help ∧ p_cout r = [] ∧ ∃ m, p_cerr r = [m]) ∧
  (p_cout r = [] ∧ p_help r = help ∨
   p_cout r = [usage_text] ∧ p_help r = true ∧ p_ok r = true).
Proof. apply parse_arguments_loop_reports. Qed.

Lemma parse_arguments_loop_grow args : ∀ options help,
  let opts := p_options (parse_arguments_loop args options help) in
  Options.Tags options ⊆ Options.Tags opts ∧
  (∀ t, t ∈ Options.Tags opts → t ∈ Options.Tags options ∨ t ∈ args) ∧
  (Options.Input options ≠ "" → Options.Input opts = Options.Input options) ∧
  (Options.Output options ≠ "" → Options.Output opts = Options.Output options) ∧
  (Options.Input opts = Options.Input options ∨ Options.Input opts ∈ args) ∧
  (Options.Output opts = Options.Output options ∨ Options.Output opts ∈ args).
Proof.
  induction args as [args IH] using (induction_ltof1 _ (@length string)).
  unfold ltof in IH. intros options help.
  destruct args as [|arg rest].
  { simpl. split_and!; try done; by left. }
  assert (let opts := options in
          Options.Tags options ⊆ Options.Tags opts ∧
          (∀ t, t ∈ Options.Tags opts →
                t ∈ Options.Tags options ∨ t ∈ arg :: rest) ∧
          (Options.Input options ≠ "" → Options.Input opts = Options.Input options) ∧
          (Options.Output options ≠ "" → Options.Output opts = Options.Output options) ∧
          (Options.Input opts = Options.Input options ∨
           Options.Input opts ∈ arg :: rest) ∧
          (Options.Output opts = Options.Output options ∨
           Options.Output opts ∈ arg :: rest)) as Hsame.
  { simpl. split_and!; try done; by left. }
  cbn [parse_arguments_loop].
  destruct (starts_dash arg).
  - destruct (_ || _); [apply Hsame|]. destruct (_ || _); [|apply Hsame].
    destruct rest as [|tag rest']; [apply Hsame|].
    destruct (IH rest' ltac:(simpl; lia)
                {| Options.Input := Options.Input options;
                   Options.Output := Options.Output options;
                   Options.Tags := {[ tag ]} ∪ Options.Tags options |} help)
      as (H1 & H2 & H3 & H4 & H5 & H6).
    cbv zeta. split_and!.
    + etrans; [|exact H1]. simpl. apply union_subseteq_r.
    + intros t Ht. apply H2 in Ht as [Ht|Ht].
      * simpl in Ht. apply elem_of_union in Ht as [Ht|Ht]; [|by left].
        apply elem_of_singleton in Ht as ->. right.
        apply list_elem_of_further, list_elem_of_here.
      * right. by do 2 apply list_elem_of_further.
    + exact H3.
    + exact H4.
    + destruct H5 as [H5|H5]; [by left|right].
      by do 2 apply list_elem_of_further.
    + destruct H6 as [H6|H6]; [by left|right].
      by do 2 apply list_elem_of_further.
  - case_bool_decide as Hin.
    { destruct (IH rest ltac:(simpl; lia)
                  {| Options.Input := arg;
                     Options.Output := Options.Output options;
                     Options.Tags := Options.Tags options |} help)
        as (H1 & H2 & H3 & H4 & H5 & H6).
      cbv zeta. split_and!.
      + exact H1.
      + intros t Ht. apply H2 in Ht as [Ht|Ht]; [by left|right].
        by apply list_elem_of_further.
      + intros Hne. by destruct Hne.
      + exact H4.
      + simpl in H5. destruct H5 as [H5|H5]; right.
        * rewrite H5. apply list_elem_of_here.
        * by apply list_elem_of_further.
      + destruct H6 as [H6|H6]; [by left|right].
        by apply list_elem_of_further. }
    case_bool_decide as Hout; [|apply Hsame].
    destruct (IH rest ltac:(simpl; lia)
                {| Options.Input := Options.Input options;
                   Options.Output := arg;
                   Options.Tags := Options.Tags options |} help)
      as (H1 & H2 & H3 & H4 & H5 & H6).
    cbv zeta. split_and!.
    + exact H1.
    + intros t Ht. apply H2 in Ht as [Ht|Ht]; [by left|right].
      by apply list_elem_of_further.
    + exact H3.
    + intros Hne. by destruct Hne.
    + destruct H5 as [H5|H5]; [by left|right].
      by apply list_elem_of_further.
    + simpl in H6. destruct H6 as [H6|H6]; right.
      * rewrite H6. apply list_elem_of_here.
      * by apply list_elem_of_further.
Qed.

(** [parse_arguments] only adds to the options: no tag is removed, every
    new tag and every new file name is one of the arguments behind
    [argv[0]], and a file name that is already set is kept. *)
Theorem parse_arguments_options_grow (argv : list string) (options : Options.t)
    (help : bool) :
  let opts := p_options (parse_arguments argv options help) in
  Options.Tags options ⊆ Options.Tags opts ∧
  (∀ t, t ∈ Options.Tags opts → t ∈ Options.Tags options ∨ t ∈ tail argv) ∧
  (Options.Input options ≠ "" → Options.Input opts = Options.Input options) ∧
  (Options.Output options ≠ "" → Options.Output opts = Options.Output options) ∧
  (Options.Input opts = Options.Input options ∨ Options.Input opts ∈ tail argv) ∧
  (Options.Output opts = Options.Output options ∨ Options.Output opts ∈ tail argv).
Proof. apply parse_arguments_loop_grow. Qed.

(** ** The exit status *)

(** The exit status of [main] tells whether the arguments were accepted
    and the streams opened, and nothing else: the result of [parse] is
    not looked at, so a run that [parse] gives up still exits with
    [EXIT_SUCCESS].  A failing exit writes no output and always leaves a
    line on the error console.  [main] returns whenever [parse] does. *)
Theorem main_exit_status (fuel : nat) (env : Env) (argv : list string) :
  let r := parse_arguments argv
             {| Options.Input := ""; Options.Output := ""; Options.Tags := ∅ |}
             false in
  let opened :=
    bool_decide (open_input_stream env (p_options r) ≠ None)
    && (open_output_stream env (p_options r)).2 in
  match main fuel env argv with
  | Some e =>
      exit_status e
      = (if p_ok r && (p_help r || opened) then EXIT_SUCCESS else EXIT_FAILURE) ∧
      (exit_status e = EXIT_FAILURE →
       exit_output e = [] ∧ exit_target e = None ∧ exit_cerr e ≠ [])
  | None =>
      p_ok r = true ∧ p_help r = false ∧
      ∃ bytes, open_input_stream env (p_options r) = Some bytes ∧
               (open_output_stream env (p_options r)).2 = true ∧
               parse fuel bytes (Options.Tags (p_options r)) = None
  end.
Proof.
  intros r opened. unfold main. fold r.
  destruct (parse_arguments_loop_reports (tail argv)
              {| Options.Input := ""; Options.Output := ""; Options.Tags := ∅ |}
              false) as (_ & Hfail & _).
  fold (parse_arguments argv
          {| Options.Input := ""; Options.Output := ""; Options.Tags := ∅ |}
          false) in Hfail.
  fold r in Hfail. unfold opened.
  destruct (p_ok r) eqn:Hok; simpl.
  2:{ split; [done|]. intros _. destruct (Hfail eq_refl) as (_ & _ & m & ->).
      by split_and!. }
  destruct (p_help r) eqn:Hhelp; simpl; [done|].
  destruct (open_input_stream env (p_options r)) as [bytes|] eqn:Hin; simpl.
  2:{ split; [done|]. intros _. split_and!; [done|done|].
      by destruct (p_cerr r). }
  destruct (open_output_stream env (p_options r)) as [target good] eqn:Hout.
  destruct good; simpl.
  2:{ split; [done|]. intros _. split_and!; [done|done|].
      by destruct (p_cerr r). }
  destruct (parse fuel bytes (Options.Tags (p_options r)))
    as [[[ok io] ctx]|] eqn:Hp; simpl.
  - split; [by destruct ok|]. by destruct ok.
  - split_and!; [done|done|]. by exists bytes.
Qed.

(** A run whose input has a [define] without tag: [parse] returns
    [false], the exit status is [EXIT_SUCCESS]. *)
Example main_run_with_failing_parse :
  main 12
    {| stdin_bytes := txt ("a#define " +:+ nl +:+ "b");
       read_file := λ _, None; can_write := λ _, false |}
    ["stpp"; "-D"; "x"]
  = Some {| exit_status := EXIT_SUCCESS; exit_cout := [];
            exit_cerr := ["Define statement without tag"];
            exit_target := None; exit_output := txt "a" |}.
Proof. vm_compute. reflexivity. Qed.



(** * Chains and documents *)

(** ** Heads *)

Lemma extract_loop_nil buffer started :
  extract_loop buffer started [] = (buffer, []).
Proof. simpl. by case_match. Qed.

(** One call of the scanner takes a well-formed head from the stream. *)
Lemma extract_head eof h s :
  wf_head eof h → (eof = true → s = []) →
  extract_operation (h_ws h ++ h_word h ++ option_list (h_sep h) ++ s)
  = (head_op h, c_str (h_word h), s).
Proof.
  destruct h as [ws w sep]. unfold wf_head, head_op. cbn [h_ws h_word h_sep].
  intros (Hws & Hw & Hsep) Heof. destruct sep as [c|]; cbn [option_list].
  - destruct Hsep as (Hc & Hlen & Hnil).
    destruct (decide (w = [])) as [->|Hne].
    + rewrite (Hnil eq_refl). unfold extract_operation. simpl app.
      by rewrite (extract_loop_blanks ws (NL :: s) Hws).
    + exact (extract_operation_word ws w c s Hws Hw Hlen Hne Hc).
  - simpl app. unfold extract_operation. rewrite (extract_loop_blanks ws _ Hws).
    destruct Hsep as [Hlen|[He Hlen]].
    + by rewrite (extract_loop_fill w [] false s Hw Hlen).
    + rewrite (Heof He), (extract_loop_chars w [] false [] Hw) by (simpl; lia).
      by rewrite extract_loop_nil.
Qed.

Lemma render_head_app h s :
  render_head h ++ s
  = PP_START :: (h_ws h ++ h_word h ++ option_list (h_sep h) ++ s).
Proof. unfold render_head. simpl. by rewrite <- !app_assoc. Qed.

Lemma scan_head_branch eof h s out err ctx ignore next :
  wf_head eof h → (eof = true → s = []) →
  head_op h = Operation.Elif ∨ head_op h = Operation.Else
  ∨ head_op h = Operation.Endif →
  scans (mk_io (render_head h ++ s) out err) ctx ignore next
        (true, mk_io s out err, ctx, head_op h).
Proof.
  intros Hh Heof Hop. rewrite render_head_app.
  eapply scan_branch_mk; [by apply (extract_head eof)|done].
Qed.

Lemma scan_head_if h s out err ctx ignore next r io2 ctx2 :
  wf_head false h → head_op h = Operation.If →
  returns (λ f, handle_if f (mk_io s out err) ctx ignore) (true, io2, ctx2) →
  scans io2 ctx2 ignore next r →
  scans (mk_io (render_head h ++ s) out err) ctx ignore next r.
Proof.
  intros Hh Hop Hif Hr. rewrite render_head_app.
  eapply scan_if_mk; [|exact Hif|exact Hr].
  rewrite <- Hop. by apply (extract_head false).
Qed.

Lemma scan_head_echo h s out err ctx ignore next r :
  wf_head false h → head_op h = Operation.Unknown →
  scans (emit ignore (mk_io s out err) (PP_START :: c_str (h_word h)))
        ctx ignore next r →
  scans (mk_io (render_head h ++ s) out err) ctx ignore next r.
Proof.
  intros Hh Hop [f H]. exists (S f). rewrite render_head_app.
  cbn [consume_next mk_io io_in].
  change (Ascii.eqb PP_START PP_START) with true. cbv iota.
  rewrite (extract_head false h s Hh) by done. by rewrite Hop.
Qed.

Lemma scan_head_flag_skipped h s out err ctx next r :
  wf_head false h →
  head_op h = Operation.Define ∨ head_op h = Operation.Undef →
  scans (mk_io s out err) ctx true next r →
  scans (mk_io (render_head h ++ s) out err) ctx true next r.
Proof.
  intros Hh Hop Hr. rewrite render_head_app.
  eapply (scan_flag_ignored (mk_io _ out err));
    [done|by apply (extract_head false)|done|exact Hr].
Qed.

Lemma scan_head_define h ws t sep s out err tags dp next r :
  wf_head false h → head_op h = Operation.Define → ok_arg false ws t sep →
  scans (mk_io s out err) (mk_ctx ({[ t ]} ∪ tags) dp) false next r →
  scans (mk_io (render_head h ++ ws ++ txt t ++ sep :: s) out err)
        (mk_ctx tags dp) false next r.
Proof.
  intros Hh Hop (Hws & Hne & Ht & Hsep) Hr. rewrite render_head_app.
  eapply (scan_flag_active (mk_io _ out err));
    [done|by apply (extract_head false)| |exact Hr].
  left. split; [done|]. unfold handle_define. cbn [set_in io_in mk_io].
  rewrite (get_tag_one_word ws t sep s Hws Hne Ht Hsep).
  by rewrite decide_False.
Qed.

Lemma scan_head_undef h ws t sep s out err tags dp next r :
  wf_head false h → head_op h = Operation.Undef → ok_arg false ws t sep →
  scans (mk_io s out err) (mk_ctx (tags ∖ {[ t ]}) dp) false next r →
  scans (mk_io (render_head h ++ ws ++ txt t ++ sep :: s) out err)
        (mk_ctx tags dp) false next r.
Proof.
  intros Hh Hop (Hws & Hne & Ht & Hsep) Hr. rewrite render_head_app.
  eapply (scan_flag_active (mk_io _ out err));
    [done|by apply (extract_head false)| |exact Hr].
  right. split; [done|]. unfold handle_undef. cbn [set_in io_in mk_io].
  rewrite (get_tag_one_word ws t sep s Hws Hne Ht Hsep).
  by rewrite decide_False.
Qed.

Lemma word_forallb (s : list ascii) :
  forallb (λ c, negb (isspace c)) s = true →
  Forall (λ c, isspace c = false) s.
Proof.
  intros H. apply Forall_forall. intros c Hc.
  rewrite forallb_forall in H. apply negb_true_iff, H.
  by apply list_elem_of_In.
Qed.

Lemma wf_head_sp kw :
  Forall (λ c, isspace c = false) (txt kw) → txt kw ≠ [] →
  length (txt kw) < MAX_BUF_SIZE → wf_head false (head_sp kw).
Proof.
  intros Hw Hne Hlen. unfold wf_head, head_sp. cbn [h_ws h_word h_sep].
  split_and!; [constructor|done|done|done|done].
Qed.

Lemma wf_head_nl kw :
  Forall (λ c, isspace c = false) (txt kw) →
  length (txt kw) < MAX_BUF_SIZE → wf_head false (head_nl kw).
Proof.
  intros Hw Hlen. unfold wf_head, head_nl. cbn [h_ws h_word h_sep].
  split_and!; [constructor|done|done|done|done].
Qed.

(** ** The specified effect *)

Lemma spec_rest_select cr st :
  spec_rest cr st = spec_items (spec_select st.2 cr) st.
Proof.
  induction cr as [h g b cr IH|h b cr IH|h]; simpl; [|done|done].
  by case_match.
Qed.

(** The tags behind a span do not depend on the output before it. *)
Lemma spec_tags :
  (∀ d out out' tags,
     (spec_items d (out, tags)).2 = (spec_items d (out', tags)).2) ∧
  (∀ i out out' tags,
     (spec_item i (out, tags)).2 = (spec_item i (out', tags)).2) ∧
  (∀ cr out out' tags,
     (spec_rest cr (out, tags)).2 = (spec_rest cr (out', tags)).2).
Proof.
  apply document_mutind; try done.
  - intros i Hi d Hd out out' tags. cbn [spec_items].
    specialize (Hi out out' tags).
    destruct (spec_item i (out, tags)) as [o1 t1].
    destruct (spec_item i (out', tags)) as [o2 t2].
    simpl in Hi. subst t2. apply Hd.
  - intros h g b Hb cr Hcr out out' tags. cbn [spec_item snd].
    destruct (guard_value tags (guard_of g)); [apply Hb|apply Hcr].
  - intros h g b Hb cr Hcr out out' tags. cbn [spec_rest snd].
    destruct (guard_value tags (guard_of g)); [apply Hb|apply Hcr].
Qed.

Lemma eff_tags_items skip d out tags :
  (eff skip (spec_items d) (out, tags)).2 = tags_after skip (spec_items d) tags.
Proof. unfold tags_after. destruct skip; [done|apply spec_tags]. Qed.

Lemma eff_tags_item skip i out tags :
  (eff skip (spec_item i) (out, tags)).2 = tags_after skip (spec_item i) tags.
Proof. unfold tags_after. destruct skip; [done|apply spec_tags]. Qed.

(** ** The code on a document *)

Lemma through_nil skip tags : scans_through skip tags [] (spec_items INil).
Proof.
  intros out err dp rest Hdp. exists err. intros next r.
  by destruct skip.
Qed.

Lemma through_cons skip tags i d :
  scans_through skip tags (render_item i) (spec_item i) →
  scans_through skip (tags_after skip (spec_item i) tags)
    (render_items d) (spec_items d) →
  scans_through skip tags (render_items (ICons i d)) (spec_items (ICons i d)).
Proof.
  intros H1 H2 out err dp rest Hdp. cbn [render_items spec_items].
  destruct (H1 out err dp (render_items d ++ rest) Hdp) as [err1 Hs1].
  pose proof (eff_tags_item skip i out tags) as Ht.
  destruct (eff skip (spec_item i) (out, tags)) as [out1 tags1] eqn:E1.
  cbn [fst snd] in *. subst tags1.
  destruct (H2 out1 err1 dp rest Hdp) as [err2 Hs2].
  exists err2. intros next r Hr. rewrite <- app_assoc. apply Hs1, Hs2.
  destruct skip; cbn [eff] in *; [by simplify_eq|by rewrite E1 in Hr].
Qed.

Lemma through_char skip tags c :
  c ≠ PP_START → scans_through skip tags [c] (spec_item (IChar c)).
Proof.
  intros Hc out err dp rest Hdp. exists err. intros next r Hr.
  apply (scan_char _ _ _ _ _ c rest); [done|done|]. by destruct skip.
Qed.

Lemma through_echo skip tags h :
  wf_head false h → ok_echo skip h →
  scans_through skip tags (render_head h) (spec_item (IEcho h)).
Proof.
  intros Hh [Hop|[-> Hop]] out err dp rest Hdp; exists err; intros next r Hr.
  - apply scan_head_echo; [done|done|]. by destruct skip.
  - by apply scan_head_flag_skipped.
Qed.

Lemma through_define skip tags h ws t sep :
  wf_head false h → head_op h = Operation.Define → ok_arg skip ws t sep →
  scans_through skip tags (render_item (IDefine h ws t sep))
    (spec_item (IDefine h ws t sep)).
Proof.
  intros Hh Hop Harg out err dp rest Hdp. exists err. intros next r Hr.
  cbn [render_item]. rewrite <- !app_assoc. destruct skip.
  - apply scan_head_flag_skipped; [done|by left|].
    rewrite !app_assoc, <- (app_assoc ws).
    apply scan_skip_mk; [exact Harg|exact Hr].
  - by apply scan_head_define.
Qed.

Lemma through_undef skip tags h ws t sep :
  wf_head false h → head_op h = Operation.Undef → ok_arg skip ws t sep →
  scans_through skip tags (render_item (IUndef h ws t sep))
    (spec_item (IUndef h ws t sep)).
Proof.
  intros Hh Hop Harg out err dp rest Hdp. exists err. intros next r Hr.
  cbn [render_item]. rewrite <- !app_assoc. destruct skip.
  - apply scan_head_flag_skipped; [done|by right|].
    rewrite !app_assoc, <- (app_assoc ws).
    apply scan_skip_mk; [exact Harg|exact Hr].
  - by apply scan_head_undef.
Qed.

Lemma loops_end ignore c o tags eof h :
  wf_head eof h → head_op h = Operation.Endif →
  loops_through ignore c o tags eof (CEnd h).
Proof.
  intros Hh Hop cur out err dp tail Hdp Heof. exists err.
  replace (eff (ignore || c || o) (spec_rest (CEnd h)) (out, tags))
    with (out, tags) by (by destruct (ignore || c || o)).
  cbn [render_rest fst snd]. apply loop_endif.
  pose proof (scan_head_branch eof h tail out err (mk_ctx tags dp)
                (ignore || o || negb c) cur Hh Heof) as Hsc.
  rewrite Hop in Hsc. apply Hsc. auto.
Qed.

Lemma loops_else ignore c o tags eof h b cr :
  wf_head false h → head_op h = Operation.Else →
  scans_through (ignore || c || o) tags (render_items b) (spec_items b) →
  loops_through ignore (negb (c || o)) (c || o)
    (tags_after (ignore || c || o) (spec_items b) tags) eof cr →
  loops_through ignore c o tags eof (CElse h b cr).
Proof.
  intros Hh Hop Hb Hcr cur out err dp tail Hdp Heof.
  destruct (Hb out err dp (render_rest cr ++ tail) Hdp) as [err1 Hs].
  pose proof (eff_tags_items (ignore || c || o) b out tags) as Ht.
  cbn [render_rest spec_rest].
  destruct (eff (ignore || c || o) (spec_items b) (out, tags))
    as [out1 tags1] eqn:E1.
  cbn [fst snd] in *. subst tags1.
  destruct (Hcr Operation.Else out1 err1 dp tail Hdp Heof) as [err2 Hl].
  exists err2.
  replace (eff (ignore || negb (c || o) || (c || o)) (spec_rest cr)
             (out1, tags_after (ignore || c || o) (spec_items b) tags))
    with (out1, tags_after (ignore || c || o) (spec_items b) tags) in Hl
    by (by destruct ignore, c, o).
  cbn [fst snd] in Hl. rewrite <- !app_assoc.
  eapply loop_else.
  { pose proof (scan_head_branch false h
                  (render_items b ++ render_rest cr ++ tail) out err
                  (mk_ctx tags dp) (ignore || o || negb c) cur Hh) as Hsc.
    rewrite Hop in Hsc. apply Hsc; [done|auto]. }
  eapply loop_scan_prefix; [|exact Hl].
  intros next x.
  replace (ignore || (c || o) || negb (negb (c || o)))
    with (ignore || c || o) by (by destruct ignore, c, o).
  apply Hs.
Qed.

Lemma guard_line_no_marker og :
  PP_START ∉ guard_of og → PP_START ∉ guard_line og.
Proof.
  destruct og as [g|]; simpl; [|done].
  intros Hno [H|H]%elem_of_app; [done|].
  by apply elem_of_cons in H as [?|?%elem_of_nil].
Qed.

Lemma loops_elif_fired ignore c o tags eof h g b cr :
  wf_head false h → head_op h = Operation.Elif →
  c || o = true → PP_START ∉ guard_of g →
  scans_through true tags (render_items b) (spec_items b) →
  loops_through ignore false true tags eof cr →
  loops_through ignore c o tags eof (CElif h g b cr).
Proof.
  intros Hh Hop Hco Hg Hb Hcr cur out err dp tail Hdp Heof.
  destruct (Hb out err dp (render_rest cr ++ tail) Hdp) as [err1 Hs].
  destruct (Hcr Operation.Elif out err1 dp tail Hdp Heof) as [err2 Hl].
  exists err2.
  replace (eff (ignore || c || o) (spec_rest (CElif h g b cr)) (out, tags))
    with (out, tags) by (by destruct ignore, c, o).
  replace (eff (ignore || false || true) (spec_rest cr) (out, tags))
    with (out, tags) in Hl by (by destruct ignore).
  cbn [render_rest]. rewrite <- !app_assoc.
  eapply loop_elif_fired; [|done|].
  { pose proof (scan_head_branch false h
                  (guard_line g ++ render_items b ++ render_rest cr ++ tail)
                  out err (mk_ctx tags dp) (ignore || o || negb c) cur Hh)
      as Hsc.
    rewrite Hop in Hsc. apply Hsc; [done|auto]. }
  eapply loop_scan_prefix; [|exact Hl].
  intros next x Hx.
  replace (ignore || true || negb false) with true in * by (by destruct ignore).
  apply scan_skip_mk; [by apply guard_line_no_marker|].
  by apply Hs.
Qed.

Lemma loops_elif_eval ignore tags eof h g b cr :
  wf_head false h → head_op h = Operation.Elif → NL ∉ g →
  scans_through (ignore || negb (guard_value tags g)) tags
    (render_items b) (spec_items b) →
  loops_through ignore (guard_value tags g) false
    (tags_after (ignore || negb (guard_value tags g)) (spec_items b) tags)
    eof cr →
  loops_through ignore false false tags eof (CElif h (Some g) b cr).
Proof.
  intros Hh Hop Hg Hb Hcr cur out err dp tail Hdp Heof.
  destruct (handle_condition_line g (render_items b ++ render_rest cr ++ tail)
              out err (mk_ctx tags dp) Hg) as [e He].
  cbn [mk_ctx Tags] in He.
  remember (guard_value tags g) as v eqn:Hv.
  destruct (Hb out (err ++ e) dp (render_rest cr ++ tail) Hdp) as [err1 Hs].
  pose proof (eff_tags_items (ignore || negb v) b out tags) as Ht.
  destruct (eff (ignore || negb v) (spec_items b) (out, tags))
    as [out1 tags1] eqn:E1.
  cbn [fst snd] in *. subst tags1.
  destruct (Hcr Operation.Elif out1 err1 dp tail Hdp Heof) as [err2 Hl].
  exists err2.
  replace (eff (ignore || false || false) (spec_rest (CElif h (Some g) b cr))
             (out, tags))
    with (eff (ignore || v || false) (spec_rest cr)
            (out1, tags_after (ignore || negb v) (spec_items b) tags)).
  2:{ rewrite <- E1. unfold eff. cbn [spec_rest snd].
      change (guard_of (Some g)) with g. rewrite <- Hv. by destruct ignore, v. }
  cbn [render_rest guard_line]. rewrite <- !app_assoc. cbn [app].
  eapply loop_elif_eval.
  { pose proof (scan_head_branch false h
                  (g ++ NL :: render_items b ++ render_rest cr ++ tail) out err
                  (mk_ctx tags dp) (ignore || false || negb false) cur Hh)
      as Hsc.
    rewrite Hop in Hsc. apply Hsc; [done|auto]. }
  { exact He. }
  eapply loop_scan_prefix; [|exact Hl].
  intros next x Hx.
  replace (ignore || false || negb v) with (ignore || negb v) in *
    by (by destruct ignore).
  by apply Hs.
Qed.

(** [handle_if], entered behind the [if] head of a skipped chain, returns
    behind its [endif] and has changed nothing but the diagnostics. *)
Lemma if_block_skipped tags eof g b cr :
  PP_START ∉ guard_of g →
  scans_through true tags (render_items b) (spec_items b) →
  loops_through true false false tags eof cr →
  ∀ out err dp rest, (dp < SIZE_MAX1)%N → (eof = true → rest = []) →
    ∃ err',
      returns
        (λ f, handle_if f
                (mk_io (guard_line g ++ render_items b ++ render_rest cr
                          ++ rest) out err)
                (mk_ctx tags dp) true)
        (true, mk_io rest out err', mk_ctx tags dp).
Proof.
  intros Hg Hb Hcr out err dp rest Hdp Heof.
  pose (dp1 := Depth (depth_incr (mk_ctx tags dp))).
  assert (dp1 < SIZE_MAX1)%N as Hdp1 by apply wf_depth_incr.
  destruct (Hb out err dp1 (render_rest cr ++ rest) Hdp1) as [err1 Hs].
  destruct (Hcr Operation.If out err1 dp1 rest Hdp1 Heof) as [err2 Hl].
  exists err2. cbn [eff fst snd orb] in *.
  eapply if_returns_mk; [done|reflexivity|].
  eapply loop_scan_prefix; [|exact Hl].
  intros nxt x Hx. cbn [orb negb] in *.
  apply scan_skip_mk; [by apply guard_line_no_marker|].
  by apply Hs.
Qed.

(** [handle_if], entered with output active behind the [if] head of a
    chain, returns behind its [endif] with the effect of the chain. *)
Lemma if_block_active tags eof h g b cr :
  NL ∉ g →
  scans_through (negb (guard_value tags g)) tags (render_items b) (spec_items b) →
  loops_through false (guard_value tags g) false
    (tags_after (negb (guard_value tags g)) (spec_items b) tags) eof cr →
  ∀ out err dp rest, (dp < SIZE_MAX1)%N → (eof = true → rest = []) →
    ∃ err',
      returns
        (λ f, handle_if f (mk_io (render_chain g b cr ++ rest) out err)
                (mk_ctx tags dp) false)
        (true,
         mk_io rest (spec_item (IIf h (Some g) b cr) (out, tags)).1 err',
         mk_ctx (spec_item (IIf h (Some g) b cr) (out, tags)).2 dp).
Proof.
  intros Hg Hb Hcr out err dp rest Hdp Heof.
  pose (dp1 := Depth (depth_incr (mk_ctx tags dp))).
  assert (dp1 < SIZE_MAX1)%N as Hdp1 by apply wf_depth_incr.
  unfold render_chain. rewrite <- !app_assoc. cbn [app]. rewrite <- !app_assoc.
  destruct (handle_condition_line g (render_items b ++ render_rest cr ++ rest)
              out err (mk_ctx tags dp) Hg) as [e He].
  cbn [mk_ctx Tags] in He.
  remember (guard_value tags g) as v eqn:Hv.
  destruct (Hb out (err ++ e) dp1 (render_rest cr ++ rest) Hdp1) as [err1 Hs].
  pose proof (eff_tags_items (negb v) b out tags) as Ht.
  destruct (eff (negb v) (spec_items b) (out, tags)) as [out1 tags1] eqn:E1.
  cbn [fst snd] in *. subst tags1.
  destruct (Hcr Operation.If out1 err1 dp1 rest Hdp1 Heof) as [err2 Hl].
  exists err2.
  replace (spec_item (IIf h (Some g) b cr) (out, tags))
    with (eff (false || v || false) (spec_rest cr)
            (out1, tags_after (negb v) (spec_items b) tags)).
  2:{ rewrite <- E1. unfold eff. cbn [spec_item snd].
      change (guard_of (Some g)) with g. rewrite <- Hv. by destruct v. }
  eapply if_returns_mk; [done|exact He|].
  eapply loop_scan_prefix; [|exact Hl].
  intros nxt x Hx. cbn [orb] in *. by apply Hs.
Qed.

Lemma through_if skip tags h g b cr :
  wf_head false h → head_op h = Operation.If →
  (∀ out err dp rest, (dp < SIZE_MAX1)%N →
     ∃ err',
       returns
         (λ f, handle_if f
                 (mk_io (guard_line g ++ render_items b ++ render_rest cr
                           ++ rest) out err)
                 (mk_ctx tags dp) skip)
         (true,
          mk_io rest (eff skip (spec_item (IIf h g b cr)) (out, tags)).1 err',
          mk_ctx (eff skip (spec_item (IIf h g b cr)) (out, tags)).2 dp)) →
  scans_through skip tags (render_item (IIf h g b cr))
    (spec_item (IIf h g b cr)).
Proof.
  intros Hh Hop Hif out err dp rest Hdp.
  destruct (Hif out err dp rest Hdp) as [err' Hret].
  exists err'. intros next r Hr.
  cbn [render_item]. rewrite <- !app_assoc.
  eapply scan_head_if; [done|done|exact Hret|exact Hr].
Qed.

(** Every document that is read as it is written is scanned as specified. *)
Lemma document_runs :
  (∀ d skip tags, ok_items skip tags d →
     scans_through skip tags (render_items d) (spec_items d)) ∧
  (∀ i skip tags, ok_item skip tags i →
     scans_through skip tags (render_item i) (spec_item i)) ∧
  (∀ cr ignore c o tags eof, ok_rest ignore c o tags eof cr →
     loops_through ignore c o tags eof cr).
Proof.
  apply document_mutind.
  - intros skip tags _. apply through_nil.
  - intros i Hi d Hd skip tags [Hwi Hwd]. apply through_cons; auto.
  - intros c skip tags Hc. by apply through_char.
  - intros h skip tags [Hh Hop]. by apply through_echo.
  - intros h ws t sep skip tags (Hh & Hop & Harg). by apply through_define.
  - intros h ws t sep skip tags (Hh & Hop & Harg). by apply through_undef.
  - intros h og b Hb cr Hcr skip tags (Hh & Hop & Hok).
    apply through_if; [done|done|]. intros out err dp rest Hdp.
    destruct skip.
    + destruct Hok as (Hg & Hwb & Hwcr).
      eapply (if_block_skipped tags false); eauto. done.
    + destruct og as [g|]; [|done]. destruct Hok as (Hg & Hwb & Hwcr).
      destruct (if_block_active tags false h g b cr Hg (Hb _ _ Hwb)
                  (Hcr _ _ _ _ _ Hwcr) out err dp rest Hdp) as [err' Hact];
        [done|].
      exists err'. cbn [eff].
      replace (guard_line (Some g) ++ render_items b ++ render_rest cr ++ rest)
        with (render_chain g b cr ++ rest); [done|].
      unfold render_chain. cbn [guard_line].
      rewrite <- ?app_assoc. cbn [app]. by rewrite <- ?app_assoc.
  - intros h og b Hb cr Hcr ignore c o tags eof (Hh & Hop & Hok).
    destruct (c || o) eqn:Hco.
    + destruct Hok as (Hg & Hwb & Hwcr). apply loops_elif_fired; auto.
    + apply orb_false_iff in Hco as [-> ->].
      destruct og as [g|]; [|done].
      destruct Hok as (Hg & Hwb & Hwcr). apply loops_elif_eval; auto.
  - intros h b Hb cr Hcr ignore c o tags eof (Hh & Hop & Hwb & Hwcr).
    apply loops_else; auto.
  - intros h ignore c o tags eof [Hh Hop]. by apply loops_end.
Qed.


(** ** One body of a chain *)

(** C3, as the code has it.  Take a chain met with output active that the
    code reads as it is written ([ok_chain]): every head is one scan of the
    scanner (blanks, the keyword and one whitespace byte; the last [endif]
    may end the input), every evaluated guard is one line, every active
    [define] and [undef] has its tag, the chain and the chains nested in
    it are closed by their [endif].  What the code skips without reading
    it -- the guard line of a skipped [if], of an [elif] behind a fired
    branch, the argument of a skipped [define] or [undef] -- is scanned
    like body text: it holds no marker, or else it is written as part of
    the body (the guard as [None], the [define] or [undef] as an [IEcho]),
    where a marker begins a directive of the chain.  Then [handle_if]
    returns behind the [endif], and output and tag set are those of
    exactly one body: of the [if] body when its guard is true, else of the
    first [elif] body whose guard is true, else of the first [else] body
    (of no body when there is none).  The other bodies, whatever [define]
    and [undef] directives they hold, leave no trace in output or tags.
    Guards are valued under the tags at the [if]; the diagnostics may
    grow. *)
Theorem chain_emits_first_true_branch
    (g : list ascii) (b : items) (cr : chain_rest)
    (out : list ascii) (err : list string) (tags : gset string) (dp : N)
    (tail : list ascii) :
  ok_chain tags (bool_decide (tail = [])) g b cr → (dp < SIZE_MAX1)%N →
  let selected := if guard_value tags g then b else spec_select tags cr in
  ∃ fuel0 err', ∀ fuel, fuel0 ≤ fuel →
    handle_if fuel (mk_io (render_chain g b cr ++ tail) out err)
      (mk_ctx tags dp) false
    = Some (true,
            mk_io tail (spec_items selected (out, tags)).1 err',
            mk_ctx (spec_items selected (out, tags)).2 dp).
Proof.
  intros (Hg & Hb & Hcr) Hdp selected.
  destruct document_runs as (Hitems & _ & Hrest).
  destruct (if_block_active tags (bool_decide (tail = [])) (head_sp "if") g b cr
              Hg (Hitems b _ _ Hb) (Hrest cr _ _ _ _ _ Hcr) out err dp tail Hdp)
    as (err' & fuel0 & Hrun).
  { intros H. by apply bool_decide_eq_true in H. }
  exists fuel0, err'. intros fuel Hfuel.
  apply (handle_if_mono fuel0); [|done].
  rewrite Hrun. unfold selected. cbn [spec_item snd].
  change (guard_of (Some g)) with g.
  rewrite spec_rest_select. by destruct (guard_value tags g).
Qed.

Lemma demo_guards :
  guard_value {[ "a"; "b" ]} (txt "a") = true.
Proof. vm_compute. reflexivity. Qed.

Lemma demo_chain_ok :
  ok_chain {[ "a"; "b" ]} true (txt "a") demo_chain_body demo_chain_rest.
Proof.
  unfold ok_chain. rewrite demo_guards. cbn [negb].
  split_and!.
  - apply (bool_decide_unpack _). vm_compute. exact I.
  - cbn [demo_chain_body ok_items ok_item]. split_and!; try done.
    + apply wf_head_sp; [by apply word_forallb|done|].
      simpl. unfold MAX_BUF_SIZE. lia.
    + by left.
  - cbn [demo_chain_rest ok_rest orb ok_items ok_item ok_arg].
    split_and!; try done.
    + unfold wf_head. cbn [h_ws h_word h_sep]. split_and!; try done.
      * repeat constructor; done.
      * by apply word_forallb.
      * simpl. unfold MAX_BUF_SIZE. lia.
    + by apply no_marker_forallb.
    + apply wf_head_nl; [by apply word_forallb|].
      simpl. unfold MAX_BUF_SIZE. lia.
    + by apply no_marker_forallb.
    + apply wf_head_nl; [by apply word_forallb|].
      simpl. unfold MAX_BUF_SIZE. lia.
    + unfold wf_head. cbn [h_ws h_word h_sep].
      split_and!; [constructor|by apply word_forallb|].
      right. split; [done|]. simpl. unfold MAX_BUF_SIZE. lia.
Qed.

Lemma chain_emits_first_true_branch_witness :
  let tags : gset string := {[ "a"; "b" ]} in
  let selected :=
    if guard_value tags (txt "a") then demo_chain_body
    else spec_select tags demo_chain_rest in
  ∃ fuel0 err', ∀ fuel, fuel0 ≤ fuel →
    handle_if fuel
      (mk_io (render_chain (txt "a") demo_chain_body demo_chain_rest ++ []) [] [])
      (mk_ctx tags 0) false
    = Some (true,
            mk_io [] (spec_items selected ([], tags)).1 err',
            mk_ctx (spec_items selected ([], tags)).2 0).
Proof.
  intros tags.
  exact (chain_emits_first_true_branch (txt "a") demo_chain_body
           demo_chain_rest [] [] tags 0 [] demo_chain_ok eq_refl).
Defined.

(** The chain of the witness, run: [a] and [b] are defined, the [if] body
    is written with its [#pragma] (less the blank behind the word), and the
    [define x] of the skipped [elif] body is without effect. *)
Example demo_chain_run :
  render_item (IIf (head_sp "if") (Some (txt "a")) demo_chain_body
                 demo_chain_rest)
  = txt ("#if a" +:+ nl +:+ "A#pragma o# elif b" +:+ nl +:+ "#define" +:+ nl
         +:+ "x" +:+ nl +:+ "B#else" +:+ nl +:+ "C#endif") ∧
  parse 60 (render_item (IIf (head_sp "if") (Some (txt "a")) demo_chain_body
                           demo_chain_rest)) {[ "a"; "b" ]}
  = Some (true, mk_io [] (txt "A#pragmao") [], mk_ctx {[ "a"; "b" ]} 0).
Proof. split; vm_compute; reflexivity. Qed.


(** ** Whole documents at the top level *)

(** On a document that is read as it is written the run succeeds, and
    output and final tags are the specified ones. *)
Theorem parse_document (d : items) (tags : gset string) :
  ok_items false tags d →
  ∃ fuel0 err', ∀ fuel, fuel0 ≤ fuel →
    parse fuel (render_items d) tags
    = Some (true,
            mk_io [] (spec_items d ([], tags)).1 err',
            mk_ctx (spec_items d ([], tags)).2 0).
Proof.
  intros Hok. destruct document_runs as (Hitems & _ & _).
  destruct (Hitems d false tags Hok [] [] 0%N []) as [err' Hs]; [done|].
  rewrite app_nil_r in Hs. cbn [eff] in Hs.
  destruct (Hs Operation.Unknown
              (true, mk_io [] (spec_items d ([], tags)).1 err',
               mk_ctx (spec_items d ([], tags)).2 0, Operation.Unknown))
    as [fuel0 Hrun]; [by exists 1|].
  exists fuel0, err'. intros fuel Hfuel.
  apply (parse_mono fuel0); [|done].
  by apply consume_of_consume_next.
Qed.

Lemma parse_document_witness :
  let d := ICons (IDefine (head_sp "define") [] "x" NL)
             (ICons (IIf (head_sp "if") (Some (txt "x")) (ICons (IChar "A") INil)
                       (CElse (head_nl "else") (ICons (IChar "B") INil)
                          (CEnd (head_nl "endif"))))
                (ICons (IUndef (head_sp "undef") [] "x" NL) INil)) in
  ok_items false ∅ d ∧
  ∃ fuel0 err', ∀ fuel, fuel0 ≤ fuel →
    parse fuel (render_items d) ∅
    = Some (true, mk_io [] (spec_items d ([], ∅)).1 err',
            mk_ctx (spec_items d ([], ∅)).2 0).
Proof.
  intros d.
  assert (guard_value ({[ "x" ]} ∪ ∅) (txt "x") = true) as Hv
    by (vm_compute; reflexivity).
  assert (ok_items false ∅ d) as Hok.
  { cbn [d ok_items ok_item ok_arg tags_after eff spec_item fst snd].
    rewrite Hv.
    cbn [negb ok_items ok_item ok_rest orb tags_after eff spec_items spec_item
         fst snd].
    split_and!; try done;
      try (apply wf_head_sp;
           [by apply word_forallb|done|simpl; unfold MAX_BUF_SIZE; lia]);
      try (apply wf_head_nl;
           [by apply word_forallb|simpl; unfold MAX_BUF_SIZE; lia]);
      try (apply (bool_decide_unpack _); vm_compute; exact I);
      try constructor. }
  split; [exact Hok|]. exact (parse_document d ∅ Hok).
Defined.

(** ** Errors in a condition do not end the run *)

Lemma lex_loop_blanks ws : ∀ toks err s,
  Forall blank ws →
  lex_loop "" toks err (ws ++ s) = lex_loop "" toks err s.
Proof.
  induction ws as [|c ws IH]; intros toks err s Hws; [done|].
  apply Forall_cons in Hws as [[Hsp Hnl] Hws]. simpl.
  apply Ascii.eqb_neq in Hnl. rewrite Hnl, Hsp, checkAddTag_empty.
  by apply IH.
Qed.

Lemma handle_condition_blank ws rest out err ctx :
  Forall blank ws →
  handle_condition (mk_io (ws ++ NL :: rest) out err) ctx
  = (false, mk_io rest out (err ++ ["Expected condition but got nothing"])).
Proof.
  intros Hws. unfold handle_condition, ExprLexer_new, mk_io.
  cbn [io_in io_err io_out]. by rewrite (lex_loop_blanks ws [] err _ Hws).
Qed.

Lemma consume_head_if f h s out err ctx :
  wf_head false h → head_op h = Operation.If →
  consume (S f) (mk_io (render_head h ++ s) out err) ctx false
  = '(ok, io2, ctx2) ← handle_if f (mk_io s out err) ctx false;
    if negb ok then Some (false, io2, ctx2) else consume f io2 ctx2 false.
Proof.
  intros Hh Hop. rewrite render_head_app.
  apply (consume_if f
           (mk_io (PP_START :: h_ws h ++ h_word h ++ option_list (h_sep h) ++ s)
              out err)
           ctx false (h_ws h ++ h_word h ++ option_list (h_sep h) ++ s)
           (c_str (h_word h)) s eq_refl).
  rewrite <- Hop. by apply (extract_head false).
Qed.

(** C1, as the code has it.  An error in a guard does not end the run and
    gives no failure result.  A run that returns [false] was stopped by a
    [define] or [undef] without tag, whose message is then the last
    diagnostic.  An empty condition is reported and counts as false.  And
    whatever the guard line of a chain holds, the chain is processed as for
    any guard of that value: the run returns [true], the body that the
    guards' values select is written, the text behind the [endif] is
    written too, and what the evaluation of the guard wrote to the
    diagnostics is still there. *)
Theorem condition_errors_are_not_fatal
    (fuel : nat) (io io' : IO) (ctx ctx' : Context) (ignore : bool)
    (ws rest : list ascii)
    (h : head) (g : list ascii) (b : items) (cr : chain_rest)
    (tail out : list ascii) (err : list string) (tags : gset string) (dp : N) :
  (consume fuel io ctx ignore = Some (false, io', ctx') →
   ignore = false ∧ ∃ msgs m, io_err io' = msgs ++ [m] ∧ missing_tag_diag m) ∧
  (Forall blank ws →
   handle_condition (mk_io (ws ++ NL :: rest) out err) ctx
   = (false, mk_io rest out (err ++ ["Expected condition but got nothing"]))) ∧
  (wf_head false h → head_op h = Operation.If →
   ok_chain tags false g b cr → PP_START ∉ tail → (dp < SIZE_MAX1)%N →
   let io0 := mk_io (render_chain g b cr ++ tail) out err in
   let st := spec_item (IIf h (Some g) b cr) (out, tags) in
   ∃ fuel0 e, ∀ fuel, fuel0 ≤ fuel →
     consume fuel (mk_io (render_head h ++ render_chain g b cr ++ tail) out err)
       (mk_ctx tags dp) false
     = Some (true,
             mk_io [] (st.1 ++ tail)
               (io_err (handle_condition io0 (mk_ctx tags dp)).2 ++ e),
             mk_ctx st.2 dp)).
Proof.
  split_and!.
  { apply consume_fails_on_missing_tag. }
  { apply handle_condition_blank. }
  intros Hh Hop (Hg & Hb & Hcr) Htail Hdp io0 st.
  destruct document_runs as (Hitems & _ & Hrest).
  destruct (if_block_active tags false h g b cr
              Hg (Hitems b _ _ Hb) (Hrest cr _ _ _ _ _ Hcr) out err dp tail Hdp)
    as (err' & [|fuel0] & Hrun); [done|done|].
  fold st in Hrun.
  assert (∃ e, err' = io_err (handle_condition io0 (mk_ctx tags dp)).2 ++ e)
    as [e He].
  { rewrite handle_if_S in Hrun. fold io0 in Hrun.
    destruct (handle_condition io0 (mk_ctx tags dp)) as [v ioc].
    destruct (handle_if_loop fuel0 ioc _ false v false _)
      as [[io2 ctx2]|] eqn:Hl; [|done].
    apply (proj2 (proj2 (stream_diag_mono fuel0))) in Hl as [e He].
    exists e. by simplify_eq/=. }
  exists (S (S fuel0 + S (length tail))), e. intros fuel1 Hfuel.
  apply (consume_mono (S (S fuel0 + S (length tail)))); [|done].
  rewrite (consume_head_if _ h _ out err _ Hh Hop).
  rewrite (handle_if_mono (S fuel0) _ _ _ _ _ Hrun) by lia.
  cbn [mbind option_bind negb].
  rewrite (consume_plain tail); [|done|done|lia].
  cbn [mk_io io_out io_err]. by rewrite He.
Qed.

Lemma condition_errors_are_not_fatal_witness :
  let h := head_sp "if" in
  let b := ICons (IChar "X") INil in
  let cr := CEnd (head_nl "endif") in
  let io0 := mk_io (render_chain (txt "(a") b cr ++ txt "Y") [] [] in
  let st := spec_item (IIf h (Some (txt "(a")) b cr) ([], {[ "a" ]}) in
  ∃ fuel0 e, ∀ fuel, fuel0 ≤ fuel →
    consume fuel
      (mk_io (render_head h ++ render_chain (txt "(a") b cr ++ txt "Y") [] [])
      (mk_ctx {[ "a" ]} 0) false
    = Some (true,
            mk_io [] (st.1 ++ txt "Y")
              (io_err (handle_condition io0 (mk_ctx {[ "a" ]} 0)).2 ++ e),
            mk_ctx st.2 0).
Proof.
  intros h b cr io0 st.
  assert (guard_value {[ "a" ]} (txt "(a") = false) as Hv
    by (vm_compute; reflexivity).
  refine (proj2 (proj2 (condition_errors_are_not_fatal
                          0 (io_start []) (io_start []) ctx0 ctx0 false [] []
                          h (txt "(a") b cr (txt "Y") [] [] {[ "a" ]} 0))
            _ _ _ _ _).
  - apply wf_head_sp; [by apply word_forallb|done|simpl; unfold MAX_BUF_SIZE; lia].
  - reflexivity.
  - unfold ok_chain. rewrite Hv.
    cbn [negb b cr ok_items ok_item ok_rest].
    split_and!; try done.
    + apply (bool_decide_unpack _). vm_compute. exact I.
    + apply wf_head_nl; [by apply word_forallb|simpl; unfold MAX_BUF_SIZE; lia].
  - by apply no_marker_forallb.
  - reflexivity.
Defined.

(** The guard [(a] of the witness: the miss of the closing parenthesis is
    reported, the guard counts as false, the body is skipped and the run
    goes on with [Y]. *)
Example unmatched_parenthesis_run :
  parse 20 (txt ("#if (a" +:+ nl +:+ "X#endif" +:+ nl +:+ "Y")) {[ "a" ]}
  = Some (true, mk_io [] (txt "Y") ["Expected ')' but got 'EOS'"],
          mk_ctx {[ "a" ]} 0).
Proof. vm_compute. reflexivity. Qed.


(** ** An [elif] behind a branch that has fired *)

Lemma scan_text skip L : ∀ s out err ctx next r,
  PP_START ∉ L →
  scans (emit skip (mk_io s out err) L) ctx skip next r →
  scans (mk_io (L ++ s) out err) ctx skip next r.
Proof.
  induction L as [|c L IH]; intros s out err ctx next r Hno Hr.
  { destruct skip; [done|]. unfold emit, put, mk_io in Hr. simpl in Hr.
    by rewrite app_nil_r in Hr. }
  apply not_elem_of_cons in Hno as [Hc Hno].
  apply (scan_char _ _ _ _ _ c (L ++ s)); [done|done|].
  destruct skip.
  - by apply (IH s out err).
  - apply (IH s (out ++ [c]) err); [done|].
    unfold emit, put, mk_io in *. simpl in *. by rewrite <- app_assoc.
Qed.

Lemma scans_from io ctx skip next r :
  scans io ctx skip next r →
  ∃ fuel0, ∀ fuel, fuel0 ≤ fuel → consume_next fuel io ctx skip next = Some r.
Proof.
  intros [f H]. exists f. intros fuel Hle. by apply (consume_next_mono f).
Qed.

Lemma loops_from io ctx ignore c o cur r :
  loops io ctx ignore c o cur r →
  ∃ fuel0, ∀ fuel, fuel0 ≤ fuel →
    handle_if_loop fuel io ctx ignore c o cur = Some r.
Proof.
  intros [f H]. exists f. intros fuel Hle. by apply (handle_if_loop_mono f).
Qed.

(** C6.  The loop of [handle_if] stands in a branch that has fired
    ([condition] or [once_true] holds); the rest of that body is the plain
    text [pre], and then comes an [elif] head with any guard text [g]
    without marker, a plain body [b2] and the [endif].  The scan of the
    body returns on the [elif] with the stream at the guard text, which
    nobody has read.  The next scan, which skips, takes the guard line and
    [b2] as suppressed text and returns on the [endif].  So the loop
    returns behind the [endif] with nothing written for [g] and [b2], the
    tag context as it was, and the diagnostics as they were: the guard was
    not evaluated, whatever it holds. *)
Theorem elif_after_fired_branch_is_not_evaluated
    (ignore c o : bool) (cur : Operation.t) (h he : head)
    (pre g b2 tail out : list ascii) (err : list string) (ctx : Context) :
  wf_head false h → head_op h = Operation.Elif →
  wf_head (bool_decide (tail = [])) he → head_op he = Operation.Endif →
  c || o = true →
  PP_START ∉ pre → PP_START ∉ g → PP_START ∉ b2 →
  let skip := ignore || o || negb c in
  let out1 := if skip then out else out ++ pre in
  let guard_on := g ++ NL :: b2 ++ render_head he ++ tail in
  (∃ fuel0, ∀ fuel, fuel0 ≤ fuel →
     consume_next fuel (mk_io (pre ++ render_head h ++ guard_on) out err)
       ctx skip cur
     = Some (true, mk_io guard_on out1 err, ctx, Operation.Elif)) ∧
  (∃ fuel0, ∀ fuel, fuel0 ≤ fuel →
     consume_next fuel (mk_io guard_on out1 err) ctx
       (ignore || true || negb false) Operation.Elif
     = Some (true, mk_io tail out1 err, ctx, Operation.Endif)) ∧
  (∃ fuel0, ∀ fuel, fuel0 ≤ fuel →
     handle_if_loop fuel (mk_io (pre ++ render_head h ++ guard_on) out err)
       ctx ignore c o cur
     = Some (mk_io tail out1 err, ctx)).
Proof.
  intros Hh Hop Hhe Hope Hco Hpre Hg Hb2 skip out1 guard_on.
  assert (tail_ok : bool_decide (tail = []) = true → tail = [])
    by (intros H; by apply bool_decide_eq_true in H).
  assert (scans (mk_io (pre ++ render_head h ++ guard_on) out err) ctx skip cur
            (true, mk_io guard_on out1 err, ctx, Operation.Elif)) as Hscan1.
  { apply scan_text; [done|].
    pose proof (scan_head_branch false h guard_on out1 err ctx skip cur Hh)
      as Hsc. rewrite Hop in Hsc.
    replace (emit skip (mk_io (render_head h ++ guard_on) out err) pre)
      with (mk_io (render_head h ++ guard_on) out1 err)
      by (unfold out1; by destruct skip).
    apply Hsc; [done|auto]. }
  assert (scans (mk_io guard_on out1 err) ctx true Operation.Elif
            (true, mk_io tail out1 err, ctx, Operation.Endif)) as Hscan2.
  { unfold guard_on.
    replace (g ++ NL :: b2 ++ render_head he ++ tail)
      with ((g ++ NL :: b2) ++ render_head he ++ tail)
      by (by rewrite <- app_assoc).
    apply scan_skip_mk.
    { intros [H|H]%elem_of_app; [done|].
      by apply elem_of_cons in H as [?|?]. }
    pose proof (scan_head_branch _ he tail out1 err ctx true Operation.Elif
                  Hhe tail_ok) as Hsc.
    rewrite Hope in Hsc. apply Hsc. auto. }
  replace (ignore || true || negb false) with true by (by destruct ignore).
  split_and!.
  - by apply scans_from.
  - by apply scans_from.
  - apply loops_from.
    eapply loop_elif_fired; [exact Hscan1|done|].
    apply loop_endif.
    by replace (ignore || true || negb false) with true by (by destruct ignore).
Qed.

Lemma elif_after_fired_branch_is_not_evaluated_witness :
  let guard_on := txt ("(x &" +:+ nl +:+ "B#endif" +:+ nl +:+ "C") in
  (∃ fuel0, ∀ fuel, fuel0 ≤ fuel →
     consume_next fuel (mk_io (txt "A#elif " ++ guard_on) [] [])
       ctx0 false Operation.If
     = Some (true, mk_io guard_on (txt "A") [], ctx0, Operation.Elif)) ∧
  (∃ fuel0, ∀ fuel, fuel0 ≤ fuel →
     consume_next fuel (mk_io guard_on (txt "A") []) ctx0 true Operation.Elif
     = Some (true, mk_io (txt "C") (txt "A") [], ctx0, Operation.Endif)) ∧
  (∃ fuel0, ∀ fuel, fuel0 ≤ fuel →
     handle_if_loop fuel (mk_io (txt "A#elif " ++ guard_on) [] [])
       ctx0 false true false Operation.If
     = Some (mk_io (txt "C") (txt "A") [], ctx0)).
Proof.
  intros guard_on.
  refine (elif_after_fired_branch_is_not_evaluated
            false true false Operation.If (head_sp "elif") (head_nl "endif")
            (txt "A") (txt "(x &") (txt "B") (txt "C") [] [] ctx0
            _ _ _ _ _ _ _ _).
  - apply wf_head_sp; [by apply word_forallb|done|simpl; unfold MAX_BUF_SIZE; lia].
  - reflexivity.
  - unfold wf_head, head_nl. cbn [h_ws h_word h_sep].
    split_and!; [constructor|by apply word_forallb|done| |done].
    simpl. unfold MAX_BUF_SIZE. lia.
  - reflexivity.
  - reflexivity.
  - by apply no_marker_forallb.
  - by apply no_marker_forallb.
  - by apply no_marker_forallb.
Defined.

(** ** Stray [elif] / [else] / [endif] at the top level *)

Lemma consume_head_echo f h s out err ctx ignore eof :
  wf_head eof h → (eof = true → s = []) →
  head_op h ∈ [Operation.Elif; Operation.Else; Operation.Endif] →
  consume (S f) (mk_io (render_head h ++ s) out err) ctx ignore
  = consume f (emit ignore (mk_io s out err) (PP_START :: keyword (head_op h)))
      ctx ignore.
Proof.
  intros Hh Heof Hop. rewrite render_head_app.
  cbn [consume mk_io io_in].
  change (Ascii.eqb PP_START PP_START) with true. cbv iota.
  rewrite (extract_head eof h s Hh Heof).
  assert (c_str (h_word h) = keyword (head_op h)) as ->.
  { apply classify_keyword; [done|]. intros Hu. rewrite Hu in Hop.
    repeat (apply elem_of_cons in Hop as [Hop|Hop]; [done|]).
    by apply elem_of_nil in Hop. }
  repeat (apply elem_of_cons in Hop as [->|Hop]; [done|]).
  by apply elem_of_nil in Hop.
Qed.

(** C10.  An [elif], [else] or [endif] head met by the top-level loop is
    no error: [consume] goes on behind the head exactly as it would behind
    an unknown directive, having written the marker and the keyword when
    output is active and nothing to the diagnostics.  With plain text [a]
    before the head and plain text [b] behind it the whole run returns
    success and has written [a], the marker, the keyword and [b]; the
    blanks of the head are lost. *)
Theorem stray_branch_directive_is_echoed
    (h : head) (a b rest out : list ascii) (err : list string)
    (ctx : Context) (ignore : bool) (tags : gset string) (fuel : nat) :
  head_op h ∈ [Operation.Elif; Operation.Else; Operation.Endif] →
  (wf_head (bool_decide (rest = [])) h →
   consume (S fuel) (mk_io (render_head h ++ rest) out err) ctx ignore
   = consume fuel
       (mk_io rest
          (if ignore then out else out ++ PP_START :: keyword (head_op h)) err)
       ctx ignore) ∧
  (wf_head (bool_decide (b = [])) h → PP_START ∉ a → PP_START ∉ b →
   length a + length b + 2 ≤ fuel →
   parse fuel (a ++ render_head h ++ b) tags
   = Some (true, mk_io [] (a ++ PP_START :: keyword (head_op h) ++ b) [],
           mk_ctx tags 0)).
Proof.
  intros Hop. split.
  - intros Hh.
    rewrite (consume_head_echo fuel h rest out err ctx ignore _ Hh);
      [by destruct ignore|by intros ?%bool_decide_eq_true|done].
  - intros Hh Ha Hb Hfuel.
    apply (parse_mono (length a + S (S (length b)))); [|lia].
    unfold parse.
    etrans; [exact (consume_plain_prefix a (S (S (length b)))
                      (render_head h ++ b) [] [] (mk_ctx tags 0) Ha)|].
    rewrite (consume_head_echo _ h b _ _ _ false _ Hh);
      [|by intros ?%bool_decide_eq_true|done].
    rewrite (consume_plain b); [|done|done|lia].
    unfold emit, put, mk_io. simpl. by rewrite <- app_assoc.
Qed.

Lemma stray_branch_directive_is_echoed_witness :
  parse 12 (txt ("A# endif" +:+ nl +:+ "B")) ∅
  = Some (true, mk_io [] (txt ("A#endifB")) [], mk_ctx ∅ 0).
Proof.
  refine (proj2 (stray_branch_directive_is_echoed
                   {| h_ws := [" "%char]; h_word := txt "endif"; h_sep := Some NL |}
                   (txt "A") (txt "B") [] [] [] ctx0 false ∅ 12 _) _ _ _ _).
  - apply list_elem_of_further, list_elem_of_further, list_elem_of_here.
  - unfold wf_head. cbn [h_ws h_word h_sep].
    split_and!; [repeat constructor; done|by apply word_forallb|done| |done].
    simpl. unfold MAX_BUF_SIZE. lia.
  - by apply no_marker_forallb.
  - by apply no_marker_forallb.
  - simpl. lia.
Defined.

(** ** A parenthesised term in front of an operator *)

(** C2.  The code does not combine the two sides when the term in front of
    the operator stands in parentheses.  [binary_condition] takes the closing
    parenthesis for the end of its expression and consumes it;
    [primary_condition] then asks for it, finds the operator, reports that
    and returns false; back in the outer [binary_condition] the next token
    is a tag, so the operator is never applied.  [(a) || b] is false under
    every tag set, where [a || b] is the disjunction of the two tags. *)
Theorem parenthesised_term_is_not_folded (ctx : Context) (rest out : list ascii)
    (err : list string) :
  handle_condition (mk_io (txt "(a) || b" ++ NL :: rest) out err) ctx
  = (false, mk_io rest out (err ++ ["Expected ')' but got '||'"])) ∧
  handle_condition (mk_io (txt "a || b" ++ NL :: rest) out err) ctx
  = (has_tag ctx "a" || has_tag ctx "b", mk_io rest out err).
Proof.
  split; unfold handle_condition, mk_io; lazy -[has_tag app orb]; reflexivity.
Qed.

(** ** The operator in front of the rest *)

(** With a depth budget that suffices, [binary_condition] evaluates one unary
    term and, whenever the token it stops at is [And], [Or] or [Xor],
    evaluates everything behind the operator as one binary condition and
    combines the two values, without precedence: under every tag set the
    line [a && b || c] has the value of [a && (b || c)]. *)
Theorem operator_folds_the_rest
    (ctx : Context) (lx : ExprLexer) (err : list string) (fuel : nat)
    (rest out : list ascii) (e : list string) :
  (cond_fuel lx ≤ fuel →
   ∃ a lx1 err1,
     unary_condition fuel lx err ctx = Some (a, lx1, err1) ∧
     ∀ op, op ∈ [TokenType.And; TokenType.Or; TokenType.Xor] →
       Type_ (current lx1) = op →
       ∃ b lx2 err2,
         binary_condition fuel (accept lx1) err1 ctx = Some (b, lx2, err2) ∧
         binary_condition fuel lx err ctx = Some (apply_op op a b, lx2, err2)) ∧
  handle_condition (mk_io (txt "a && b || c" ++ NL :: rest) out e) ctx
  = (has_tag ctx "a" && (has_tag ctx "b" || has_tag ctx "c"), mk_io rest out e).
Proof.
  split; [apply binary_condition_operator|].
  unfold handle_condition, mk_io. lazy -[has_tag app andb orb]. reflexivity.
Qed.

Lemma operator_folds_the_rest_witness :
  let ctx := {| Tags := {[ "a"; "c" ]}; Depth := 0 |} in
  let lx := {| mTokens := abc_tokens; mPosition := 0 |} in
  (cond_fuel lx ≤ 18 →
   ∃ a lx1 err1,
     unary_condition 18 lx [] ctx = Some (a, lx1, err1) ∧
     ∀ op, op ∈ [TokenType.And; TokenType.Or; TokenType.Xor] →
       Type_ (current lx1) = op →
       ∃ b lx2 err2,
         binary_condition 18 (accept lx1) err1 ctx = Some (b, lx2, err2) ∧
         binary_condition 18 lx [] ctx = Some (apply_op op a b, lx2, err2)) ∧
  handle_condition (mk_io (txt "a && b || c" ++ NL :: txt "X") [] []) ctx
  = (has_tag ctx "a" && (has_tag ctx "b" || has_tag ctx "c"), mk_io (txt "X") [] []).
Proof.
  intros ctx lx. exact (operator_folds_the_rest ctx lx [] 18 (txt "X") [] []).
Defined.
